(** * Signal scheduling and connection override (Tone.js [signal/Signal.js])

    A shallow embedding of [connectSignal], [disconnectSignal] and the
    [Signal] class of [src/node_modules/tone/build/esm/signal/Signal.js],
    of the parts of [signal/ToneConstantSource.js] and
    [signal/SignalOperator.js] they use, and of the parameter automation
    engine that [Signal] forwards to.  That engine, [core/context/Param.js],
    is not among the sources: it is modelled from the specification, in
    [Module Param].

    JavaScript numbers are IEEE doubles; they are modelled as real numbers.
    Units and their conversion are outside the model: a value is the raw
    number the timeline stores. *)

From Stdlib Require Import Reals Lra Lia ZArith.
From stdpp Require Import base decidable option list gmap.

#[global] Instance Rlt_decision (x y : R) : Decision (x < y)%R := Rlt_dec x y.
#[global] Instance Rle_decision (x y : R) : Decision (x <= y)%R := Rle_dec x y.
#[global] Instance Req_decision : EqDecision R := Req_dec_T.

(** ** The parameter automation engine *)

Module Param.

Local Open Scope R_scope.

(** Modelled from the spec: the kinds of automation event of the data
    model ([core/context/Param.js] is not among the sources).  The value
    curve event, whose sampling the spec leaves open, is not modelled. *)
Inductive EventType : Set :=
  | SetValue
  | LinearRamp
  | ExponentialRamp
  | SetTarget.

#[global] Instance EventType_eq_dec : EqDecision EventType.
Proof. solve_decision. Defined.

(** Modelled from the spec: an AutomationEvent; [constant] is the time
    constant of a [SetTarget] event and is [0] for the other kinds. *)
Record AutomationEvent : Type := mkEvent {
  time : R;
  type : EventType;
  value : R;
  constant : R
}.

(** Modelled from the spec: a Parameter.  [events] is its Timeline,
    [initialValue] the static value it was created with, [None] bounds
    stand for an infinite bound. *)
Record t : Type := mkParam {
  events : list AutomationEvent;
  initialValue : R;
  minValue : option R;
  maxValue : option R;
  overridden : bool
}.

(** Modelled from the spec: the two ramp kinds, linear and exponential. *)
Definition isRamp (k : EventType) : bool :=
  match k with
  | LinearRamp | ExponentialRamp => true
  | SetValue | SetTarget => false
  end.

(** *** Event Timeline *)

(** Modelled from the spec: [insert] keeps the time order and an event
    already stored at exactly the new event's time is replaced; a
    [SetTarget] that started before is retained, at its own earlier time.
    The spec leaves the rule that would reject an insertion to the
    implementer; the model rejects none. *)
Definition insert (e : AutomationEvent) (tl : list AutomationEvent)
  : list AutomationEvent :=
  filter (fun x => time x < time e) tl ++ e :: filter (fun x => time e < time x) tl.

(** Modelled from the spec: the bracketing pair at a query time, the
    latest event at or before [q] and the earliest event after it. *)
Definition getEventAt (tl : list AutomationEvent) (q : R)
  : option AutomationEvent * option AutomationEvent :=
  (last (filter (fun x => time x <= q) tl), head (filter (fun x => q < time x) tl)).

(** Modelled from the spec: the pair around a cancellation time, the
    latest event strictly before [q] and the earliest event at or after it
    (the first event that [cancelFrom] removes). *)
Definition getEventsAround (tl : list AutomationEvent) (q : R)
  : option AutomationEvent * option AutomationEvent :=
  (last (filter (fun x => time x < q) tl), head (filter (fun x => q <= time x) tl)).

(** *** Automation Curve Evaluator *)

(** Modelled from the spec: a query time outside [[t0, t1]] is clamped
    to the nearer endpoint. *)
Definition clampTime (t0 t1 q : R) : R := Rmax t0 (Rmin t1 q).

(** Modelled from the spec: linear interpolation between [(t0, v0)] and
    [(t1, v1)]. *)
Definition linearInterpolate (t0 v0 t1 v1 q : R) : R :=
  v0 + (v1 - v0) * ((clampTime t0 t1 q - t0) / (t1 - t0)).

(** Modelled from the spec: [v0 * (v1/v0)^((t-t0)/(t1-t0))], with the
    linear fallback when an endpoint is zero or the signs differ. *)
Definition exponentialInterpolate (t0 v0 t1 v1 q : R) : R :=
  if bool_decide (v0 = 0) || bool_decide (v1 = 0) || bool_decide (v0 * v1 < 0)
  then linearInterpolate t0 v0 t1 v1 q
  else v0 * Rpower (v1 / v0) ((clampTime t0 t1 q - t0) / (t1 - t0)).

(** Modelled from the spec: the approach of a target,
    [target + (v_start - target) * exp(-(t - t0)/tau)]. *)
Definition exponentialApproach (t0 vstart target tau q : R) : R :=
  target + (vstart - target) * exp (- (q - t0) / tau).

(** Modelled from the spec: the value a [SetTarget] event starts from
    ([v_start]) is the value of the event stored before it, or the static
    initial value when there is none. *)
Definition startValue (init : R) (tl : list AutomationEvent) (e : AutomationEvent) : R :=
  match last (filter (fun x => time x < time e) tl) with
  | Some b => value b
  | None => init
  end.

(** Modelled from the spec: what the previous event alone gives, its
    value held, or the approach of its target when it is a [SetTarget]. *)
Definition hold (init : R) (tl : list AutomationEvent) (p : AutomationEvent) (q : R) : R :=
  match type p with
  | SetTarget =>
      exponentialApproach (time p) (startValue init tl p) (value p) (constant p) q
  | _ => value p
  end.

(** Modelled from the spec: [evaluate(previous, next, queryTime)].  With
    no previous event the value is the static initial value; a next event
    that is a ramp interpolates from [(previous.time, previous.value)];
    otherwise the previous event holds. *)
Definition evaluate (init : R) (tl : list AutomationEvent)
    (previous next : option AutomationEvent) (q : R) : R :=
  match previous with
  | None => init
  | Some p =>
      match next with
      | Some n =>
          match type n with
          | LinearRamp => linearInterpolate (time p) (value p) (time n) (value n) q
          | ExponentialRamp =>
              exponentialInterpolate (time p) (value p) (time n) (value n) q
          | _ => hold init tl p q
          end
      | None => hold init tl p q
      end
  end.

(** Modelled from the spec: every output is clamped to the finite
    bounds. *)
Definition clamp (lo hi : option R) (v : R) : R :=
  let v1 := match lo with Some m => Rmax m v | None => v end in
  match hi with Some M => Rmin M v1 | None => v1 end.

(** Modelled from the spec: [cancelFrom(time)] removes every event at or
    after [q]; a ramp in progress at [q] is cut off there (it becomes a ramp
    that ends at [q] on the value it had reached), and a target approach in
    progress at [q] is followed by a hold of the value it had reached. *)
Definition cancelFrom (init : R) (q : R) (tl : list AutomationEvent)
  : list AutomationEvent :=
  let kept := filter (fun x => time x < q) tl in
  match getEventsAround tl q with
  | (Some p, Some n) =>
      if isRamp (type n)
      then kept ++ [mkEvent q (type n) (evaluate init tl (Some p) (Some n) q) 0]
      else match type p with
           | SetTarget => kept ++ [mkEvent q SetValue (hold init tl p q) 0]
           | _ => kept
           end
  | (Some p, None) =>
      match type p with
      | SetTarget => kept ++ [mkEvent q SetValue (hold init tl p q) 0]
      | _ => kept
      end
  | (None, _) => kept
  end.

(** *** Parameter *)

(** Modelled from the spec: a scheduling call returns the parameter or
    fails with a RangeError. *)
Inductive result (A : Type) : Type :=
  | Ok (a : A)
  | RangeError.
Arguments Ok {A} a.
Arguments RangeError {A}.

(** Modelled from the spec: a parameter is created with an initial value
    and a range; nothing is scheduled and it is not overridden. *)
Definition create (v : R) (lo hi : option R) : t :=
  mkParam [] v lo hi false.

Definition withEvents (p : t) (tl : list AutomationEvent) : t :=
  mkParam tl (initialValue p) (minValue p) (maxValue p) (overridden p).

(** Modelled from the spec: assignment of the [overridden] field. *)
Definition setOverridden (b : bool) (p : t) : t :=
  mkParam (events p) (initialValue p) (minValue p) (maxValue p) b.

(** Modelled from the spec: a value is accepted by a scheduling call when
    it is not outside the bounds that are finite. *)
Definition inRange (p : t) (v : R) : bool :=
  match minValue p with Some m => bool_decide (m <= v) | None => true end &&
  match maxValue p with Some M => bool_decide (v <= M) | None => true end.

(** Modelled from the spec: the parameter once a scheduling call has
    inserted its event into the timeline. *)
Definition withSetValue (v q : R) (p : t) : t :=
  withEvents p (insert (mkEvent q SetValue v 0) (events p)).

Definition withLinearRamp (v q : R) (p : t) : t :=
  withEvents p (insert (mkEvent q LinearRamp v 0) (events p)).

Definition withExponentialRamp (v q : R) (p : t) : t :=
  withEvents p (insert (mkEvent q ExponentialRamp v 0) (events p)).


(** Modelled from the spec: each scheduling call fails with a RangeError,
    raised at schedule time, when the value is outside the bounds, and
    inserts one event otherwise.  (Values are clamped on evaluation as
    well, which matters for the static initial value.) *)
Definition setValueAtTime (v q : R) (p : t) : result t :=
  if inRange p v then Ok (withSetValue v q p) else RangeError.

(** Modelled from the spec: [linearRampToValueAtTime] inserts a
    [LinearRamp] event. *)
Definition linearRampToValueAtTime (v q : R) (p : t) : result t :=
  if inRange p v then Ok (withLinearRamp v q p) else RangeError.

(** Modelled from the spec: [exponentialRampToValueAtTime] inserts an
    [ExponentialRamp] event. *)
Definition exponentialRampToValueAtTime (v q : R) (p : t) : result t :=
  if inRange p v then Ok (withExponentialRamp v q p) else RangeError.


(** Modelled from the spec: [cancelScheduledValues] delegates to
    [cancelFrom]. *)
Definition cancelScheduledValues (q : R) (p : t) : t :=
  withEvents p (cancelFrom (initialValue p) q (events p)).

(** Modelled from the spec: [getValueAtTime] delegates to the evaluator
    on the bracketing pair and clamps. *)
Definition getValueAtTime (p : t) (q : R) : R :=
  let '(previous, next) := getEventAt (events p) q in
  clamp (minValue p) (maxValue p)
        (evaluate (initialValue p) (events p) previous next q).

(** Modelled from the spec: reading [value] evaluates at the current time
    of the clock. *)
Definition get_value (now : R) (p : t) : R := getValueAtTime p now.


End Param.

(** ** Objects, references and the store *)

(** A [ToneConstantSource] object.  [_source] is the native constant
    source node, which exists only once the context runs, with the time it
    was started at if it was.  [_startTime] is the time passed on to
    [_startGain] of [OneShotSource], which is not among the sources.  The
    [offset] parameter of the object is kept in the [Signal] that owns it. *)
Record ToneConstantSource : Type := mkConstantSource {
  _source : option (option R);
  _startTime : option R
}.

(** A [Signal] object: the [override] field, the backing parameter
    ([_param], which is also [input] and [_constantSource.offset]) and the
    constant source. *)
Record Signal : Type := mkSignal {
  override : bool;
  _param : Param.t;
  _constantSource : ToneConstantSource
}.

(** The classes that [connectSignal] and [disconnectSignal] tell apart:
    [instanceof Param], [instanceof Signal], a native AudioParam
    ([isAudioParam]) of which only the [value] that is read from it is kept,
    and any other node. *)
Inductive Obj : Type :=
  | OParam (p : Param.t)
  | OSignal (s : Signal)
  | OAudioParam (v : R)
  | ONode.

(** A reference is the address of an object, or the [input] of the object
    at an address: for a [Signal] that is its backing [Param]. *)
Inductive Ref : Set :=
  | Direct (a : nat)
  | Input (a : nat).

#[global] Instance Ref_eq_dec : EqDecision Ref.
Proof. solve_decision. Defined.

(** An entry of the array kept per source signal in [connectedSignals].
    [ident] stands for the identity of the JavaScript object, which is what
    [Array.prototype.includes] compares. *)
Record Connection : Type := mkConnection {
  ident : nat;
  destination : Ref;
  outputNum : nat;
  inputNum : nat;
  previousValue : R
}.

(** Calls made on other objects, in the order they are made. *)
Inductive Call : Type :=
  | Call_value (d : Ref)
  | Call_cancelScheduledValues (d : Ref) (q : R)
  | Call_setValueAtTime (d : Ref) (v q : R)
  | Call_set_overridden (d : Ref) (b : bool)
  | Call_connect (s : nat) (d : Ref) (o i : option nat)
  | Call_disconnect (s : nat) (d : option Ref) (o i : option nat).

(** The state: the objects by address, the [connectedSignals] map from a
    source to its array of records, the current time of the clock, the
    calls made so far and the next free object identity. *)
Record World : Type := mkWorld {
  heap : gmap nat Obj;
  connectedSignals : gmap nat (list Connection);
  now : R;
  calls : list Call;
  nextIdent : nat
}.

Definition setHeap (h : gmap nat Obj) (w : World) : World :=
  mkWorld h (connectedSignals w) (now w) (calls w) (nextIdent w).

Definition setConnected (m : gmap nat (list Connection)) (w : World) : World :=
  mkWorld (heap w) m (now w) (calls w) (nextIdent w).

Definition record (c : Call) (w : World) : World :=
  mkWorld (heap w) (connectedSignals w) (now w) (calls w ++ [c]) (nextIdent w).

(** The object a reference reaches, if any. *)
Definition resolve (w : World) (r : Ref) : option Obj :=
  match r with
  | Direct a => heap w !! a
  | Input a =>
      match heap w !! a with
      | Some (OSignal s) => Some (OParam (_param s))
      | _ => None
      end
  end.

Definition isParam (w : World) (r : Ref) : bool :=
  match resolve w r with Some (OParam _) => true | _ => false end.

Definition isSignal (w : World) (r : Ref) : bool :=
  match resolve w r with Some (OSignal _) => true | _ => false end.

Definition isAudioParam (w : World) (r : Ref) : bool :=
  match resolve w r with Some (OAudioParam _) => true | _ => false end.

(** The [Param] that a call on [r] reaches: the object itself, or the
    backing parameter when [r] is a [Signal]. *)
Definition paramOf (w : World) (r : Ref) : option Param.t :=
  match resolve w r with
  | Some (OParam p) => Some p
  | Some (OSignal s) => Some (_param s)
  | _ => None
  end.

(** ** Computations: state passing with exceptions *)

(** [new Error("Not connected to destination node")], and the RangeError
    of a scheduling call. *)
Inductive Error : Set :=
  | NotConnected
  | RangeError.

Inductive outcome (A : Type) : Type :=
  | Returns (a : A) (w : World)
  | Throws (e : Error) (w : World).
Arguments Returns {A} a w.
Arguments Throws {A} e w.

Definition M (A : Type) : Type := World -> outcome A.

Definition ret {A} (a : A) : M A := fun w => Returns a w.

Definition bind {A B} (c : M A) (k : A -> M B) : M B :=
  fun w => match c w with
           | Returns a w' => k a w'
           | Throws e w' => Throws e w'
           end.

Definition throw {A} (e : Error) : M A := fun w => Throws e w.

Definition get {A} (f : World -> A) : M A := fun w => Returns (f w) w.

Definition modify (f : World -> World) : M unit := fun w => Returns tt (f w).

Definition when (b : bool) (c : M unit) : M unit := if b then c else ret tt.

Fixpoint forEach {A} (l : list A) (k : A -> M unit) : M unit :=
  match l with
  | [] => ret tt
  | x :: l' => bind (k x) (fun _ => forEach l' k)
  end.

Declare Scope js_scope.
Delimit Scope js_scope with js.
Notation "x <- c ;; k" := (bind c (fun x => k))
  (at level 100, c at next level, right associativity) : js_scope.
Notation "c ;; k" := (bind c (fun _ => k))
  (at level 100, right associativity) : js_scope.

Local Open Scope js_scope.

(** ** The [ToneConstantSource] class *)

(** The constructor: the native node is created at once unless the
    context is suspended ([isSuspended]). *)
Definition ToneConstantSource_constructor (isSuspended : bool) : ToneConstantSource :=
  mkConstantSource (if isSuspended then None else Some None) None.

(** [start(time)]: [_startGain(computedTime)], then
    [this._source?.start(computedTime)].  The time is a number of seconds,
    which [toSeconds] leaves as it is. *)
Definition ToneConstantSource_start (time : R) (this : ToneConstantSource)
  : ToneConstantSource :=
  let computedTime := time in
  mkConstantSource
    (match _source this with
     | Some _ => Some (Some computedTime)
     | None => None
     end)
    (Some computedTime).

(** [_contextStarted(state)], the handler of the context's state change:
    when the context runs, the native node is created, and started at [0]
    if the source is in its started state ([started], the [state] getter of
    [OneShotSource]). *)
Definition ToneConstantSource_contextStarted (running started : bool)
    (this : ToneConstantSource) : ToneConstantSource :=
  if running
  then mkConstantSource (Some (if started then Some 0%R else None)) (_startTime this)
  else this.

(** ** The [Signal] class

    Every scheduling method of [Signal] is a proxy for the same method of
    [this._param]; those that return [this] are modelled by the updated
    object, and an error raised by the method of the parameter is raised
    by the proxy. *)

Definition withParam (f : Param.t -> Param.t) (s : Signal) : Signal :=
  mkSignal (override s) (f (_param s)) (_constantSource s).

(** [this._param.m(...); return this] for a method [m] that can raise. *)
Definition forward (r : Param.result Param.t) (this : Signal) : Param.result Signal :=
  match r with
  | Param.Ok p => Param.Ok (withParam (fun _ => p) this)
  | Param.RangeError => Param.RangeError
  end.

(** [new Signal({value, minValue, maxValue})], in a context that is
    suspended or not: [override] is set, the constant source is created
    with the value as its [offset] parameter and started at [0]. *)
Definition Signal_constructor (isSuspended : bool) (value : R)
    (minValue maxValue : option R) : Signal :=
  mkSignal true (Param.create value minValue maxValue)
           (ToneConstantSource_start 0 (ToneConstantSource_constructor isSuspended)).

Definition Signal_setValueAtTime (value q : R) (this : Signal) : Param.result Signal :=
  forward (Param.setValueAtTime value q (_param this)) this.

Definition Signal_getValueAtTime (this : Signal) (q : R) : R :=
  Param.getValueAtTime (_param this) q.

Definition Signal_linearRampToValueAtTime (value q : R) (this : Signal)
  : Param.result Signal :=
  forward (Param.linearRampToValueAtTime value q (_param this)) this.

Definition Signal_exponentialRampToValueAtTime (value q : R) (this : Signal)
  : Param.result Signal :=
  forward (Param.exponentialRampToValueAtTime value q (_param this)) this.


Definition Signal_cancelScheduledValues (q : R) (this : Signal) : Signal :=
  withParam (Param.cancelScheduledValues q) this.

Definition Signal_get_value (now : R) (this : Signal) : R :=
  Param.get_value now (_param this).


Definition Signal_get_overridden (this : Signal) : bool :=
  Param.overridden (_param this).

Definition Signal_set_overridden (b : bool) (this : Signal) : Signal :=
  withParam (Param.setOverridden b) this.

(** ** Calls on a destination

    A call on a reference is dispatched on the class of the object it
    reaches.  [f] is the [Param] method and [g] the [Signal] method of the
    same name.  A native AudioParam is driven by the renderer, which is
    outside the model: the call is recorded and the value read from it does
    not change. *)
Definition dispatch (f : Param.t -> Param.t) (g : Signal -> Signal) (r : Ref)
    (w : World) : World :=
  match r with
  | Direct a =>
      setHeap (alter (fun o => match o with
                               | OParam p => OParam (f p)
                               | OSignal s => OSignal (g s)
                               | _ => o
                               end) a (heap w)) w
  | Input a =>
      setHeap (alter (fun o => match o with
                               | OSignal s => OSignal (withParam f s)
                               | _ => o
                               end) a (heap w)) w
  end.

(** A call of a method that can raise: the object is replaced by the one
    the method returns, or the error is thrown and the object is left as
    it was. *)
Definition dispatchResult (f : Param.t -> Param.result Param.t)
    (g : Signal -> Param.result Signal) (r : Ref) : M unit :=
  fun w =>
    match r with
    | Direct a =>
        match heap w !! a with
        | Some (OParam p) =>
            match f p with
            | Param.Ok p' => Returns tt (setHeap (<[a := OParam p']> (heap w)) w)
            | Param.RangeError => Throws RangeError w
            end
        | Some (OSignal s) =>
            match g s with
            | Param.Ok s' => Returns tt (setHeap (<[a := OSignal s']> (heap w)) w)
            | Param.RangeError => Throws RangeError w
            end
        | _ => Returns tt w
        end
    | Input a =>
        match heap w !! a with
        | Some (OSignal s) =>
            match f (_param s) with
            | Param.Ok p' =>
                Returns tt (setHeap (<[a := OSignal (withParam (fun _ => p') s)]> (heap w)) w)
            | Param.RangeError => Throws RangeError w
            end
        | _ => Returns tt w
        end
    end.

(** The value read from a destination.  [connectSignal] reads it only
    behind its guard, where the reference reaches a parameter. *)
Definition readValue (w : World) (r : Ref) : R :=
  match resolve w r with
  | Some (OParam p) => Param.get_value (now w) p
  | Some (OSignal s) => Signal_get_value (now w) s
  | Some (OAudioParam v) => v
  | _ => 0%R
  end.

Definition readOverridden (w : World) (r : Ref) : option bool :=
  match resolve w r with
  | Some (OParam p) => Some (Param.overridden p)
  | Some (OSignal s) => Some (Signal_get_overridden s)
  | _ => None
  end.

Definition dest_value (d : Ref) : M R :=
  fun w => Returns (readValue w d) (record (Call_value d) w).

Definition dest_cancelScheduledValues (d : Ref) (q : R) : M unit :=
  modify (fun w => dispatch (Param.cancelScheduledValues q)
                            (Signal_cancelScheduledValues q) d
                            (record (Call_cancelScheduledValues d q) w)).

Definition dest_setValueAtTime (d : Ref) (v q : R) : M unit :=
  modify (record (Call_setValueAtTime d v q)) ;;
  dispatchResult (Param.setValueAtTime v q) (Signal_setValueAtTime v q) d.

Definition dest_set_overridden (d : Ref) (b : bool) : M unit :=
  modify (fun w => dispatch (Param.setOverridden b)
                            (Signal_set_overridden b) d
                            (record (Call_set_overridden d b) w)).

(** Modelled from the spec: [connect] and [disconnect] of
    [core/context/ToneAudioNode.js], which is not among the sources, perform
    the underlying graph connection and disconnection; the calls are
    recorded. *)
Definition connect (s : nat) (d : Ref) (o i : option nat) : M unit :=
  modify (record (Call_connect s d o i)).

Definition disconnect (s : nat) (d : option Ref) (o i : option nat) : M unit :=
  modify (record (Call_disconnect s d o i)).

(** ** [connectSignal] and [disconnectSignal] *)

(** [destination instanceof Param || isAudioParam(destination) ||
    (destination instanceof Signal && destination.override)] *)
Definition overridable (w : World) (d : Ref) : bool :=
  isParam w d || isAudioParam w d ||
  match resolve w d with
  | Some (OSignal s) => override s
  | _ => false
  end.

(** [destination instanceof Signal || destination instanceof Param] *)
Definition isToneParam (w : World) (d : Ref) : bool :=
  isSignal w d || isParam w d.

(** [x || 0] on an optional index. *)
Definition orZero (x : option nat) : nat := default 0 x.

(** [connectedSignals.get(signal)?.push({destination, outputNum, inputNum,
    previousValue})]: the record is a new object. *)
Definition push (signal : nat) (d : Ref) (o i : nat) (v : R) : M unit :=
  modify (fun w =>
    match connectedSignals w !! signal with
    | Some l =>
        mkWorld (heap w)
                (<[signal := l ++ [mkConnection (nextIdent w) d o i v]]>
                   (connectedSignals w))
                (now w) (calls w) (S (nextIdent w))
    | None => w
    end).

(** [connectSignal] (lines 205-231). *)
Definition connectSignal (signal : nat) (destination : Ref)
    (outputNum inputNum : option nat) : M unit :=
  eligible <- get (fun w => overridable w destination) ;;
  when eligible (
    previousValue <- dest_value destination ;;
    dest_cancelScheduledValues destination 0 ;;
    dest_setValueAtTime destination 0 0 ;;
    tone <- get (fun w => isToneParam w destination) ;;
    when tone (dest_set_overridden destination true) ;;
    has <- get (fun w => bool_decide (is_Some (connectedSignals w !! signal))) ;;
    when (negb has)
      (modify (fun w => setConnected (<[signal := []]> (connectedSignals w)) w)) ;;
    push signal destination (orZero outputNum) (orZero inputNum) previousValue
  ) ;;
  connect signal destination outputNum inputNum.

(** The predicate of the [filter] of [disconnectSignal]: [isUndef(x) ||
    conn.x === x] on each index. *)
Definition matches (d : Ref) (o i : option nat) (conn : Connection) : bool :=
  bool_decide (destination conn = d) &&
  match o with None => true | Some n => bool_decide (outputNum conn = n) end &&
  match i with None => true | Some n => bool_decide (inputNum conn = n) end.

(** [connections.includes(conn)], on object identity. *)
Definition includes (connections : list Connection) (conn : Connection) : bool :=
  existsb (fun c => Nat.eqb (ident c) (ident conn)) connections.

(** The body of the [forEach] of [disconnectSignal] (lines 258-264). *)
Definition restore (connection : Connection) : M unit :=
  tone <- get (fun w => isToneParam w (destination connection)) ;;
  when tone (dest_set_overridden (destination connection) false) ;;
  dest_setValueAtTime (destination connection) (previousValue connection) 0.

(** [disconnectSignal] (lines 240-272).  [stored] is [Some] when
    [connectedSignals.has(signal)]; a destination that is given is an
    object, hence truthy. *)
Definition disconnectSignal (signal : nat) (destination : option Ref)
    (outputNum inputNum : option nat) : M unit :=
  eligible <- get (fun w => match destination with
                            | Some d => overridable w d
                            | None => true
                            end) ;;
  when eligible (
    stored <- get (fun w => connectedSignals w !! signal) ;;
    match stored with
    | Some l =>
        let connections :=
          match destination with
          | Some d => filter (fun conn => matches d outputNum inputNum conn) l
          | None => l
          end in
        (if Nat.eqb (length connections) 0 then throw NotConnected else ret tt) ;;
        forEach connections restore ;;
        modify (fun w =>
          match connectedSignals w !! signal with
          | Some l' =>
              setConnected
                (<[signal := filter (fun conn => negb (includes connections conn)) l']>
                   (connectedSignals w)) w
          | None => w
          end)
    | None => ret tt
    end
  ) ;;
  disconnect signal destination outputNum inputNum.

(** [Signal.prototype.connect] and [Signal.prototype.disconnect]. *)
Definition Signal_connect (this : nat) (destination : Ref)
    (outputNum inputNum : option nat) : M unit :=
  connectSignal this destination (Some (orZero outputNum)) (Some (orZero inputNum)).

Definition Signal_disconnect (this : nat) (destination : option Ref)
    (outputNum inputNum : option nat) : M unit :=
  disconnectSignal this destination outputNum inputNum.



(** ** Vocabulary of the statements *)

(** [v] lies within the clamp bounds of [p]. *)
Definition within (p : Param.t) (v : R) : Prop :=
  (forall m, Param.minValue p = Some m -> (m <= v)%R) /\
  (forall M, Param.maxValue p = Some M -> (v <= M)%R).

(** Nothing is scheduled after time [0]. *)
Definition settled (p : Param.t) : Prop :=
  forall x, x ∈ Param.events p -> (Param.time x <= 0)%R.

Definition sameBounds (p q : Param.t) : Prop :=
  Param.minValue q = Param.minValue p /\ Param.maxValue q = Param.maxValue p.

Definition addr (r : Ref) : nat :=
  match r with Direct a | Input a => a end.

(** The [overridden] flag of the parameter stored at an address. *)
Definition flagAt (w : World) (a : nat) : bool :=
  match heap w !! a with
  | Some (OParam p) => Param.overridden p
  | Some (OSignal s) => Signal_get_overridden s
  | _ => false
  end.

(** A recorded call of the [Param] method [f] on the destination [r]. *)
Definition call (c : Call) (f : Param.t -> Param.t) (r : Ref) (w : World) : World :=
  dispatch f (withParam f) r (record c w).

(** [setValueAtTime(v, _)] on [d] does not raise: [d] is no [Param] and no
    [Signal], or [v] is within its bounds. *)
Definition accepts (w : World) (d : Ref) (v : R) : bool :=
  match paramOf w d with
  | Some p => Param.inRange p v
  | None => true
  end.

Definition pushed (signal : nat) (c : Connection) (w : World) : World :=
  mkWorld (heap w)
          (<[signal := default [] (connectedSignals w !! signal) ++ [c]]> (connectedSignals w))
          (now w) (calls w) (S (nextIdent w)).

(** The world that [connectSignal] leaves, step by step. *)
Definition connected (s : nat) (d : Ref) (o i : option nat) (w : World) : World :=
  if overridable w d then
    let w1 := record (Call_value d) w in
    let w2 := call (Call_cancelScheduledValues d 0) (Param.cancelScheduledValues 0) d w1 in
    let w3 := call (Call_setValueAtTime d 0 0) (Param.withSetValue 0 0) d w2 in
    let w4 := if isToneParam w d
              then call (Call_set_overridden d true) (Param.setOverridden true) d w3
              else w3 in
    record (Call_connect s d o i)
           (pushed s (mkConnection (nextIdent w) d (orZero o) (orZero i) (readValue w d)) w4)
  else record (Call_connect s d o i) w.

(** When [connectSignal] throws: the destination passes its test and does
    not accept the value [0]. *)
Definition rejected (w : World) (d : Ref) : bool :=
  overridable w d && negb (accepts w d 0).

(** The world in which [connectSignal] then stops: the value has been
    read, the schedule cancelled and the zeroing call made. *)
Definition refused (d : Ref) (w : World) : World :=
  record (Call_setValueAtTime d 0 0)
    (call (Call_cancelScheduledValues d 0) (Param.cancelScheduledValues 0) d
          (record (Call_value d) w)).

Definition guard (w : World) (d : option Ref) : bool :=
  match d with Some d' => overridable w d' | None => true end.

(** The records that [disconnectSignal] restores and removes. *)
Definition selected (d : option Ref) (o i : option nat) (l : list Connection)
  : list Connection :=
  match d with
  | Some d' => filter (fun conn => matches d' o i conn) l
  | None => l
  end.

(** The world after the flag of the destination of a record has been
    cleared, where it has one. *)
Definition unmarked (w : World) (c : Connection) : World :=
  if isToneParam w (destination c)
  then call (Call_set_overridden (destination c) false)
            (Param.setOverridden false) (destination c) w
  else w.

Definition restored (w : World) (c : Connection) : World :=
  call (Call_setValueAtTime (destination c) (previousValue c) 0)
       (Param.withSetValue (previousValue c) 0) (destination c)
       (unmarked w c).

(** Every record of the list holds a value that its destination accepts. *)
Definition restorable (w : World) (l : list Connection) : bool :=
  forallb (fun c => accepts w (destination c) (previousValue c)) l.

(** The world in which the [forEach] of [disconnectSignal] stops when the
    restoring call of a record raises: the records before it are restored,
    its own flag is cleared and its call is made. *)
Fixpoint interrupted (w : World) (l : list Connection) : World :=
  match l with
  | [] => w
  | c :: l' =>
      if accepts w (destination c) (previousValue c)
      then interrupted (restored w c) l'
      else record (Call_setValueAtTime (destination c) (previousValue c) 0)
                  (unmarked w c)
  end.

(** The world that [disconnectSignal] leaves when it returns. *)
Definition disconnected (s : nat) (d : option Ref) (o i : option nat) (w : World)
  : World :=
  match (if guard w d then connectedSignals w !! s else None) with
  | Some l =>
      let sel := selected d o i l in
      let w1 := foldl restored w sel in
      record (Call_disconnect s d o i)
        (setConnected
           (<[s := filter (fun conn => negb (includes sel conn)) l]> (connectedSignals w1))
           w1)
  | None => record (Call_disconnect s d o i) w
  end.

(** When [disconnectSignal] throws the not-connected error. *)
Definition unmatched (s : nat) (d : option Ref) (o i : option nat) (w : World) : bool :=
  guard w d &&
  match connectedSignals w !! s with
  | Some l => bool_decide (selected d o i l = [])
  | None => false
  end.

(** When a restoring call of [disconnectSignal] raises, and the world in
    which it then stops. *)
Definition unrestorable (s : nat) (d : option Ref) (o i : option nat) (w : World)
  : bool :=
  match (if guard w d then connectedSignals w !! s else None) with
  | Some l => negb (restorable w (selected d o i l))
  | None => false
  end.

Definition stopped (s : nat) (d : option Ref) (o i : option nat) (w : World)
  : World :=
  match (if guard w d then connectedSignals w !! s else None) with
  | Some l => interrupted w (selected d o i l)
  | None => w
  end.

(** The calls that restoring one record makes. *)
Definition restoreCalls (w : World) (c : Connection) : list Call :=
  (if isToneParam w (destination c)
   then [Call_set_overridden (destination c) false] else [])
  ++ [Call_setValueAtTime (destination c) (previousValue c) 0].

Definition cleared (w : World) (l : list Connection) (a : nat) : bool :=
  existsb (fun c => isToneParam w (destination c) && bool_decide (a = addr (destination c))) l.

(** The parameter of a destination after the records of a list, all on
    that destination, have been restored one after the other. *)
Definition restoredParam (p : Param.t) (l : list Connection) : Param.t :=
  foldl (fun p c => Param.withSetValue (previousValue c) 0 (Param.setOverridden false p))
        p l.

(** *** Sequences of operations *)

Inductive Op : Type :=
  | Connect (s : nat) (d : Ref) (o i : option nat)
  | Disconnect (s : nat) (d : option Ref) (o i : option nat).

Definition perform (op : Op) : M unit :=
  match op with
  | Connect s d o i => connectSignal s d o i
  | Disconnect s d o i => disconnectSignal s d o i
  end.

(** The world a computation leaves, whether it returns or throws. *)
Definition after {A} (c : M A) (w : World) : World :=
  match c w with
  | Returns _ w' => w'
  | Throws _ w' => w'
  end.

Definition run (ops : list Op) (w : World) : World :=
  foldl (fun w op => after (perform op) w) w ops.

(** No record is held and no parameter is marked. *)
Definition initial (w : World) : Prop :=
  connectedSignals w = ∅ /\ forall a, flagAt w a = false.

Definition live (w : World) (c : Connection) : Prop :=
  exists s l, connectedSignals w !! s = Some l /\ c ∈ l.

(** Every connect of the sequence is made to a destination whose
    parameter no live record targets at that time. *)
Fixpoint exclusive (ops : list Op) (w : World) : Prop :=
  match ops with
  | [] => True
  | op :: ops' =>
      match op with
      | Connect s d o i =>
          forall c, live w c -> addr (destination c) <> addr d
      | Disconnect _ _ _ _ => True
      end /\ exclusive ops' (after (perform op) w)
  end.

Definition distinctIdents (w : World) : Prop :=
  forall s l, connectedSignals w !! s = Some l ->
    NoDup (ident <$> l) /\ forall c, c ∈ l -> ident c < nextIdent w.

Definition markedHasRecord (w : World) : Prop :=
  forall a, flagAt w a = true ->
    exists c, live w c /\ addr (destination c) = a /\
              isToneParam w (destination c) = true.

(** Every record held keeps a value that its destination accepts. *)
Definition recordsRestorable (w : World) : Prop :=
  forall c, live w c -> accepts w (destination c) (previousValue c) = true.

Definition recordsMarked (w : World) : Prop :=
  forall c, live w c ->
    overridable w (destination c) = true /\
    (isToneParam w (destination c) = true -> flagAt w (addr (destination c)) = true).

Definition oneRecordEach (w : World) : Prop :=
  forall s l c s' l' c',
    connectedSignals w !! s = Some l -> c ∈ l ->
    connectedSignals w !! s' = Some l' -> c' ∈ l' ->
    addr (destination c) = addr (destination c') ->
    s = s' /\ ident c = ident c'.

(** *** Example worlds *)

(** A source [Signal] of value [5] at address [0], a [Signal] of value [3]
    at address [1] and a node that is no parameter at address [2]; nothing
    connected yet. *)
Definition startWorld : World :=
  mkWorld (<[0 := OSignal (Signal_constructor false 5 None None)]>
             (<[1 := OSignal (Signal_constructor false 3 None None)]> {[2 := ONode]}))
          ∅ 0 [] 0.

(** The same objects after the source has been connected to the [Signal]
    at address [1], which read [3] at that time. *)
Definition recordedWorld : World :=
  mkWorld (heap startWorld)
          {[0 := [mkConnection 0 (Direct 1) 0 0 3]]}
          0 [] 1.

(** The same source, and at address [1] a [Signal] of value [5] whose
    range, from [1] to [10], does not contain [0]. *)
Definition boundedWorld : World :=
  mkWorld (<[0 := OSignal (Signal_constructor false 5 None None)]>
             {[1 := OSignal (Signal_constructor false 5 (Some 1%R) (Some 10%R))]})
          ∅ 0 [] 0.

(** The same source, and at address [3] a native AudioParam that reads
    [1]. *)
Definition audioWorld : World :=
  mkWorld (<[0 := OSignal (Signal_constructor false 5 None None)]>
             {[3 := OAudioParam 1]})
          ∅ 0 [] 0.

(** Two connects that differ in the input index, then a disconnect of the
    second one. *)
Definition twoInputs : list Op :=
  [Connect 0 (Direct 1) (Some 0) (Some 0);
   Connect 0 (Direct 1) (Some 0) (Some 1);
   Disconnect 0 (Some (Direct 1)) (Some 0) (Some 1)].

(** The destination on which a recorded call reads or writes a value, a
    schedule or the [overridden] flag; the wiring calls have none. *)
Definition driven (k : Call) : option Ref :=
  match k with
  | Call_value d | Call_cancelScheduledValues d _ | Call_setValueAtTime d _ _
  | Call_set_overridden d _ => Some d
  | Call_connect _ _ _ _ | Call_disconnect _ _ _ _ => None
  end.

(** The destination of a recorded assignment to [overridden]. *)
Definition flagged (k : Call) : option Ref :=
  match k with
  | Call_set_overridden d _ => Some d
  | _ => None
  end.

(** Every record held is for a destination that passes the test of
    [connectSignal]. *)
Definition recordsOverridable (w : World) : Prop :=
  forall c, live w c -> overridable w (destination c) = true.

(** * The sampler

    [Sampler._findClosest] of [Sampler.js].  The sampler holds one buffer
    per provided MIDI note; [has] is the membership test
    [this._buffers.has] on note numbers.  A MIDI note is an integer
    ([Math.round] of the pitch). *)

Module Sampler.
Local Open Scope Z_scope.

(** What a call yields: the returned difference in semitones, or the
    thrown [Error("No available buffers for note: " + midi)]. *)
Inductive result : Type :=
  | Return (difference : Z)
  | NoAvailableBuffers (midi : Z).

Definition MAX_INTERVAL : Z := 96.

Section findClosest.
Variable has : Z -> bool.

(** The [while (interval < MAX_INTERVAL)] loop from the current value of
    [interval], with [remaining] iterations left to [MAX_INTERVAL]. *)
Fixpoint search (midi interval : Z) (remaining : nat) : result :=
  match remaining with
  | O => NoAvailableBuffers midi
  | S remaining' =>
      if has (midi + interval) then Return (- interval)
      else if has (midi - interval) then Return interval
      else search midi (interval + 1) remaining'
  end.

Definition _findClosest (midi : Z) : result :=
  search midi 0 (Z.to_nat MAX_INTERVAL).

(** [closestNote] of [triggerAttack]: [midi - this._findClosest(midi)]. *)
Definition closestNote (midi : Z) : option Z :=
  match _findClosest midi with
  | Return difference => Some (midi - difference)
  | NoAvailableBuffers _ => None
  end.

End findClosest.

End Sampler.

(** * The flow-field sketch

    [video-mid/javascript.js], a p5 sketch.  Numbers are real numbers;
    the size of the canvas ([width], [height]) and the state of the keys
    are read from the p5 environment and are arguments here. *)

Module Sketch.
Local Open Scope R_scope.

(** p5's [constrain(n, low, high)] is [Math.max(Math.min(n, high), low)];
    [constrainZ] is the same function on whole numbers. *)
Definition constrain (n low high : R) : R := Rmax (Rmin n high) low.

Definition constrainZ (n low high : Z) : Z := Z.max (Z.min n high) low.

(** [floor] and [ceil] are [Math.floor] and [Math.ceil]. *)
Definition floor (r : R) : Z := Int_part r.

Definition ceil (r : R) : Z := (- Int_part (- r))%Z.

Definition TAU : R := 2 * PI.

(** A [p5.Vector] in the plane: the sketch never sets a third
    coordinate. *)
Record Vector : Type := createVector { x : R; y : R }.

(** [v.mult(n)] *)
Definition mult (n : R) (v : Vector) : Vector :=
  createVector (x v * n) (y v * n).

(** ** [fbm] *)

Section fbm.
Variable noise : R -> R -> R -> R.

(** The [for] loop of [fbm] with [n] iterations left. *)
Fixpoint fbm_loop (n : nat) (x y z sum amp freq : R) : R :=
  match n with
  | O => sum
  | S n' =>
      let sum := sum + amp * noise (x * freq) (y * freq) (z * freq) in
      let freq := freq * 2.0 in
      let amp := amp * 0.5 in
      fbm_loop n' x y z sum amp freq
  end.

Definition fbm (x y z : R) : R := fbm_loop 5 x y z 0 0.5 1.0.

End fbm.

(** ** The [FlowField] class *)

Record FlowField : Type := mkFlowField {
  res : R;
  cols : Z;
  rows : Z;
  vectors : gmap Z Vector;
  scale : R
}.

Definition set_vectors (vs : gmap Z Vector) (this : FlowField) : FlowField :=
  mkFlowField (res this) (cols this) (rows this) vs (scale this).

Definition set_scale (s : R) (this : FlowField) : FlowField :=
  mkFlowField (res this) (cols this) (rows this) (vectors this) s.

(** [new FlowField(res)]: the array has [cols * rows] slots, each filled
    with [createVector()].  The canvas has a size that is not negative and
    [res] is positive (it is [settings.fieldRes]), so that [cols * rows] is
    an array length. *)
Definition FlowField_constructor (width height res : R) : FlowField :=
  let cols := (ceil (width / res) + 1)%Z in
  let rows := (ceil (height / res) + 1)%Z in
  mkFlowField res cols rows
    (list_to_map ((fun i => (i, createVector 0 0)) <$> seqZ 0 (cols * rows)))
    0.0016.

Section field.
Variable noise : R -> R -> R -> R.
Variable fromAngle : R -> Vector.
Variable setMag : R -> Vector -> Vector.

(** The vector that the body of the loops of [update] computes for the
    cell in column [x] and row [y]. *)
Definition cell (this : FlowField) (time : R) (x y : Z) : Vector :=
  let px := IZR x * res this in
  let py := IZR y * res this in
  let n := fbm noise (px * scale this) (py * scale this) (time * 0.12) in
  let angle := TAU * n * 1.6 + cos (time * 0.05 + n * 10.0) in
  let v := fromAngle angle in
  setMag 1 v.

(** [update(time)]: the two nested loops, with the running index [i] of
    [this.vectors[i++] = v]. *)
Definition update (time : R) (this : FlowField) : FlowField :=
  let '(_, vs) :=
    foldl (fun st x =>
             foldl (fun '(i, vs) y => ((i + 1)%Z, <[i := cell this time x y]> vs))
                   st (seqZ 0 (rows this)))
          (0%Z, vectors this) (seqZ 0 (cols this)) in
  set_vectors vs this.

End field.

(** [lookup(pos)]; a slot that holds no vector gives [createVector(0,0)]. *)
Definition index (pos : Vector) (this : FlowField) : Z :=
  let col := constrainZ (floor (x pos / res this)) 0 (cols this - 1) in
  let row := constrainZ (floor (y pos / res this)) 0 (rows this - 1) in
  (col + row * cols this)%Z.

Definition lookup (pos : Vector) (this : FlowField) : Vector :=
  let idx := index pos this in
  match vectors this !! idx with
  | Some v => v
  | None => createVector 0 0
  end.

(** The array holds exactly its [cols * rows] slots. *)
Definition filled (f : FlowField) : Prop :=
  forall k, is_Some (vectors f !! k) <-> (0 <= k < cols f * rows f)%Z.

(** What an event handler yields: the field it leaves, or the
    ReferenceError of a name that is not declared. *)
Inductive handled : Type :=
  | Handled (flow : FlowField)
  | ReferenceError.

(** [mouseWheel(e)]; [control] is the value of
    [keyIsDown(CONTROL) || keyIsDown(17)] and [delta] is [e.delta].  The
    third operand of the test, [keyIsDown(META)], is evaluated when the
    first two are false: [META] is declared nowhere in the sketch and is no
    constant of p5, so that evaluating it raises a ReferenceError, before
    [flow.scale] is assigned. *)
Definition mouseWheel (control : bool) (delta : R) (flow : FlowField) : handled :=
  if control
  then
    let delta := delta * 0.2 in
    Handled (set_scale (constrain (scale flow + delta * 0.000002) 0.0004 0.01) flow)
  else ReferenceError.

(** ** The [Particle] class *)

Record Particle : Type := mkParticle {
  pos : Vector;
  prev : Vector;
  vel : Vector;
  acc : Vector;
  maxSpeed : R;
  size : R;
  hue : R;
  life : R
}.

Definition set_pos (v : Vector) (p : Particle) : Particle :=
  mkParticle v (prev p) (vel p) (acc p) (maxSpeed p) (size p) (hue p) (life p).

Definition set_prev (v : Vector) (p : Particle) : Particle :=
  mkParticle (pos p) v (vel p) (acc p) (maxSpeed p) (size p) (hue p) (life p).

Definition set_vel (v : Vector) (p : Particle) : Particle :=
  mkParticle (pos p) (prev p) v (acc p) (maxSpeed p) (size p) (hue p) (life p).

Definition set_x (r : R) (v : Vector) : Vector := createVector r (y v).

Definition set_y (r : R) (v : Vector) : Vector := createVector (x v) r.

(** [edges()]: the four tests are made one after the other, each on the
    position that the ones before it left. *)
Definition edges (width height : R) (this : Particle) : Particle :=
  let wrapped := false in
  let '(this, wrapped) :=
    if decide (x (pos this) < 0)
    then let this := set_pos (set_x width (pos this)) this in
         let this := set_prev (set_x (x (pos this)) (prev this)) this in
         (this, true)
    else (this, wrapped) in
  let '(this, wrapped) :=
    if decide (x (pos this) > width)
    then let this := set_pos (set_x 0 (pos this)) this in
         let this := set_prev (set_x (x (pos this)) (prev this)) this in
         (this, true)
    else (this, wrapped) in
  let '(this, wrapped) :=
    if decide (y (pos this) < 0)
    then let this := set_pos (set_y height (pos this)) this in
         let this := set_prev (set_y (y (pos this)) (prev this)) this in
         (this, true)
    else (this, wrapped) in
  let '(this, wrapped) :=
    if decide (y (pos this) > height)
    then let this := set_pos (set_y 0 (pos this)) this in
         let this := set_prev (set_y (y (pos this)) (prev this)) this in
         (this, true)
    else (this, wrapped) in
  if wrapped then set_vel (mult 0.5 (vel this)) this else this.

(** ** What reaches the flow field while the sketch runs

    A frame that is not paused, at the global time [t] ([draw] calls
    [flow.update(t*0.2)]), or a wheel event, with the Control key held or
    not; a handler that raises leaves the field as it was. *)
Inductive Input : Type :=
  | Frame (t : R)
  | Wheel (control : bool) (delta : R).

Definition react (noise : R -> R -> R -> R) (fromAngle : R -> Vector)
    (setMag : R -> Vector -> Vector) (flow : FlowField) (i : Input) : FlowField :=
  match i with
  | Frame t => update noise fromAngle setMag (t * 0.2) flow
  | Wheel control delta =>
      match mouseWheel control delta flow with
      | Handled flow' => flow'
      | ReferenceError => flow
      end
  end.

(** ** Example values

    A particle left of a canvas, and the field of a canvas of 44 by 22
    with cells of 22. *)
Definition aParticle : Particle :=
  mkParticle (createVector (-1) 50) (createVector 3 49) (createVector (-4) 1)
             (createVector 0 0) 1 1 220 100.

Definition aField : FlowField := FlowField_constructor 44 22 22.

End Sketch.

(** * Properties of the parameter automation engine *)

Lemma filter_none {A} (P : A -> Prop) `{!forall x, Decision (P x)} (l : list A) :
  (forall x, x ∈ l -> ~ P x) -> filter P l = [].
Proof.
  induction l as [|a l IH]; intros Hall; [reflexivity|].
  rewrite filter_cons_False by (apply Hall; left).
  apply IH. intros x Hx. apply Hall. by right.
Qed.

Lemma filter_all {A} (P : A -> Prop) `{!forall x, Decision (P x)} (l : list A) :
  (forall x, x ∈ l -> P x) -> filter P l = l.
Proof.
  induction l as [|a l IH]; intros Hall; [reflexivity|].
  rewrite filter_cons_True by (apply Hall; left).
  f_equal. apply IH. intros x Hx. apply Hall. by right.
Qed.

Lemma filter_ext_in {A} (P Q : A -> Prop) `{!forall x, Decision (P x)}
    `{!forall x, Decision (Q x)} (l : list A) :
  (forall x, x ∈ l -> (P x <-> Q x)) -> filter P l = filter Q l.
Proof.
  induction l as [|a l IH]; intros Hall; [reflexivity|].
  assert (Ha : P a <-> Q a) by (apply Hall; left).
  assert (Hl : filter P l = filter Q l).
  { apply IH. intros x Hx. apply Hall. by right. }
  destruct (decide (P a)) as [HP|HP].
  - rewrite !filter_cons_True by tauto. by rewrite Hl.
  - rewrite !filter_cons_False by tauto. exact Hl.
Qed.

Module ParamFacts.
Import Param.
Local Open Scope R_scope.

(** Evaluates the filters of a timeline that is given event by event. *)
Ltac timeline :=
  repeat first
    [ rewrite filter_nil
    | rewrite filter_cons_True by (simpl; lra)
    | rewrite filter_cons_False by (simpl; lra)
    | progress simpl ].

(** *** Timeline *)

(** The events at or before the time of a freshly inserted event end with
    that event. *)
Lemma insert_upto (e : AutomationEvent) (tl : list AutomationEvent) :
  filter (fun x => time x <= time e) (insert e tl)
  = filter (fun x => time x < time e) tl ++ [e].
Proof.
  unfold insert. rewrite filter_app, filter_cons_True by lra.
  rewrite (filter_all (fun x => time x <= time e)).
  2:{ intros x [Hx _]%list_elem_of_filter. lra. }
  rewrite (filter_none (fun x => time x <= time e)).
  2:{ intros x [Hx _]%list_elem_of_filter. lra. }
  reflexivity.
Qed.


Lemma cancelFrom_before (init q : R) (tl : list AutomationEvent) :
  filter (fun x => time x < q) (cancelFrom init q tl)
  = filter (fun x => time x < q) tl.
Proof.
  assert (Hk : filter (fun x => time x < q) (filter (fun x => time x < q) tl)
               = filter (fun x => time x < q) tl).
  { apply filter_all. intros x [Hx _]%list_elem_of_filter. exact Hx. }
  assert (Hc : forall k v c,
             filter (fun x => time x < q)
                    (filter (fun x => time x < q) tl ++ [mkEvent q k v c])
             = filter (fun x => time x < q) tl).
  { intros k v c. rewrite filter_app, Hk.
    rewrite filter_cons_False by (simpl; lra). rewrite filter_nil.
    apply app_nil_r. }
  unfold cancelFrom.
  destruct (getEventsAround tl q) as [[p|] [n|]]; try exact Hk.
  - destruct (isRamp (type n)); [apply Hc|].
    destruct (type p); try exact Hk. apply Hc.
  - destruct (type p); try exact Hk. apply Hc.
Qed.

Lemma cancelFrom_upto (init q : R) (tl : list AutomationEvent) (x : AutomationEvent) :
  x ∈ cancelFrom init q tl -> time x <= q.
Proof.
  assert (Hk : x ∈ filter (fun x => time x < q) tl -> time x <= q).
  { intros [Hx _]%list_elem_of_filter. lra. }
  assert (Hc : forall k v c,
             x ∈ filter (fun x => time x < q) tl ++ [mkEvent q k v c] -> time x <= q).
  { intros k v c [Hx|Hx]%elem_of_app; [by apply Hk|].
    apply list_elem_of_singleton in Hx. subst x. simpl. lra. }
  unfold cancelFrom.
  destruct (getEventsAround tl q) as [[p|] [n|]]; try exact Hk.
  - destruct (isRamp (type n)); [apply Hc|].
    destruct (type p); try exact Hk. apply Hc.
  - destruct (type p); try exact Hk. apply Hc.
Qed.

(** *** Evaluator *)

Lemma clamp_id (lo hi : option R) (v : R) :
  (forall m, lo = Some m -> m <= v) -> (forall M, hi = Some M -> v <= M) ->
  clamp lo hi v = v.
Proof.
  intros Hlo Hhi. unfold clamp.
  destruct lo as [m|], hi as [M|]; simpl.
  - rewrite Rmax_right by auto. rewrite Rmin_right by auto. reflexivity.
  - rewrite Rmax_right by auto. reflexivity.
  - rewrite Rmin_right by auto. reflexivity.
  - reflexivity.
Qed.

Lemma clamp_within (p : t) (v : R) :
  within p v -> clamp (minValue p) (maxValue p) v = v.
Proof. intros [Hlo Hhi]. by apply clamp_id. Qed.

Lemma within_between (p : t) (a b v : R) :
  within p a -> within p b -> a <= v <= b -> within p v.
Proof.
  intros [Hlo _] [_ Hhi] Hv. split.
  - intros m Hm. specialize (Hlo m Hm). lra.
  - intros M HM. specialize (Hhi M HM). lra.
Qed.

Lemma linearInterpolate_start (t0 v0 t1 v1 : R) :
  t0 <= t1 -> linearInterpolate t0 v0 t1 v1 t0 = v0.
Proof.
  intros H. unfold linearInterpolate, clampTime.
  rewrite Rmin_right by lra. rewrite Rmax_left by lra.
  unfold Rdiv. replace (t0 - t0) with 0 by ring. ring.
Qed.

Lemma exponentialInterpolate_start (t0 v0 t1 v1 : R) :
  t0 <= t1 -> exponentialInterpolate t0 v0 t1 v1 t0 = v0.
Proof.
  intros H. unfold exponentialInterpolate.
  destruct (_ || _ || _) eqn:E.
  - by apply linearInterpolate_start.
  - unfold clampTime. rewrite Rmin_right by lra. rewrite Rmax_left by lra.
    unfold Rdiv. replace (t0 - t0) with 0 by ring. rewrite Rmult_0_l.
    apply orb_false_iff in E as [[E0 E1]%orb_false_iff E2].
    apply bool_decide_eq_false in E0, E1, E2.
    rewrite Rpower_O; [ring|].
    assert (0 < v0 * v1) by (destruct (Rtotal_order (v0 * v1) 0) as [|[|]]; nra).
    assert (0 < v0 * v0) by nra.
    replace (v1 * / v0) with ((v0 * v1) * / (v0 * v0)) by (field; lra).
    apply Rmult_lt_0_compat; [lra|]. by apply Rinv_0_lt_compat.
Qed.

(** A value event read back at its own time gives its value: whatever
    comes after it, a hold or a ramp starts from there. *)
Lemma evaluate_at_SetValue (init : R) (tl : list AutomationEvent) (v q : R)
    (n : option AutomationEvent) :
  (forall e, n = Some e -> q < time e) ->
  evaluate init tl (Some (mkEvent q SetValue v 0)) n q = v.
Proof.
  intros Hn. unfold evaluate. destruct n as [e|]; [|reflexivity].
  specialize (Hn e eq_refl). simpl.
  destruct (type e); try reflexivity.
  - apply linearInterpolate_start. lra.
  - apply exponentialInterpolate_start. lra.
Qed.

(** *** Parameter *)

Lemma withSetValue_getEventAt (v q : R) (p : t) :
  exists n, getEventAt (events (withSetValue v q p)) q
            = (Some (mkEvent q SetValue v 0), n) /\
            forall e, n = Some e -> q < time e.
Proof.
  unfold getEventAt, withSetValue. simpl.
  pose proof (insert_upto (mkEvent q SetValue v 0) (events p)) as Hu.
  simpl in Hu. rewrite Hu, last_snoc.
  eexists; split; [reflexivity|].
  intros e He. apply head_Some_elem_of in He.
  apply list_elem_of_filter in He as [He _]. exact He.
Qed.

Lemma withSetValue_getValueAtTime (v q : R) (p : t) :
  getValueAtTime (withSetValue v q p) q = clamp (minValue p) (maxValue p) v.
Proof.
  unfold getValueAtTime.
  destruct (withSetValue_getEventAt v q p) as (n & -> & Hn).
  simpl. f_equal. by apply evaluate_at_SetValue.
Qed.

Lemma settled_cancelScheduledValues (p : t) : settled (cancelScheduledValues 0 p).
Proof. intros x. apply cancelFrom_upto. Qed.

Lemma settled_withSetValue (v : R) (p : t) :
  settled p -> settled (withSetValue v 0 p).
Proof.
  intros Hp x. unfold withSetValue, insert. cbn [events withEvents time].
  intros [Hx|Hx]%elem_of_app.
  - apply list_elem_of_filter in Hx as [_ Hx]. by apply Hp.
  - apply elem_of_cons in Hx as [->|Hx]; [simpl; lra|].
    apply list_elem_of_filter in Hx as [_ Hx]. by apply Hp.
Qed.

Lemma settled_setOverridden (b : bool) (p : t) :
  settled p -> settled (setOverridden b p).
Proof. intros Hp x. apply Hp. Qed.

(** On a settled timeline, a value set at time [0] is the value read at any
    later time. *)
Lemma settled_get_value (v now : R) (p : t) :
  settled p -> 0 <= now ->
  get_value now (withSetValue v 0 p) = clamp (minValue p) (maxValue p) v.
Proof.
  intros Hp Hnow. unfold get_value, getValueAtTime, getEventAt, withSetValue.
  cbn [events withEvents minValue maxValue initialValue].
  set (e := mkEvent 0 SetValue v 0).
  assert (Hall : forall x, x ∈ insert e (events p) -> time x <= 0).
  { intros x Hx. apply (settled_withSetValue v p Hp x). exact Hx. }
  rewrite (filter_all (fun x => time x <= now)).
  2:{ intros x Hx. specialize (Hall x Hx). lra. }
  rewrite (filter_none (fun x => now < time x)).
  2:{ intros x Hx. specialize (Hall x Hx). lra. }
  assert (Hlast : last (insert e (events p)) = Some e).
  { unfold insert. rewrite (filter_none (fun x => time e < time x)).
    - apply last_snoc.
    - intros x Hx. specialize (Hp x Hx). simpl. lra. }
  rewrite Hlast. reflexivity.
Qed.

(** *** The cancellation example *)

Lemma ramp_schedule (p : t) :
  events p = [] ->
  events (withLinearRamp 10 2 (withSetValue 5 0 p))
  = [mkEvent 0 SetValue 5 0; mkEvent 2 LinearRamp 10 0].
Proof.
  intros Hp. unfold withLinearRamp, withSetValue, insert.
  simpl. rewrite Hp. timeline. reflexivity.
Qed.

Lemma ramp_cancelled (p : t) :
  events p = [] ->
  events (cancelScheduledValues 1 (withLinearRamp 10 2 (withSetValue 5 0 p)))
  = [mkEvent 0 SetValue 5 0; mkEvent 1 LinearRamp (15 / 2) 0].
Proof.
  intros Hp. unfold cancelScheduledValues. cbn [events withEvents].
  rewrite (ramp_schedule p Hp).
  unfold cancelFrom, getEventsAround. timeline.
  do 3 f_equal. unfold linearInterpolate, clampTime.
  rewrite Rmin_right by lra. rewrite Rmax_right by lra. field.
Qed.

(** *** Bounds on [exp] *)






(** *** Acceptance of a value *)

Lemma inRange_within (p : t) (v : R) : inRange p v = true <-> within p v.
Proof.
  unfold inRange, within.
  destruct (minValue p) as [m|], (maxValue p) as [M|]; cbn [andb];
    rewrite ?andb_true_iff, ?bool_decide_eq_true; split.
  - intros [Hm HM]. split; intros ? [= <-]; done.
  - intros [Hm HM]. split; [by apply Hm|by apply HM].
  - intros [Hm _]. split; intros ? [=]. by subst.
  - intros [Hm _]. split; [by apply Hm|done].
  - intros HM. split; intros ? [=]. by subst.
  - intros [_ HM]. by apply HM.
  - intros _. split; intros ? [=].
  - done.
Qed.

Lemma inRange_not_within (p : t) (v : R) : inRange p v = false <-> ~ within p v.
Proof. rewrite <- inRange_within. by destruct (inRange p v). Qed.

Lemma setValueAtTime_Ok (v q : R) (p : t) :
  within p v -> setValueAtTime v q p = Ok (withSetValue v q p).
Proof. intros Hv%inRange_within. unfold setValueAtTime. by rewrite Hv. Qed.


Lemma linearRampToValueAtTime_Ok (v q : R) (p : t) :
  within p v -> linearRampToValueAtTime v q p = Ok (withLinearRamp v q p).
Proof. intros Hv%inRange_within. unfold linearRampToValueAtTime. by rewrite Hv. Qed.


(** The value that is read lies within bounds that contain a value. *)
Lemma clamp_inRange (p : t) (v x : R) :
  within p v -> within p (clamp (minValue p) (maxValue p) x).
Proof.
  unfold within, clamp. intros [Hlo Hhi].
  destruct (minValue p) as [m|], (maxValue p) as [M|].
  - specialize (Hlo m eq_refl). specialize (Hhi M eq_refl).
    split; intros ? [= <-]; unfold Rmin, Rmax; repeat destruct (Rle_dec _ _); lra.
  - split; intros ? [=]; subst. unfold Rmax. destruct (Rle_dec _ _); lra.
  - split; intros ? [=]; subst. unfold Rmin. destruct (Rle_dec _ _); lra.
  - split; intros ? [=].
Qed.

Lemma get_value_within (p : t) (v now : R) : within p v -> within p (get_value now p).
Proof.
  intros Hv. unfold get_value, getValueAtTime.
  destruct (getEventAt (events p) now) as [previous next].
  by apply (clamp_inRange p v).
Qed.


(** *** The claims on the parameter *)

(** C4.  On a parameter with an empty timeline, [setValueAtTime(5, 0)] and
    [linearRampToValueAtTime(10, 2)] are accepted and, after
    [cancelScheduledValues(1)], the value at [1.5] is [7.5], the value the
    ramp had reached at time [1], and not [10]; that value is held from
    time [1] on; the values before time [1] are those of the uncancelled
    schedule; and a cancellation never changes the events stored before
    its time. *)
Theorem cancel_cuts_ramp (s : Signal) :
  events (_param s) = [] ->
  within (_param s) 5 -> within (_param s) 10 ->
  exists s0 s1,
    Signal_setValueAtTime 5 0 s = Ok s0 /\
    Signal_linearRampToValueAtTime 10 2 s0 = Ok s1 /\
    let s2 := Signal_cancelScheduledValues 1 s1 in
    Signal_getValueAtTime s2 (3 / 2) = 15 / 2 /\
    Signal_getValueAtTime s2 (3 / 2) <> 10 /\
    (forall q, 1 <= q -> Signal_getValueAtTime s2 q = 15 / 2) /\
    (forall q, q < 1 -> Signal_getValueAtTime s2 q = Signal_getValueAtTime s1 q) /\
    (forall (s' : Signal) (q : R),
        filter (fun x => time x < q) (events (_param (Signal_cancelScheduledValues q s')))
        = filter (fun x => time x < q) (events (_param s'))).
Proof.
  intros Hs H5 H10.
  set (s0 := withParam (withSetValue 5 0) s).
  set (s1 := withParam (withLinearRamp 10 2) s0).
  exists s0, s1.
  split.
  { unfold Signal_setValueAtTime. by rewrite setValueAtTime_Ok. }
  split.
  { unfold Signal_linearRampToValueAtTime.
    by rewrite linearRampToValueAtTime_Ok. }
  intros s2.
  assert (E1 : events (_param s1) = [mkEvent 0 SetValue 5 0; mkEvent 2 LinearRamp 10 0])
    by (apply ramp_schedule, Hs).
  assert (E2 : events (_param s2) = [mkEvent 0 SetValue 5 0; mkEvent 1 LinearRamp (15 / 2) 0])
    by (apply ramp_cancelled, Hs).
  assert (Hw : forall v, 5 <= v <= 10 ->
            clamp (minValue (_param s)) (maxValue (_param s)) v = v).
  { intros v Hv. apply clamp_within. by apply (within_between _ 5 10). }
  assert (Hheld : forall q, 1 <= q -> Signal_getValueAtTime s2 q = 15 / 2).
  { intros q Hq. unfold Signal_getValueAtTime, getValueAtTime, getEventAt.
    rewrite E2. timeline. apply Hw. lra. }
  split; [apply Hheld; lra|].
  split; [rewrite Hheld by lra; lra|].
  split; [exact Hheld|].
  split.
  - intros q Hq. unfold Signal_getValueAtTime, getValueAtTime, getEventAt.
    rewrite E1, E2. simpl.
    destruct (Rlt_le_dec q 0) as [Hneg|Hpos].
    + timeline. reflexivity.
    + timeline. f_equal. unfold linearInterpolate, clampTime.
      rewrite !Rmin_right by lra. rewrite !Rmax_right by lra. field.
  - intros s' q. apply cancelFrom_before.
Qed.

Lemma cancel_cuts_ramp_witness :
  events (_param (Signal_constructor false 0 None None)) = [] /\
  within (_param (Signal_constructor false 0 None None)) 5 /\
  within (_param (Signal_constructor false 0 None None)) 10 /\
  exists s0 s1,
    Signal_setValueAtTime 5 0 (Signal_constructor false 0 None None) = Ok s0 /\
    Signal_linearRampToValueAtTime 10 2 s0 = Ok s1 /\
    Signal_getValueAtTime (Signal_cancelScheduledValues 1 s1) (3 / 2) = 15 / 2.
Proof.
  assert (Hw : forall v, within (_param (Signal_constructor false 0 None None)) v).
  { intros v. split; intros ? [=]. }
  split; [reflexivity|]. split; [apply Hw|]. split; [apply Hw|].
  destruct (cancel_cuts_ramp (Signal_constructor false 0 None None) eq_refl (Hw 5) (Hw 10))
    as (s0 & s1 & H0 & H1 & Hvalue & _).
  exists s0, s1. split; [exact H0|]. split; [exact H1|exact Hvalue].
Defined.

(** C6.  For a value within the clamp bounds, [setValueAtTime(v, t)] is
    accepted and [getValueAtTime(t)] then returns [v], on any parameter
    state. *)
Theorem set_get_roundtrip (s : Signal) (v q : R) :
  within (_param s) v ->
  exists s',
    Signal_setValueAtTime v q s = Ok s' /\
    Signal_getValueAtTime s' q = v.
Proof.
  intros Hv. exists (withParam (withSetValue v q) s). split.
  - unfold Signal_setValueAtTime. by rewrite setValueAtTime_Ok.
  - unfold Signal_getValueAtTime. cbn [_param withParam].
    rewrite withSetValue_getValueAtTime. by apply clamp_within.
Qed.

Lemma set_get_roundtrip_witness :
  within (_param (Signal_constructor false 0 (Some 0) (Some 100))) 42 /\
  exists s',
    Signal_setValueAtTime 42 1 (Signal_constructor false 0 (Some 0) (Some 100)) = Ok s' /\
    Signal_getValueAtTime s' 1 = 42.
Proof.
  assert (Hw : within (_param (Signal_constructor false 0 (Some 0) (Some 100))) 42).
  { split; intros ? [= <-]; lra. }
  split; [exact Hw|].
  apply (set_get_roundtrip (Signal_constructor false 0 (Some 0) (Some 100)) 42 1 Hw).
Defined.




End ParamFacts.

(** * Properties of the connection manager *)

Section dispatch.
Variables (f : Param.t -> Param.t) (r : Ref) (w : World).

Local Abbreviation w' := (dispatch f (withParam f) r w).

Lemma dispatch_connectedSignals : connectedSignals w' = connectedSignals w.
Proof. by destruct r. Qed.

Lemma dispatch_calls : calls w' = calls w.
Proof. by destruct r. Qed.

Lemma dispatch_now : now w' = now w.
Proof. by destruct r. Qed.

Lemma dispatch_nextIdent : nextIdent w' = nextIdent w.
Proof. by destruct r. Qed.

Lemma dispatch_heap (a : nat) :
  heap w' !! a =
  if decide (a = addr r)
  then match r, heap w !! a with
       | Direct _, Some (OParam p) => Some (OParam (f p))
       | _, Some (OSignal s) => Some (OSignal (withParam f s))
       | _, o => o
       end
  else heap w !! a.
Proof.
  destruct r as [b|b]; simpl; rewrite lookup_alter;
    repeat case_decide; try congruence; subst;
    destruct (heap w !! _) as [[]|]; reflexivity.
Qed.

Lemma dispatch_isParam (r' : Ref) : isParam w' r' = isParam w r'.
Proof.
  unfold isParam. destruct r' as [a|a]; cbn [resolve]; rewrite dispatch_heap;
    case_decide; try reflexivity;
    destruct r, (heap w !! a) as [[]|]; reflexivity.
Qed.

Lemma dispatch_isSignal (r' : Ref) : isSignal w' r' = isSignal w r'.
Proof.
  unfold isSignal. destruct r' as [a|a]; cbn [resolve]; rewrite dispatch_heap;
    case_decide; try reflexivity;
    destruct r, (heap w !! a) as [[]|]; reflexivity.
Qed.

Lemma dispatch_isAudioParam (r' : Ref) : isAudioParam w' r' = isAudioParam w r'.
Proof.
  unfold isAudioParam. destruct r' as [a|a]; cbn [resolve]; rewrite dispatch_heap;
    case_decide; try reflexivity;
    destruct r, (heap w !! a) as [[]|]; reflexivity.
Qed.

Lemma dispatch_overridable (r' : Ref) : overridable w' r' = overridable w r'.
Proof.
  unfold overridable. rewrite dispatch_isParam, dispatch_isAudioParam.
  f_equal. destruct r' as [a|a]; cbn [resolve]; rewrite dispatch_heap;
    case_decide; try reflexivity;
    destruct r, (heap w !! a) as [[]|]; reflexivity.
Qed.

Lemma dispatch_isToneParam (r' : Ref) : isToneParam w' r' = isToneParam w r'.
Proof. unfold isToneParam. by rewrite dispatch_isParam, dispatch_isSignal. Qed.

Lemma dispatch_paramOf (r' : Ref) :
  paramOf w' r' =
  if decide (addr r' = addr r)
  then match paramOf w r with
       | Some _ => f <$> paramOf w r'
       | None => paramOf w r'
       end
  else paramOf w r'.
Proof.
  unfold paramOf.
  destruct r' as [a|a]; cbn [resolve addr]; rewrite dispatch_heap;
    destruct r as [b|b]; cbn [resolve addr];
    repeat case_decide; try congruence; subst;
    destruct (heap w !! _) as [[]|]; reflexivity.
Qed.
End dispatch.

Lemma flagAt_paramOf (w : World) (r : Ref) (p : Param.t) :
  paramOf w r = Some p -> flagAt w (addr r) = Param.overridden p.
Proof.
  unfold paramOf, flagAt, resolve.
  destruct r as [a|a]; simpl; destruct (heap w !! a) as [[]|]; try discriminate;
    intros [= <-]; reflexivity.
Qed.

Section call.
Variables (c : Call) (f : Param.t -> Param.t) (r : Ref) (w : World).

Lemma call_connectedSignals : connectedSignals (call c f r w) = connectedSignals w.
Proof. unfold call. by rewrite dispatch_connectedSignals. Qed.

Lemma call_calls : calls (call c f r w) = calls w ++ [c].
Proof. unfold call. by rewrite dispatch_calls. Qed.

Lemma call_now : now (call c f r w) = now w.
Proof. unfold call. by rewrite dispatch_now. Qed.

Lemma call_nextIdent : nextIdent (call c f r w) = nextIdent w.
Proof. unfold call. by rewrite dispatch_nextIdent. Qed.

Lemma call_overridable (r' : Ref) : overridable (call c f r w) r' = overridable w r'.
Proof. unfold call. by rewrite dispatch_overridable. Qed.

Lemma call_isToneParam (r' : Ref) : isToneParam (call c f r w) r' = isToneParam w r'.
Proof. unfold call. by rewrite dispatch_isToneParam. Qed.

Lemma call_isAudioParam (r' : Ref) : isAudioParam (call c f r w) r' = isAudioParam w r'.
Proof. unfold call. by rewrite dispatch_isAudioParam. Qed.

Lemma call_paramOf (r' : Ref) :
  paramOf (call c f r w) r' =
  if decide (addr r' = addr r)
  then match paramOf w r with
       | Some _ => f <$> paramOf w r'
       | None => paramOf w r'
       end
  else paramOf w r'.
Proof. unfold call. by rewrite dispatch_paramOf. Qed.
End call.

(** *** Calls that can raise *)

Lemma call_accepts (c : Call) (f : Param.t -> Param.t) (r : Ref) (w : World)
    (r' : Ref) (v : R) :
  (forall p, Param.inRange (f p) v = Param.inRange p v) ->
  accepts (call c f r w) r' v = accepts w r' v.
Proof.
  intros Hf. unfold accepts. rewrite call_paramOf.
  case_decide; [|reflexivity].
  destruct (paramOf w r); [|reflexivity].
  destruct (paramOf w r'); simpl; [apply Hf|reflexivity].
Qed.

Lemma accepts_within (w : World) (d : Ref) (p : Param.t) (v : R) :
  paramOf w d = Some p -> (accepts w d v = true <-> within p v).
Proof.
  intros Hp. unfold accepts. rewrite Hp. apply ParamFacts.inRange_within.
Qed.

Lemma dest_setValueAtTime_accepted (d : Ref) (v q : R) (w : World) :
  accepts w d v = true ->
  dest_setValueAtTime d v q w
  = Returns tt (call (Call_setValueAtTime d v q) (Param.withSetValue v q) d w).
Proof.
  unfold accepts, paramOf, dest_setValueAtTime, bind, modify, dispatchResult,
    call, dispatch, Signal_setValueAtTime, forward, Param.setValueAtTime.
  change (heap (record ?x w)) with (heap w).
  destruct d as [a|a]; cbn [resolve]; rewrite alter_alt;
    destruct (heap w !! a) as [[p|sg|x|]|] eqn:Ha; intros Hv;
    rewrite ?Hv; rewrite ?insert_id by exact Ha; reflexivity.
Qed.

Lemma dest_setValueAtTime_refused (d : Ref) (v q : R) (w : World) :
  accepts w d v = false ->
  dest_setValueAtTime d v q w
  = Throws RangeError (record (Call_setValueAtTime d v q) w).
Proof.
  unfold accepts, paramOf, dest_setValueAtTime, bind, modify, dispatchResult,
    Signal_setValueAtTime, forward, Param.setValueAtTime.
  change (heap (record ?x w)) with (heap w).
  destruct d as [a|a]; cbn [resolve];
    destruct (heap w !! a) as [[p|sg|x|]|] eqn:Ha; intros Hv;
    rewrite ?Hv; try discriminate; reflexivity.
Qed.

Lemma connectSignal_outcome (s : nat) (d : Ref) (o i : option nat) (w : World) :
  connectSignal s d o i w =
  if rejected w d then Throws RangeError (refused d w)
  else Returns tt (connected s d o i w).
Proof.
  unfold connectSignal, connected, rejected, refused, bind, get, when.
  destruct (overridable w d) eqn:Ho; [|reflexivity]. cbn [andb].
  unfold dest_value, dest_cancelScheduledValues, dest_set_overridden, modify.
  change (dispatch (Param.cancelScheduledValues 0) (Signal_cancelScheduledValues 0) d
            (record (Call_cancelScheduledValues d 0) ?x))
    with (call (Call_cancelScheduledValues d 0) (Param.cancelScheduledValues 0) d x).
  assert (Ha : accepts (call (Call_cancelScheduledValues d 0)
                             (Param.cancelScheduledValues 0) d
                             (record (Call_value d) w)) d 0 = accepts w d 0)
    by (by rewrite call_accepts).
  destruct (accepts w d 0) eqn:Hz; cbn [negb].
  2:{ by rewrite dest_setValueAtTime_refused. }
  rewrite dest_setValueAtTime_accepted by done. cbv beta iota.
  rewrite !call_isToneParam.
  change (isToneParam (record (Call_value d) w) d) with (isToneParam w d).
  set (w3 := call (Call_setValueAtTime d 0 0) _ d _).
  assert (Hpush : forall w4 : World,
    connectedSignals w4 = connectedSignals w -> nextIdent w4 = nextIdent w ->
    match
      match
        (if negb (bool_decide (is_Some (connectedSignals w4 !! s)))
         then fun w0 : World =>
                Returns tt (setConnected (<[s:=[]]> (connectedSignals w0)) w0)
         else ret tt) w4
      with
      | Returns _ w5 => push s d (orZero o) (orZero i) (readValue w d) w5
      | Throws e w5 => Throws e w5
      end
    with
    | Returns _ w6 => connect s d o i w6
    | Throws e w6 => Throws e w6
    end
    = Returns tt (record (Call_connect s d o i)
                    (pushed s (mkConnection (nextIdent w) d (orZero o) (orZero i)
                                 (readValue w d)) w4))).
  { intros w4 Hc Hn. unfold push, pushed, modify, connect, setConnected, ret.
    destruct (connectedSignals w4 !! s) as [l|] eqn:Hl.
    - rewrite bool_decide_eq_true_2 by eauto. simpl. rewrite Hl, Hn. reflexivity.
    - rewrite bool_decide_eq_false_2 by (intros [? ?]; congruence). simpl.
      rewrite lookup_insert_eq, insert_insert_eq, Hn. reflexivity. }
  destruct (isToneParam w d).
  - change (dispatch (Param.setOverridden true) (Signal_set_overridden true) d
              (record (Call_set_overridden d true) w3))
      with (call (Call_set_overridden d true) (Param.setOverridden true) d w3).
    apply Hpush.
    + subst w3. by rewrite !call_connectedSignals.
    + subst w3. by rewrite !call_nextIdent.
  - apply Hpush.
    + subst w3. by rewrite !call_connectedSignals.
    + subst w3. by rewrite !call_nextIdent.
Qed.

Lemma connectSignal_connected (s : nat) (d : Ref) (o i : option nat) (w : World) :
  rejected w d = false ->
  connectSignal s d o i w = Returns tt (connected s d o i w).
Proof. intros Hr. by rewrite connectSignal_outcome, Hr. Qed.

Lemma rejected_false (w : World) (d : Ref) :
  accepts w d 0 = true -> rejected w d = false.
Proof. intros Ha. unfold rejected. by rewrite Ha, andb_false_r. Qed.

Lemma rejected_within (w : World) (d : Ref) (p : Param.t) :
  paramOf w d = Some p -> within p 0 -> rejected w d = false.
Proof. intros Hp Hz. apply rejected_false. by apply (accepts_within w d p). Qed.

Lemma flagAt_call (c : Call) (f : Param.t -> Param.t) (r : Ref) (w : World) (a : nat) :
  flagAt (call c f r w) a =
  if decide (a = addr r)
  then match paramOf w r with
       | Some p => Param.overridden (f p)
       | None => flagAt w a
       end
  else flagAt w a.
Proof.
  unfold flagAt, call. rewrite dispatch_heap.
  change (heap (record c w)) with (heap w). unfold paramOf.
  case_decide; [subst a|reflexivity].
  destruct r as [b|b]; cbn [resolve addr];
    destruct (heap w !! b) as [[]|]; reflexivity.
Qed.

Lemma isToneParam_paramOf (w : World) (r : Ref) :
  isToneParam w r = true -> is_Some (paramOf w r).
Proof.
  unfold isToneParam, isSignal, isParam, paramOf.
  destruct (resolve w r) as [[]|]; simpl; try discriminate; eauto.
Qed.

Section connected.
Variables (s : nat) (d : Ref) (o i : option nat) (w : World).

Local Abbreviation w' := (connected s d o i w).
Local Abbreviation c := (mkConnection (nextIdent w) d (orZero o) (orZero i) (readValue w d)).

Lemma connected_now : now w' = now w.
Proof.
  unfold connected. destruct (overridable w d), (isToneParam w d);
    cbn [now record pushed]; by rewrite ?call_now.
Qed.

Lemma connected_connectedSignals :
  connectedSignals w' =
  if overridable w d
  then <[s := default [] (connectedSignals w !! s) ++ [c]]> (connectedSignals w)
  else connectedSignals w.
Proof.
  unfold connected. destruct (overridable w d), (isToneParam w d);
    cbn [connectedSignals record pushed]; by rewrite ?call_connectedSignals.
Qed.

Lemma connected_nextIdent :
  nextIdent w' = if overridable w d then S (nextIdent w) else nextIdent w.
Proof.
  unfold connected. destruct (overridable w d), (isToneParam w d);
    cbn [nextIdent record pushed]; by rewrite ?call_nextIdent.
Qed.

Lemma connected_calls :
  calls w' =
  calls w ++
  (if overridable w d
   then [Call_value d; Call_cancelScheduledValues d 0; Call_setValueAtTime d 0 0]
        ++ (if isToneParam w d then [Call_set_overridden d true] else [])
   else [])
  ++ [Call_connect s d o i].
Proof.
  unfold connected. destruct (overridable w d), (isToneParam w d);
    cbn [calls record pushed]; rewrite ?call_calls; cbn [calls record];
    by rewrite <- ?app_assoc.
Qed.

Lemma connected_overridable (r : Ref) : overridable w' r = overridable w r.
Proof.
  unfold connected. destruct (overridable w d), (isToneParam w d);
    change (overridable (record ?x ?y) r) with (overridable y r);
    change (overridable (pushed ?x ?y ?z) r) with (overridable z r);
    by rewrite ?call_overridable.
Qed.

Lemma connected_isToneParam (r : Ref) : isToneParam w' r = isToneParam w r.
Proof.
  unfold connected. destruct (overridable w d), (isToneParam w d);
    change (isToneParam (record ?x ?y) r) with (isToneParam y r);
    change (isToneParam (pushed ?x ?y ?z) r) with (isToneParam z r);
    by rewrite ?call_isToneParam.
Qed.

Lemma connected_paramOf (r : Ref) :
  paramOf w' r =
  if overridable w d && bool_decide (addr r = addr d)
  then match paramOf w d with
       | Some _ =>
           (fun p =>
              let p' := Param.withSetValue 0 0 (Param.cancelScheduledValues 0 p) in
              if isToneParam w d then Param.setOverridden true p' else p')
             <$> paramOf w r
       | None => paramOf w r
       end
  else paramOf w r.
Proof.
  unfold connected. destruct (overridable w d); [|reflexivity].
  cbn [andb].
  destruct (isToneParam w d);
    change (paramOf (record ?x ?y) r) with (paramOf y r);
    change (paramOf (pushed ?x ?y ?z) r) with (paramOf z r);
    rewrite !call_paramOf;
    change (paramOf (record ?x ?y) ?z) with (paramOf y z);
    case_bool_decide; repeat case_decide; try done;
    destruct (paramOf w d) as [pd|] eqn:Hd; simpl;
    destruct (paramOf w r); reflexivity.
Qed.

Lemma connected_flagAt (a : nat) :
  flagAt w' a =
  if overridable w d && isToneParam w d && bool_decide (a = addr d)
  then true else flagAt w a.
Proof.
  unfold connected. destruct (overridable w d); [|reflexivity].
  cbn [andb].
  destruct (isToneParam w d) eqn:Ht;
    change (flagAt (record ?x ?y) a) with (flagAt y a);
    change (flagAt (pushed ?x ?y ?z) a) with (flagAt z a);
    rewrite !flagAt_call;
    change (flagAt (record ?x ?y) a) with (flagAt y a);
    rewrite ?call_paramOf;
    change (paramOf (record ?x ?y) ?z) with (paramOf y z);
    cbn [andb]; try case_bool_decide; repeat case_decide; try done.
  - destruct (isToneParam_paramOf w d Ht) as [p ->]. reflexivity.
  - subst a. destruct (paramOf w d) as [p|] eqn:Hp; [|reflexivity].
    simpl. by rewrite (flagAt_paramOf w d p Hp).
Qed.
End connected.

Lemma connected_accepts (s : nat) (d : Ref) (o i : option nat) (w : World)
    (r : Ref) (v : R) :
  accepts (connected s d o i w) r v = accepts w r v.
Proof.
  unfold connected. destruct (overridable w d), (isToneParam w d);
    change (accepts (record ?x ?y) r v) with (accepts y r v);
    change (accepts (pushed ?x ?y ?z) r v) with (accepts z r v);
    rewrite ?call_accepts by done; reflexivity.
Qed.

(** *** The world that a refused connect leaves *)

Section refused.
Variables (d : Ref) (w : World).

Lemma refused_connectedSignals : connectedSignals (refused d w) = connectedSignals w.
Proof. unfold refused. cbn [connectedSignals record]. by rewrite call_connectedSignals. Qed.

Lemma refused_nextIdent : nextIdent (refused d w) = nextIdent w.
Proof. unfold refused. cbn [nextIdent record]. by rewrite call_nextIdent. Qed.


Lemma refused_calls :
  calls (refused d w)
  = calls w ++ [Call_value d; Call_cancelScheduledValues d 0; Call_setValueAtTime d 0 0].
Proof.
  unfold refused. cbn [calls record]. rewrite call_calls. cbn [calls record].
  by rewrite <- !app_assoc.
Qed.

Lemma refused_overridable (r : Ref) : overridable (refused d w) r = overridable w r.
Proof.
  unfold refused. change (overridable (record ?x ?y) r) with (overridable y r).
  by rewrite call_overridable.
Qed.

Lemma refused_isToneParam (r : Ref) : isToneParam (refused d w) r = isToneParam w r.
Proof.
  unfold refused. change (isToneParam (record ?x ?y) r) with (isToneParam y r).
  by rewrite call_isToneParam.
Qed.

Lemma refused_accepts (r : Ref) (v : R) : accepts (refused d w) r v = accepts w r v.
Proof.
  unfold refused. change (accepts (record ?x ?y) r v) with (accepts y r v).
  by rewrite call_accepts.
Qed.

Lemma refused_flagAt (a : nat) : flagAt (refused d w) a = flagAt w a.
Proof.
  unfold refused. change (flagAt (record ?x ?y) a) with (flagAt y a).
  rewrite flagAt_call. change (paramOf (record ?x w) d) with (paramOf w d).
  change (flagAt (record ?x w) a) with (flagAt w a).
  case_decide; [subst a|reflexivity].
  destruct (paramOf w d) as [p|] eqn:Hp; [|reflexivity].
  by rewrite (flagAt_paramOf w d p Hp).
Qed.

Lemma refused_live (c : Connection) : live (refused d w) c <-> live w c.
Proof. unfold live. by rewrite refused_connectedSignals. Qed.
End refused.

(** *** The restoring loop *)

Lemma unmarked_accepts (w : World) (c : Connection) (r : Ref) (v : R) :
  accepts (unmarked w c) r v = accepts w r v.
Proof.
  unfold unmarked. destruct (isToneParam w (destination c)); [|reflexivity].
  by rewrite call_accepts.
Qed.

Lemma restored_accepts (w : World) (c : Connection) (r : Ref) (v : R) :
  accepts (restored w c) r v = accepts w r v.
Proof. unfold restored. by rewrite call_accepts, unmarked_accepts. Qed.

Lemma restorable_ext (w w' : World) (l : list Connection) :
  (forall r v, accepts w' r v = accepts w r v) ->
  restorable w' l = restorable w l.
Proof.
  intros H. unfold restorable. induction l as [|c l IH]; [reflexivity|].
  cbn [forallb]. by rewrite H, IH.
Qed.

Lemma restore_outcome (c : Connection) (w : World) :
  restore c w =
  if accepts w (destination c) (previousValue c)
  then Returns tt (restored w c)
  else Throws RangeError
         (record (Call_setValueAtTime (destination c) (previousValue c) 0)
                 (unmarked w c)).
Proof.
  unfold restore, restored, bind, get, when.
  assert (Hu : (if isToneParam w (destination c)
                then dest_set_overridden (destination c) false
                else ret tt) w = Returns tt (unmarked w c)).
  { unfold unmarked, dest_set_overridden, modify, call, ret.
    by destruct (isToneParam w (destination c)). }
  rewrite Hu. cbv beta iota.
  destruct (accepts w (destination c) (previousValue c)) eqn:Ha.
  - apply dest_setValueAtTime_accepted. by rewrite unmarked_accepts.
  - apply dest_setValueAtTime_refused. by rewrite unmarked_accepts.
Qed.

Lemma forEach_restore_outcome (l : list Connection) (w : World) :
  forEach l restore w =
  if restorable w l then Returns tt (foldl restored w l)
  else Throws RangeError (interrupted w l).
Proof.
  revert w. induction l as [|c l IH]; intros w; [reflexivity|].
  cbn [forEach foldl restorable forallb interrupted]. unfold bind.
  rewrite restore_outcome.
  destruct (accepts w (destination c) (previousValue c)); [|reflexivity].
  cbn [andb]. rewrite IH.
  fold (restorable (restored w c) l).
  by rewrite (restorable_ext w (restored w c))
    by (intros r v; apply restored_accepts).
Qed.

Lemma forEach_restore (l : list Connection) (w : World) :
  restorable w l = true ->
  forEach l restore w = Returns tt (foldl restored w l).
Proof. intros Hr. by rewrite forEach_restore_outcome, Hr. Qed.

Lemma restored_connectedSignals (w : World) (c : Connection) :
  connectedSignals (restored w c) = connectedSignals w.
Proof.
  unfold restored, unmarked. destruct (isToneParam w (destination c));
    by rewrite !call_connectedSignals.
Qed.

Lemma foldl_restored_connectedSignals (l : list Connection) (w : World) :
  connectedSignals (foldl restored w l) = connectedSignals w.
Proof.
  revert w. induction l as [|c l IH]; intros w; [reflexivity|].
  cbn [foldl]. by rewrite IH, restored_connectedSignals.
Qed.

Lemma disconnectSignal_outcome (s : nat) (d : option Ref) (o i : option nat)
    (w : World) :
  disconnectSignal s d o i w =
  if unmatched s d o i w then Throws NotConnected w
  else if unrestorable s d o i w then Throws RangeError (stopped s d o i w)
  else Returns tt (disconnected s d o i w).
Proof.
  unfold disconnectSignal, disconnected, unmatched, unrestorable, stopped,
    bind, get, when.
  fold (guard w d). destruct (guard w d); [|reflexivity]. cbn [andb].
  destruct (connectedSignals w !! s) as [l|] eqn:Hl; [|reflexivity].
  fold (selected d o i l).
  destruct (selected d o i l) as [|c sel] eqn:Hsel.
  - rewrite bool_decide_eq_true_2 by done. reflexivity.
  - rewrite bool_decide_eq_false_2 by done. cbn [length Nat.eqb ret].
    rewrite forEach_restore_outcome.
    destruct (restorable w (c :: sel)); cbn [negb]; [|reflexivity].
    unfold modify, disconnect.
    rewrite foldl_restored_connectedSignals, Hl. reflexivity.
Qed.

(** The outcome when every selected record can be restored, which is the
    case of every record that [connectSignal] has made. *)
Lemma disconnectSignal_restorable (s : nat) (d : option Ref) (o i : option nat)
    (w : World) :
  unrestorable s d o i w = false ->
  disconnectSignal s d o i w =
  if unmatched s d o i w then Throws NotConnected w
  else Returns tt (disconnected s d o i w).
Proof. intros Hr. by rewrite disconnectSignal_outcome, Hr. Qed.

Lemma unrestorable_false (s : nat) (d : option Ref) (o i : option nat) (w : World) :
  (forall l, connectedSignals w !! s = Some l -> restorable w (selected d o i l) = true) ->
  unrestorable s d o i w = false.
Proof.
  intros H. unfold unrestorable. destruct (guard w d); [|reflexivity].
  destruct (connectedSignals w !! s) as [l|]; [|reflexivity].
  by rewrite H.
Qed.

Lemma restorable_true (w : World) (l : list Connection) :
  restorable w l = true <->
  forall c, c ∈ l -> accepts w (destination c) (previousValue c) = true.
Proof.
  unfold restorable. rewrite forallb_forall. split.
  - intros H c Hc. apply H. by apply list_elem_of_In.
  - intros H c Hc. apply H. by apply list_elem_of_In.
Qed.

Lemma unrestorable_recordsRestorable (s : nat) (d : option Ref) (o i : option nat)
    (w : World) :
  recordsRestorable w -> unrestorable s d o i w = false.
Proof.
  intros Hw. apply unrestorable_false. intros l Hl.
  apply restorable_true. intros c Hc. apply Hw. exists s, l. split; [done|].
  destruct d as [d'|]; cbn [selected] in Hc; [|done].
  by apply list_elem_of_filter in Hc as [_ Hc].
Qed.

Lemma restorable_false (w : World) (l : list Connection) :
  restorable w l = false ->
  exists c, c ∈ l /\ accepts w (destination c) (previousValue c) = false.
Proof.
  unfold restorable. induction l as [|c l IH]; [discriminate|].
  cbn [forallb]. destruct (accepts w (destination c) (previousValue c)) eqn:Ha.
  - cbn [andb]. intros (c' & Hc' & Ha')%IH. exists c'. split; [by right|done].
  - intros _. exists c. split; [by left|done].
Qed.

Lemma flagAt_call_frame (c : Call) (f : Param.t -> Param.t) (r : Ref) (w : World)
    (a : nat) :
  (forall p, Param.overridden (f p) = Param.overridden p) ->
  flagAt (call c f r w) a = flagAt w a.
Proof.
  intros Hf. rewrite flagAt_call. case_decide; [subst a|reflexivity].
  destruct (paramOf w r) as [p|] eqn:Hp; [|reflexivity].
  by rewrite Hf, (flagAt_paramOf w r p Hp).
Qed.

Section restored.
Variables (w : World) (c : Connection).

Lemma restored_calls : calls (restored w c) = calls w ++ restoreCalls w c.
Proof.
  unfold restored, unmarked, restoreCalls. destruct (isToneParam w (destination c));
    rewrite !call_calls; by rewrite <- ?app_assoc.
Qed.

Lemma restored_now : now (restored w c) = now w.
Proof.
  unfold restored, unmarked. destruct (isToneParam w (destination c)); by rewrite !call_now.
Qed.

Lemma restored_nextIdent : nextIdent (restored w c) = nextIdent w.
Proof.
  unfold restored, unmarked. destruct (isToneParam w (destination c));
    by rewrite !call_nextIdent.
Qed.

Lemma restored_overridable (r : Ref) : overridable (restored w c) r = overridable w r.
Proof.
  unfold restored, unmarked. destruct (isToneParam w (destination c));
    by rewrite !call_overridable.
Qed.

Lemma restored_isToneParam (r : Ref) : isToneParam (restored w c) r = isToneParam w r.
Proof.
  unfold restored, unmarked. destruct (isToneParam w (destination c));
    by rewrite !call_isToneParam.
Qed.

Lemma restored_flagAt (a : nat) :
  flagAt (restored w c) a =
  if isToneParam w (destination c) && bool_decide (a = addr (destination c))
  then false else flagAt w a.
Proof.
  unfold restored, unmarked. rewrite flagAt_call_frame by done.
  destruct (isToneParam w (destination c)) eqn:Ht; [|reflexivity].
  rewrite flagAt_call. cbn [andb]. case_bool_decide; case_decide; try done.
  by destruct (isToneParam_paramOf w _ Ht) as [p ->].
Qed.

Lemma restored_paramOf (r : Ref) :
  paramOf (restored w c) r =
  if decide (addr r = addr (destination c))
  then match paramOf w (destination c) with
       | Some _ =>
           (fun p => Param.withSetValue (previousValue c) 0 (Param.setOverridden false p))
             <$> paramOf w r
       | None => paramOf w r
       end
  else paramOf w r.
Proof.
  unfold restored, unmarked. destruct (isToneParam w (destination c)) eqn:Ht.
  - rewrite !call_paramOf. case_decide; [|reflexivity].
    rewrite decide_True by done.
    destruct (isToneParam_paramOf w _ Ht) as [p ->]. simpl.
    destruct (paramOf w r); reflexivity.
  - rewrite call_paramOf. case_decide; [|reflexivity].
    destruct (paramOf w (destination c)) as [p|] eqn:Hp; [|reflexivity].
    exfalso. revert Ht Hp. unfold isToneParam, isSignal, isParam, paramOf.
    destruct (resolve w (destination c)) as [[]|]; simpl; congruence.
Qed.
End restored.

Section restored_all.
Variables (l : list Connection).

Lemma foldl_restored_isToneParam (w : World) (r : Ref) :
  isToneParam (foldl restored w l) r = isToneParam w r.
Proof.
  revert w. induction l as [|c l' IH]; intros w; [reflexivity|].
  cbn [foldl]. by rewrite IH, restored_isToneParam.
Qed.

Lemma foldl_restored_overridable (w : World) (r : Ref) :
  overridable (foldl restored w l) r = overridable w r.
Proof.
  revert w. induction l as [|c l' IH]; intros w; [reflexivity|].
  cbn [foldl]. by rewrite IH, restored_overridable.
Qed.

Lemma foldl_restored_now (w : World) : now (foldl restored w l) = now w.
Proof.
  revert w. induction l as [|c l' IH]; intros w; [reflexivity|].
  cbn [foldl]. by rewrite IH, restored_now.
Qed.

Lemma foldl_restored_nextIdent (w : World) :
  nextIdent (foldl restored w l) = nextIdent w.
Proof.
  revert w. induction l as [|c l' IH]; intros w; [reflexivity|].
  cbn [foldl]. by rewrite IH, restored_nextIdent.
Qed.
End restored_all.

Lemma restoreCalls_ext (w w' : World) (c : Connection) :
  (forall r, isToneParam w' r = isToneParam w r) ->
  restoreCalls w' c = restoreCalls w c.
Proof. intros H. unfold restoreCalls. by rewrite H. Qed.

Lemma foldl_restored_calls (l : list Connection) (w : World) :
  calls (foldl restored w l) = calls w ++ flat_map (restoreCalls w) l.
Proof.
  revert w. induction l as [|c l IH]; intros w.
  - simpl. by rewrite app_nil_r.
  - cbn [foldl flat_map]. rewrite IH, restored_calls, <- app_assoc.
    do 2 f_equal. apply flat_map_ext. intros c'.
    apply restoreCalls_ext. intros r. apply restored_isToneParam.
Qed.

Lemma cleared_ext (w w' : World) (l : list Connection) (a : nat) :
  (forall r, isToneParam w' r = isToneParam w r) ->
  cleared w' l a = cleared w l a.
Proof.
  intros H. unfold cleared. induction l as [|c l IH]; [reflexivity|].
  cbn [existsb]. by rewrite H, IH.
Qed.

Lemma foldl_restored_flagAt (l : list Connection) (w : World) (a : nat) :
  flagAt (foldl restored w l) a = if cleared w l a then false else flagAt w a.
Proof.
  revert w. induction l as [|c l IH]; intros w; [reflexivity|].
  cbn [foldl]. rewrite IH, restored_flagAt.
  rewrite (cleared_ext w (restored w c)) by (intros r; apply restored_isToneParam).
  unfold cleared at 2. cbn [existsb]. fold (cleared w l a).
  destruct (cleared w l a); [by rewrite orb_true_r|].
  rewrite orb_false_r. reflexivity.
Qed.

Lemma readOverridden_flagAt (w : World) (r : Ref) :
  isToneParam w r = true -> readOverridden w r = Some (flagAt w (addr r)).
Proof.
  unfold isToneParam, isSignal, isParam, readOverridden, flagAt.
  destruct r as [a|a]; cbn [resolve addr];
    destruct (heap w !! a) as [[]|]; simpl; try discriminate; reflexivity.
Qed.

Lemma readOverridden_Some (w : World) (r : Ref) (b : bool) :
  readOverridden w r = Some b -> isToneParam w r = true /\ flagAt w (addr r) = b.
Proof.
  unfold isToneParam, isSignal, isParam, readOverridden, flagAt.
  destruct r as [a|a]; cbn [resolve addr];
    destruct (heap w !! a) as [[]|]; simpl; try discriminate;
    intros [= <-]; done.
Qed.

Lemma readValue_paramOf (w : World) (r : Ref) (p : Param.t) :
  paramOf w r = Some p -> readValue w r = Param.get_value (now w) p.
Proof.
  unfold paramOf, readValue. destruct (resolve w r) as [[]|]; try discriminate;
    intros [= <-]; reflexivity.
Qed.

Lemma paramOf_isToneParam (w : World) (r : Ref) (p : Param.t) :
  paramOf w r = Some p -> isToneParam w r = true.
Proof.
  unfold paramOf, isToneParam, isSignal, isParam.
  destruct (resolve w r) as [[]|]; try discriminate; reflexivity.
Qed.

Lemma audioParam_classes (w : World) (d : Ref) (v : R) :
  resolve w d = Some (OAudioParam v) ->
  overridable w d = true /\ isToneParam w d = false /\ paramOf w d = None /\
  readValue w d = v.
Proof.
  intros Hr. unfold overridable, isToneParam, isParam, isSignal, isAudioParam,
    paramOf, readValue. by rewrite Hr.
Qed.

Lemma rejected_paramOf (w : World) (d : Ref) :
  rejected w d = true ->
  overridable w d = true /\ exists p, paramOf w d = Some p /\ ~ within p 0.
Proof.
  unfold rejected. intros [Ho Ha]%andb_true_iff. split; [done|].
  apply negb_true_iff in Ha. unfold accepts in Ha.
  destruct (paramOf w d) as [p|]; [|discriminate].
  exists p. split; [done|]. by apply ParamFacts.inRange_not_within.
Qed.

(** C1 (amended).  For a destination that is a [Param], or a [Signal]
    whose [override] flag is set, and whose range contains [0],
    [connectSignal] reads [destination.value], then calls
    [cancelScheduledValues(0)], then [setValueAtTime(0, 0)], then sets
    [overridden], in this order and before wiring; the flag is then true and
    the source's array holds one more record, made of the destination, the
    two indices and the value that the schedule of the destination, as it
    was before the call, gives at the current time.  A native AudioParam
    gets the same calls except the flag, and its record holds the value
    read from it.  Whenever [connectSignal] returns, the wiring is what it
    did last, and for a destination that is not overridable the wiring is
    all it does.  It throws only the RangeError of the zeroing call, on a
    [Param] or [Signal] whose range does not contain [0]: the value has then
    been read and the schedule cancelled, and no flag is set, no record
    kept and no wiring done. *)
Theorem connectSignal_override (w : World) (s : nat) (d : Ref) (o i : option nat)
    (p : Param.t) :
  overridable w d = true ->
  paramOf w d = Some p ->
  within p 0 ->
  (exists w',
     connectSignal s d o i w = Returns tt w' /\
     calls w' = calls w ++ [Call_value d;
                            Call_cancelScheduledValues d 0;
                            Call_setValueAtTime d 0 0;
                            Call_set_overridden d true;
                            Call_connect s d o i] /\
     readOverridden w' d = Some true /\
     connectedSignals w' !! s
     = Some (default [] (connectedSignals w !! s)
             ++ [mkConnection (nextIdent w) d (orZero o) (orZero i)
                              (Param.getValueAtTime p (now w))]) /\
     paramOf w' d
     = Some (Param.setOverridden true
               (Param.withSetValue 0 0 (Param.cancelScheduledValues 0 p)))) /\
  (forall (w0 : World) (s0 : nat) (d0 : Ref) (o0 i0 : option nat) (w0' : World),
     connectSignal s0 d0 o0 i0 w0 = Returns tt w0' ->
     last (calls w0') = Some (Call_connect s0 d0 o0 i0)) /\
  (forall (w0 : World) (s0 : nat) (d0 : Ref) (o0 i0 : option nat),
     overridable w0 d0 = false ->
     connectSignal s0 d0 o0 i0 w0 = Returns tt (record (Call_connect s0 d0 o0 i0) w0)) /\
  (forall (w0 : World) (s0 : nat) (d0 : Ref) (o0 i0 : option nat) (v : R),
     resolve w0 d0 = Some (OAudioParam v) ->
     exists w0',
       connectSignal s0 d0 o0 i0 w0 = Returns tt w0' /\
       calls w0' = calls w0 ++ [Call_value d0;
                                Call_cancelScheduledValues d0 0;
                                Call_setValueAtTime d0 0 0;
                                Call_connect s0 d0 o0 i0] /\
       connectedSignals w0' !! s0
       = Some (default [] (connectedSignals w0 !! s0)
               ++ [mkConnection (nextIdent w0) d0 (orZero o0) (orZero i0) v])) /\
  (forall (w0 : World) (s0 : nat) (d0 : Ref) (o0 i0 : option nat) (e : Error)
          (w0' : World),
     connectSignal s0 d0 o0 i0 w0 = Throws e w0' ->
     e = RangeError /\
     overridable w0 d0 = true /\
     (exists p0, paramOf w0 d0 = Some p0 /\ ~ within p0 0) /\
     calls w0' = calls w0 ++ [Call_value d0;
                              Call_cancelScheduledValues d0 0;
                              Call_setValueAtTime d0 0 0] /\
     connectedSignals w0' = connectedSignals w0 /\
     (forall a, flagAt w0' a = flagAt w0 a)).
Proof.
  intros Ho Hp Hz.
  pose proof (paramOf_isToneParam w d p Hp) as Ht.
  split; [|split; [|split; [|split]]].
  - exists (connected s d o i w).
    split; [apply connectSignal_connected; by apply (rejected_within w d p)|].
    split; [by rewrite connected_calls, Ho, Ht|].
    split.
    { rewrite readOverridden_flagAt by (by rewrite connected_isToneParam).
      rewrite connected_flagAt, Ho, Ht, bool_decide_eq_true_2 by done.
      reflexivity. }
    split.
    { rewrite connected_connectedSignals, Ho, lookup_insert_eq.
      by rewrite (readValue_paramOf w d p Hp). }
    rewrite connected_paramOf, Ho, bool_decide_eq_true_2 by done.
    cbn [andb]. rewrite Hp, Ht. reflexivity.
  - intros w0 s0 d0 o0 i0 w0'. rewrite connectSignal_outcome.
    destruct (rejected w0 d0); [discriminate|]. intros [= <-].
    by rewrite connected_calls, app_assoc, last_snoc.
  - intros w0 s0 d0 o0 i0 Hn. rewrite connectSignal_outcome.
    unfold rejected, connected. by rewrite Hn.
  - intros w0 s0 d0 o0 i0 v Hr.
    destruct (audioParam_classes w0 d0 v Hr) as (Ho0 & Ht0 & Hp0 & Hv0).
    exists (connected s0 d0 o0 i0 w0).
    split.
    { apply connectSignal_connected, rejected_false. unfold accepts. by rewrite Hp0. }
    split; [by rewrite connected_calls, Ho0, Ht0|].
    by rewrite connected_connectedSignals, Ho0, lookup_insert_eq, Hv0.
  - intros w0 s0 d0 o0 i0 e w0'. rewrite connectSignal_outcome.
    destruct (rejected w0 d0) eqn:Hr; [|discriminate]. intros [= <- <-].
    destruct (rejected_paramOf w0 d0 Hr) as [Ho0 Hp0].
    split; [done|]. split; [done|]. split; [done|].
    split; [apply refused_calls|]. split; [apply refused_connectedSignals|].
    apply refused_flagAt.
Qed.

Lemma includes_true (sel : list Connection) (c : Connection) :
  includes sel c = true <-> exists c', c' ∈ sel /\ ident c' = ident c.
Proof.
  unfold includes. rewrite existsb_exists. split.
  - intros (c' & Hin & He). exists c'. split; [by apply list_elem_of_In|].
    by apply Nat.eqb_eq.
  - intros (c' & Hin & He). exists c'. split; [by apply list_elem_of_In|].
    by apply Nat.eqb_eq.
Qed.

Lemma NoDup_ident_inj (l : list Connection) (c c' : Connection) :
  NoDup (ident <$> l) -> c ∈ l -> c' ∈ l -> ident c = ident c' -> c = c'.
Proof.
  intros Hnd Hc Hc' He.
  apply list_elem_of_lookup in Hc as [n Hn], Hc' as [n' Hn'].
  assert (n = n').
  { eapply NoDup_lookup; [exact Hnd| |].
    - rewrite list_lookup_fmap, Hn. reflexivity.
    - rewrite list_lookup_fmap, Hn'. simpl. by rewrite He. }
  subst n'. congruence.
Qed.

Lemma selected_subseteq (d : option Ref) (o i : option nat) (l : list Connection) :
  selected d o i l ⊆ l.
Proof.
  destruct d as [d'|]; simpl; [|done].
  intros c [_ Hc]%list_elem_of_filter. exact Hc.
Qed.

(** With distinct identities, removing what [includes] finds is removing
    the selected records. *)
Lemma remove_selected (d : option Ref) (o i : option nat) (l : list Connection) :
  NoDup (ident <$> l) ->
  filter (fun conn => negb (includes (selected d o i l) conn)) l
  = match d with
    | Some d' => filter (fun conn => ¬ matches d' o i conn) l
    | None => []
    end.
Proof.
  intros Hnd.
  assert (Hin : forall c, c ∈ l ->
            (includes (selected d o i l) c = true <-> c ∈ selected d o i l)).
  { intros c Hc. rewrite includes_true. split.
    - intros (c' & Hc' & He).
      assert (c' = c) as <-; [|done].
      eapply NoDup_ident_inj; eauto. by eapply selected_subseteq.
    - intros Hs. eauto. }
  destruct d as [d'|]; simpl in *.
  - apply filter_ext_in. intros c Hc.
    specialize (Hin c Hc). rewrite list_elem_of_filter in Hin.
    destruct (includes _ c), (matches d' o i c); simpl in *;
      destruct Hin as [H1 H2]; split; intros; try tauto;
      try (specialize (H2 (conj I Hc)); discriminate);
      destruct (H1 eq_refl); tauto.
  - apply filter_none. intros c Hc. specialize (Hin c Hc).
    destruct (includes l c); simpl in *; [tauto|].
    destruct Hin as [_ H2]. specialize (H2 Hc). discriminate.
Qed.

Lemma cleared_true (w : World) (l : list Connection) (c : Connection) :
  c ∈ l -> isToneParam w (destination c) = true ->
  cleared w l (addr (destination c)) = true.
Proof.
  intros Hc Ht. unfold cleared. apply existsb_exists. exists c.
  split; [by apply list_elem_of_In|].
  by rewrite Ht, bool_decide_eq_true_2.
Qed.

Section disconnected.
Variables (s : nat) (d : option Ref) (o i : option nat) (w : World)
          (l : list Connection).
Hypothesis Hl : connectedSignals w !! s = Some l.
Hypothesis Hg : guard w d = true.

Local Abbreviation w' := (disconnected s d o i w).
Local Abbreviation sel := (selected d o i l).

Lemma disconnected_calls :
  calls w' = calls w ++ flat_map (restoreCalls w) sel ++ [Call_disconnect s d o i].
Proof.
  unfold disconnected. rewrite Hg, Hl. cbn [calls record setConnected].
  by rewrite foldl_restored_calls, app_assoc.
Qed.

Lemma disconnected_connectedSignals :
  connectedSignals w' =
  <[s := filter (fun conn => negb (includes sel conn)) l]> (connectedSignals w).
Proof.
  unfold disconnected. rewrite Hg, Hl. cbn [connectedSignals record setConnected].
  by rewrite foldl_restored_connectedSignals.
Qed.

Lemma disconnected_flagAt (a : nat) :
  flagAt w' a = if cleared w sel a then false else flagAt w a.
Proof.
  unfold disconnected. rewrite Hg, Hl.
  change (flagAt (record ?x (setConnected ?y ?z)) a) with (flagAt z a).
  apply foldl_restored_flagAt.
Qed.

Lemma disconnected_isToneParam (r : Ref) : isToneParam w' r = isToneParam w r.
Proof.
  unfold disconnected. rewrite Hg, Hl.
  change (isToneParam (record ?x (setConnected ?y ?z)) r) with (isToneParam z r).
  apply foldl_restored_isToneParam.
Qed.

Lemma disconnected_overridable (r : Ref) : overridable w' r = overridable w r.
Proof.
  unfold disconnected. rewrite Hg, Hl.
  change (overridable (record ?x (setConnected ?y ?z)) r) with (overridable z r).
  apply foldl_restored_overridable.
Qed.
End disconnected.

Lemma disconnected_idle (s : nat) (d : option Ref) (o i : option nat) (w : World) :
  (guard w d = false \/ connectedSignals w !! s = None) ->
  disconnected s d o i w = record (Call_disconnect s d o i) w.
Proof.
  unfold disconnected. intros [-> | ->]; [reflexivity|]. by destruct (guard w d).
Qed.

Lemma disconnected_last_call (s : nat) (d : option Ref) (o i : option nat) (w : World) :
  last (calls (disconnected s d o i w)) = Some (Call_disconnect s d o i).
Proof.
  unfold disconnected.
  destruct (if guard w d then _ else _); cbn [calls record]; apply last_snoc.
Qed.

Lemma after_connectSignal (s : nat) (d : Ref) (o i : option nat) (w : World) :
  after (connectSignal s d o i) w
  = if rejected w d then refused d w else connected s d o i w.
Proof.
  unfold after. rewrite connectSignal_outcome. by destruct (rejected w d).
Qed.

Lemma after_disconnectSignal (s : nat) (d : option Ref) (o i : option nat) (w : World) :
  unrestorable s d o i w = false ->
  after (disconnectSignal s d o i) w =
  if unmatched s d o i w then w else disconnected s d o i w.
Proof.
  intros Hr. unfold after. rewrite disconnectSignal_restorable by done.
  by destruct (unmatched s d o i w).
Qed.

Lemma live_connected (s : nat) (d : Ref) (o i : option nat) (w : World) (c : Connection) :
  live (connected s d o i w) c <->
  live w c \/
  (overridable w d = true /\
   c = mkConnection (nextIdent w) d (orZero o) (orZero i) (readValue w d)).
Proof.
  unfold live. rewrite connected_connectedSignals.
  destruct (overridable w d);
    [|split; [intros Hw; by left | intros [Hw|[? _]]; [done|discriminate]]].
  split.
  - intros (s' & l & Hl & Hc). destruct (decide (s' = s)) as [->|Hne].
    + rewrite lookup_insert_eq in Hl. injection Hl as <-.
      apply elem_of_app in Hc as [Hc|Hc].
      * left. destruct (connectedSignals w !! s) as [l0|] eqn:E; simpl in Hc.
        -- by exists s, l0.
        -- by apply elem_of_nil in Hc.
      * right. apply list_elem_of_singleton in Hc. done.
    + rewrite lookup_insert_ne in Hl by done. left. by exists s', l.
  - intros [(s' & l & Hl & Hc) | [_ ->]].
    + destruct (decide (s' = s)) as [->|Hne].
      * exists s, (l ++ [mkConnection (nextIdent w) d (orZero o) (orZero i) (readValue w d)]).
        rewrite lookup_insert_eq, Hl. split; [done|].
        apply elem_of_app. by left.
      * exists s', l. by rewrite lookup_insert_ne.
    + eexists s, _. rewrite lookup_insert_eq. split; [done|].
      apply elem_of_app. right. by apply list_elem_of_singleton.
Qed.

Lemma live_disconnected (s : nat) (d : option Ref) (o i : option nat) (w : World)
    (l : list Connection) (c : Connection) :
  connectedSignals w !! s = Some l -> guard w d = true ->
  live (disconnected s d o i w) c ->
  exists s' l', connectedSignals w !! s' = Some l' /\ c ∈ l' /\
                (s' = s -> includes (selected d o i l) c = false).
Proof.
  intros Hl Hg (s' & l' & Hl' & Hc).
  rewrite (disconnected_connectedSignals s d o i w l) in Hl' by done.
  destruct (decide (s' = s)) as [->|Hne].
  - rewrite lookup_insert_eq in Hl'. injection Hl' as <-.
    apply list_elem_of_filter in Hc as [Hn Hc].
    exists s, l. split; [done|]. split; [done|]. intros _.
    by destruct (includes _ c).
  - rewrite lookup_insert_ne in Hl' by done.
    exists s', l'. split; [done|]. split; [done|]. intros; done.
Qed.

Lemma tone_of_overridable (w : World) (r d : Ref) :
  overridable w r = true -> isToneParam w d = true -> addr r = addr d ->
  isToneParam w r = true.
Proof.
  unfold overridable, isToneParam, isSignal, isParam, isAudioParam.
  destruct r as [a|a], d as [b|b]; cbn [resolve addr]; intros Ho Ht <-;
    destruct (heap w !! a) as [[]|]; simpl in *; congruence.
Qed.

Lemma cleared_elim (w : World) (l : list Connection) (a : nat) :
  cleared w l a = true ->
  exists c, c ∈ l /\ isToneParam w (destination c) = true /\ a = addr (destination c).
Proof.
  unfold cleared. intros (c & Hc & Hb)%existsb_exists.
  apply andb_prop in Hb as [Ht Ha]. apply bool_decide_eq_true in Ha.
  exists c. split; [by apply list_elem_of_In|done].
Qed.

(** *** Preservation by [connectSignal] *)

Lemma distinctIdents_connected (s : nat) (d : Ref) (o i : option nat) (w : World) :
  distinctIdents w -> distinctIdents (connected s d o i w).
Proof.
  intros Hw s' l. rewrite connected_connectedSignals, connected_nextIdent.
  destruct (overridable w d).
  - destruct (decide (s' = s)) as [->|Hne].
    + rewrite lookup_insert_eq. intros [= <-].
      assert (Hold : NoDup (ident <$> default [] (connectedSignals w !! s)) /\
                     forall c, c ∈ default [] (connectedSignals w !! s) ->
                               ident c < nextIdent w).
      { destruct (connectedSignals w !! s) as [l0|] eqn:E; simpl.
        - by apply (Hw s l0).
        - split; [constructor|]. intros c Hc. by apply elem_of_nil in Hc. }
      destruct Hold as [Hnd Hlt]. split.
      * rewrite fmap_app. apply NoDup_app. split; [done|].
        split; [|apply NoDup_singleton].
        intros n Hn Hn'. apply list_elem_of_fmap in Hn as (c & -> & Hc).
        apply list_elem_of_singleton in Hn'. simpl in Hn'.
        specialize (Hlt c Hc). lia.
      * intros c [Hc|Hc]%elem_of_app.
        -- specialize (Hlt c Hc). lia.
        -- apply list_elem_of_singleton in Hc. subst c. simpl. lia.
    + rewrite lookup_insert_ne by done. intros Hl.
      destruct (Hw s' l Hl) as [Hnd Hlt]. split; [done|].
      intros c Hc. specialize (Hlt c Hc). lia.
  - apply Hw.
Qed.

Lemma markedHasRecord_connected (s : nat) (d : Ref) (o i : option nat) (w : World) :
  markedHasRecord w -> markedHasRecord (connected s d o i w).
Proof.
  intros Hw a. rewrite connected_flagAt.
  destruct (overridable w d) eqn:Ho; cbn [andb].
  - destruct (isToneParam w d) eqn:Ht; cbn [andb].
    + case_bool_decide as Ha.
      * intros _. subst a.
        exists (mkConnection (nextIdent w) d (orZero o) (orZero i) (readValue w d)).
        split; [apply live_connected; by right|].
        split; [done|]. by rewrite connected_isToneParam.
      * intros Hf. destruct (Hw a Hf) as (c & Hc & Hca & Hct).
        exists c. split; [apply live_connected; by left|].
        split; [done|]. by rewrite connected_isToneParam.
    + intros Hf. destruct (Hw a Hf) as (c & Hc & Hca & Hct).
      exists c. split; [apply live_connected; by left|].
      split; [done|]. by rewrite connected_isToneParam.
  - intros Hf. destruct (Hw a Hf) as (c & Hc & Hca & Hct).
    exists c. split; [apply live_connected; by left|].
    split; [done|]. by rewrite connected_isToneParam.
Qed.

Lemma recordsMarked_connected (s : nat) (d : Ref) (o i : option nat) (w : World) :
  recordsMarked w -> recordsMarked (connected s d o i w).
Proof.
  intros Hw c [Hc | [Ho ->]]%live_connected.
  - destruct (Hw c Hc) as [Hov Hfl]. rewrite connected_overridable.
    split; [done|]. rewrite connected_isToneParam, connected_flagAt.
    intros Ht. destruct (_ && _ && _); [done|by apply Hfl].
  - cbn [destination]. rewrite connected_overridable.
    split; [done|]. rewrite connected_isToneParam, connected_flagAt.
    intros Ht. by rewrite Ho, Ht, bool_decide_eq_true_2.
Qed.

Lemma oneRecordEach_connected (s : nat) (d : Ref) (o i : option nat) (w : World) :
  (forall c, live w c -> addr (destination c) <> addr d) ->
  oneRecordEach w -> oneRecordEach (connected s d o i w).
Proof.
  intros Hex Hw s1 l1 c1 s2 l2 c2 Hl1 Hc1 Hl2 Hc2 Ha.
  rewrite connected_connectedSignals in Hl1, Hl2.
  destruct (overridable w d) eqn:Ho; [|by eapply Hw].
  set (cn := mkConnection (nextIdent w) d (orZero o) (orZero i) (readValue w d)) in *.
  assert (Hcase : forall s' l' c',
    <[s := default [] (connectedSignals w !! s) ++ [cn]]> (connectedSignals w) !! s'
      = Some l' -> c' ∈ l' ->
    (exists l0, connectedSignals w !! s' = Some l0 /\ c' ∈ l0) \/ (s' = s /\ c' = cn)).
  { intros s' l' c' Hl' Hc'. destruct (decide (s' = s)) as [->|Hne].
    - rewrite lookup_insert_eq in Hl'. injection Hl' as <-.
      apply elem_of_app in Hc' as [Hc'|Hc'].
      + left. destruct (connectedSignals w !! s) as [l0|]; simpl in Hc'.
        * by exists l0.
        * by apply elem_of_nil in Hc'.
      + right. apply list_elem_of_singleton in Hc'. done.
    - rewrite lookup_insert_ne in Hl' by done. left. by exists l'. }
  destruct (Hcase s1 l1 c1 Hl1 Hc1) as [(k1 & Hk1 & Hin1) | [-> ->]],
           (Hcase s2 l2 c2 Hl2 Hc2) as [(k2 & Hk2 & Hin2) | [-> ->]].
  - by eapply Hw.
  - exfalso. eapply (Hex c1); [by exists s1, k1|]. exact Ha.
  - exfalso. eapply (Hex c2); [by exists s2, k2|]. by symmetry.
  - done.
Qed.

(** The value that [connectSignal] keeps in a record is one that the
    destination accepts: the range contains [0], or the connect would have
    been refused, and the value read is clamped to the range. *)
Lemma accepts_readValue (w : World) (d : Ref) :
  accepts w d 0 = true -> accepts w d (readValue w d) = true.
Proof.
  intros Hz. destruct (paramOf w d) as [p|] eqn:Hp.
  - apply (accepts_within w d p _ Hp). rewrite (readValue_paramOf w d p Hp).
    apply (ParamFacts.get_value_within p 0). by apply (accepts_within w d p 0 Hp).
  - unfold accepts. by rewrite Hp.
Qed.

Lemma recordsRestorable_connected (s : nat) (d : Ref) (o i : option nat) (w : World) :
  rejected w d = false ->
  recordsRestorable w -> recordsRestorable (connected s d o i w).
Proof.
  intros Hr Hw c [Hc | [Ho ->]]%live_connected; rewrite connected_accepts.
  - by apply Hw.
  - cbn [destination previousValue]. apply accepts_readValue.
    unfold rejected in Hr. rewrite Ho in Hr. cbn [andb] in Hr.
    by apply negb_false_iff in Hr.
Qed.

(** *** Preservation by [disconnectSignal] *)

Lemma disconnected_cases (s : nat) (d : option Ref) (o i : option nat) (w : World) :
  (disconnected s d o i w = record (Call_disconnect s d o i) w) \/
  (exists l, connectedSignals w !! s = Some l /\ guard w d = true).
Proof.
  destruct (guard w d) eqn:Hg.
  - destruct (connectedSignals w !! s) as [l|] eqn:Hl.
    + right. by exists l.
    + left. apply disconnected_idle. by right.
  - left. apply disconnected_idle. by left.
Qed.

Lemma disconnected_nextIdent (s : nat) (d : option Ref) (o i : option nat) (w : World) :
  nextIdent (disconnected s d o i w) = nextIdent w.
Proof.
  unfold disconnected. destruct (if guard w d then _ else _); [|reflexivity].
  cbn [nextIdent record setConnected]. apply foldl_restored_nextIdent.
Qed.

Lemma distinctIdents_disconnected (s : nat) (d : option Ref) (o i : option nat)
    (w : World) :
  distinctIdents w -> distinctIdents (disconnected s d o i w).
Proof.
  intros Hw. destruct (disconnected_cases s d o i w) as [-> | (l & Hl & Hg)];
    [exact Hw|].
  intros s' l'. rewrite disconnected_nextIdent.
  rewrite (disconnected_connectedSignals s d o i w l) by done.
  destruct (decide (s' = s)) as [->|Hne].
  - rewrite lookup_insert_eq. intros [= <-].
    destruct (Hw s l Hl) as [Hnd Hlt]. split.
    + eapply sublist_NoDup; [exact Hnd|]. by apply fmap_sublist, sublist_filter.
    + intros c [_ Hc]%list_elem_of_filter. by apply Hlt.
  - rewrite lookup_insert_ne by done. apply Hw.
Qed.

Lemma markedHasRecord_disconnected (s : nat) (d : option Ref) (o i : option nat)
    (w : World) :
  distinctIdents w -> markedHasRecord w -> markedHasRecord (disconnected s d o i w).
Proof.
  intros Hid Hw. destruct (disconnected_cases s d o i w) as [-> | (l & Hl & Hg)];
    [exact Hw|].
  intros a. rewrite (disconnected_flagAt s d o i w l) by done.
  destruct (cleared w (selected d o i l) a) eqn:Hcl; [discriminate|].
  intros Hf. destruct (Hw a Hf) as (c & (s' & l' & Hl' & Hc) & Hca & Hct).
  exists c. split; [|split; [done|by rewrite (disconnected_isToneParam s d o i w l)]].
  unfold live. rewrite (disconnected_connectedSignals s d o i w l) by done.
  destruct (decide (s' = s)) as [->|Hne].
  - exists s, (filter (fun conn => negb (includes (selected d o i l) conn)) l).
    rewrite lookup_insert_eq. split; [done|].
    assert (l' = l) as -> by congruence.
    apply list_elem_of_filter. split; [|done].
    destruct (includes (selected d o i l) c) eqn:Hinc; [|done].
    exfalso. apply includes_true in Hinc as (c' & Hc' & He).
    assert (c' = c) as ->.
    { eapply NoDup_ident_inj; [apply (Hid s l Hl)| |done|done].
      by eapply selected_subseteq. }
    subst a. rewrite cleared_true in Hcl by done. discriminate.
  - exists s', l'. by rewrite lookup_insert_ne.
Qed.

Lemma recordsMarked_disconnected (s : nat) (d : option Ref) (o i : option nat)
    (w : World) :
  oneRecordEach w -> recordsMarked w -> recordsMarked (disconnected s d o i w).
Proof.
  intros Hone Hw. destruct (disconnected_cases s d o i w) as [-> | (l & Hl & Hg)];
    [exact Hw|].
  intros c Hc.
  destruct (live_disconnected s d o i w l c Hl Hg Hc) as (s' & l' & Hl' & Hc' & Hinc).
  destruct (Hw c) as [Hov Hfl]; [by exists s', l'|].
  rewrite (disconnected_overridable s d o i w l) by done. split; [done|].
  rewrite (disconnected_isToneParam s d o i w l) by done. intros Ht.
  rewrite (disconnected_flagAt s d o i w l) by done.
  destruct (cleared w (selected d o i l) (addr (destination c))) eqn:Hcl;
    [|by apply Hfl].
  exfalso. apply cleared_elim in Hcl as (c0 & Hc0 & _ & Ha).
  destruct (Hone s' l' c s l c0) as [-> He]; try done.
  { by eapply selected_subseteq. }
  assert (includes (selected d o i l) c = true) as Hyes.
  { apply includes_true. by exists c0. }
  rewrite Hinc in Hyes by done. discriminate.
Qed.

Lemma oneRecordEach_disconnected (s : nat) (d : option Ref) (o i : option nat)
    (w : World) :
  oneRecordEach w -> oneRecordEach (disconnected s d o i w).
Proof.
  intros Hw. destruct (disconnected_cases s d o i w) as [-> | (l & Hl & Hg)];
    [exact Hw|].
  assert (Hsub : forall s' l' c',
    connectedSignals (disconnected s d o i w) !! s' = Some l' -> c' ∈ l' ->
    exists l0, connectedSignals w !! s' = Some l0 /\ c' ∈ l0).
  { intros s' l' c'.
    rewrite (disconnected_connectedSignals s d o i w l) by done.
    destruct (decide (s' = s)) as [->|Hne].
    - rewrite lookup_insert_eq. intros [= <-] [_ Hc]%list_elem_of_filter.
      by exists l.
    - rewrite lookup_insert_ne by done. intros Hl' Hc. by exists l'. }
  intros s1 l1 c1 s2 l2 c2 Hl1 Hc1 Hl2 Hc2 Ha.
  destruct (Hsub s1 l1 c1 Hl1 Hc1) as (k1 & Hk1 & Hin1).
  destruct (Hsub s2 l2 c2 Hl2 Hc2) as (k2 & Hk2 & Hin2).
  by eapply Hw.
Qed.

Lemma disconnected_accepts (s : nat) (d : option Ref) (o i : option nat) (w : World)
    (r : Ref) (v : R) :
  accepts (disconnected s d o i w) r v = accepts w r v.
Proof.
  unfold disconnected. destruct (if guard w d then _ else _) as [l|]; [|reflexivity].
  change (accepts (record ?x (setConnected ?y ?z)) r v) with (accepts z r v).
  generalize (selected d o i l). intros sel. revert w.
  induction sel as [|c sel IH]; intros w; [reflexivity|].
  cbn [foldl]. by rewrite IH, restored_accepts.
Qed.

Lemma recordsRestorable_disconnected (s : nat) (d : option Ref) (o i : option nat)
    (w : World) :
  recordsRestorable w -> recordsRestorable (disconnected s d o i w).
Proof.
  intros Hw. destruct (disconnected_cases s d o i w) as [-> | (l & Hl & Hg)];
    [exact Hw|].
  intros c Hc. rewrite disconnected_accepts.
  destruct (live_disconnected s d o i w l c Hl Hg Hc) as (s' & l' & Hl' & Hc' & _).
  apply Hw. by exists s', l'.
Qed.

(** *** Preservation by a refused connect *)

Section refused_invariants.
Variables (d : Ref) (w : World).

Lemma distinctIdents_refused : distinctIdents w -> distinctIdents (refused d w).
Proof.
  intros Hw s l. rewrite refused_connectedSignals, refused_nextIdent. apply Hw.
Qed.

Lemma markedHasRecord_refused : markedHasRecord w -> markedHasRecord (refused d w).
Proof.
  intros Hw a. rewrite refused_flagAt. intros Hf.
  destruct (Hw a Hf) as (c & Hc & Ha & Ht). exists c.
  split; [by apply refused_live|]. split; [done|]. by rewrite refused_isToneParam.
Qed.

Lemma recordsMarked_refused : recordsMarked w -> recordsMarked (refused d w).
Proof.
  intros Hw c Hc%refused_live. destruct (Hw c Hc) as [Ho Hf].
  rewrite refused_overridable, refused_isToneParam, refused_flagAt. done.
Qed.

Lemma oneRecordEach_refused : oneRecordEach w -> oneRecordEach (refused d w).
Proof.
  intros Hw s l c s' l' c'. rewrite refused_connectedSignals. apply Hw.
Qed.

Lemma recordsRestorable_refused : recordsRestorable w -> recordsRestorable (refused d w).
Proof. intros Hw c Hc%refused_live. rewrite refused_accepts. by apply Hw. Qed.
End refused_invariants.

(** *** Over a sequence of operations *)

Lemma step_cases (op : Op) (w : World) :
  recordsRestorable w ->
  after (perform op) w = w \/
  (exists s d o i, op = Connect s d o i /\ rejected w d = false /\
                   after (perform op) w = connected s d o i w) \/
  (exists s d o i, op = Disconnect s d o i /\
                   after (perform op) w = disconnected s d o i w) \/
  (exists s d o i, op = Connect s d o i /\ after (perform op) w = refused d w).
Proof.
  intros Hw. destruct op as [s d o i|s d o i]; simpl.
  - rewrite after_connectSignal. destruct (rejected w d) eqn:Hr.
    + right. right. right. by exists s, d, o, i.
    + right. left. by exists s, d, o, i.
  - rewrite after_disconnectSignal by (by apply unrestorable_recordsRestorable).
    destruct (unmatched s d o i w); [by left|].
    right. right. left. by exists s, d, o, i.
Qed.

Lemma step_restorable (op : Op) (w : World) :
  recordsRestorable w -> recordsRestorable (after (perform op) w).
Proof.
  intros Hw.
  destruct (step_cases op w Hw)
    as [-> | [(s & d & o & i & _ & Hr & ->) | [(s & d & o & i & _ & ->)
                                              | (s & d & o & i & _ & ->)]]].
  - done.
  - by apply recordsRestorable_connected.
  - by apply recordsRestorable_disconnected.
  - by apply recordsRestorable_refused.
Qed.

Lemma run_restorable (ops : list Op) (w : World) :
  recordsRestorable w -> recordsRestorable (run ops w).
Proof.
  revert w. induction ops as [|op ops IH]; intros w Hw; [done|].
  cbn [run foldl]. apply IH. by apply step_restorable.
Qed.

Lemma run_marked (ops : list Op) (w : World) :
  recordsRestorable w -> distinctIdents w -> markedHasRecord w ->
  distinctIdents (run ops w) /\ markedHasRecord (run ops w).
Proof.
  revert w. induction ops as [|op ops IH]; intros w Hr Hid Hm; [done|].
  cbn [run foldl]. apply IH; [by apply step_restorable| |].
  - destruct (step_cases op w Hr)
      as [-> | [(s & d & o & i & _ & _ & ->) | [(s & d & o & i & _ & ->)
                                               | (s & d & o & i & _ & ->)]]].
    + done.
    + by apply distinctIdents_connected.
    + by apply distinctIdents_disconnected.
    + by apply distinctIdents_refused.
  - destruct (step_cases op w Hr)
      as [-> | [(s & d & o & i & _ & _ & ->) | [(s & d & o & i & _ & ->)
                                               | (s & d & o & i & _ & ->)]]].
    + done.
    + by apply markedHasRecord_connected.
    + by apply markedHasRecord_disconnected.
    + by apply markedHasRecord_refused.
Qed.

Lemma run_exclusive (ops : list Op) (w : World) :
  recordsRestorable w ->
  exclusive ops w -> oneRecordEach w -> recordsMarked w ->
  oneRecordEach (run ops w) /\ recordsMarked (run ops w).
Proof.
  revert w. induction ops as [|op ops IH]; intros w Hr Hex Hone Hrec; [done|].
  cbn [run foldl]. destruct Hex as [Hop Hex].
  pose proof (step_restorable op w Hr) as Hr'.
  destruct (step_cases op w Hr)
    as [E | [(s & d & o & i & -> & _ & E) | [(s & d & o & i & -> & E)
                                            | (s & d & o & i & -> & E)]]].
  - apply IH; by rewrite E in *.
  - rewrite E in *. apply IH; [done|done| |].
    + by apply oneRecordEach_connected.
    + by apply recordsMarked_connected.
  - rewrite E in *. apply IH; [done|done| |].
    + by apply oneRecordEach_disconnected.
    + by apply recordsMarked_disconnected.
  - rewrite E in *. apply IH; [done|done| |].
    + by apply oneRecordEach_refused.
    + by apply recordsMarked_refused.
Qed.

Lemma initial_invariants (w : World) :
  initial w ->
  distinctIdents w /\ markedHasRecord w /\ oneRecordEach w /\ recordsMarked w /\
  recordsRestorable w.
Proof.
  intros [Hc Hf]. split; [|split; [|split; [|split]]].
  - intros s l Hl. by rewrite Hc, lookup_empty in Hl.
  - intros a Ha. by rewrite Hf in Ha.
  - intros s l c s' l' c' Hl. by rewrite Hc, lookup_empty in Hl.
  - intros c (s & l & Hl & _). by rewrite Hc, lookup_empty in Hl.
  - intros c (s & l & Hl & _). by rewrite Hc, lookup_empty in Hl.
Qed.

(** C2 (amended).  Given a destination, [disconnectSignal] throws the
    not-connected error exactly when the destination is overridable, the
    source has an array of records and none of them matches; whenever it
    throws that error nothing has been changed and the graph is left as it
    was; whenever it returns it has ended with the graph disconnection,
    and that is all it does for a destination that is not overridable or a
    source without an array of records.  When the destination is
    overridable or omitted and at least one record is selected (the
    matching ones, or all of them when the destination is omitted), each
    holding a value that its destination accepts, it returns, having for
    each selected record, in order, cleared [overridden] on a [Param] or
    [Signal] destination and called [setValueAtTime(previousValue, 0)] on
    it, and having removed the selected records and no other.  The only
    other error is the RangeError of a restoring call, for a selected
    record whose value its destination does not accept; no record that
    [connectSignal] has made is such a record, and none becomes one. *)
Theorem disconnectSignal_restores (w : World) (s : nat) (d : option Ref)
    (o i : option nat) (l : list Connection) :
  connectedSignals w !! s = Some l ->
  NoDup (ident <$> l) ->
  guard w d = true ->
  selected d o i l <> [] ->
  restorable w (selected d o i l) = true ->
  (exists w',
     disconnectSignal s d o i w = Returns tt w' /\
     calls w' = calls w ++ flat_map (restoreCalls w) (selected d o i l)
                        ++ [Call_disconnect s d o i] /\
     (forall c, c ∈ selected d o i l -> isToneParam w (destination c) = true ->
                readOverridden w' (destination c) = Some false) /\
     connectedSignals w' !! s
     = Some (match d with
             | Some d' => filter (fun conn => ¬ matches d' o i conn) l
             | None => []
             end) /\
     (forall s', s' <> s -> connectedSignals w' !! s' = connectedSignals w !! s')) /\
  (forall (w0 : World) (s0 : nat) (d0 : Ref) (o0 i0 : option nat),
     (exists w0', disconnectSignal s0 (Some d0) o0 i0 w0 = Throws NotConnected w0') <->
     (overridable w0 d0 = true /\
      exists l0, connectedSignals w0 !! s0 = Some l0 /\
                 filter (fun conn => matches d0 o0 i0 conn) l0 = [])) /\
  (forall (w0 : World) (s0 : nat) (d0 : option Ref) (o0 i0 : option nat) w0',
     disconnectSignal s0 d0 o0 i0 w0 = Throws NotConnected w0' -> w0' = w0) /\
  (forall (w0 : World) (s0 : nat) (d0 : option Ref) (o0 i0 : option nat) w0',
     disconnectSignal s0 d0 o0 i0 w0 = Returns tt w0' ->
     last (calls w0') = Some (Call_disconnect s0 d0 o0 i0)) /\
  (forall (w0 : World) (s0 : nat) (d0 : option Ref) (o0 i0 : option nat),
     guard w0 d0 = false \/ connectedSignals w0 !! s0 = None ->
     disconnectSignal s0 d0 o0 i0 w0
     = Returns tt (record (Call_disconnect s0 d0 o0 i0) w0)) /\
  (forall (w0 : World) (s0 : nat) (d0 : option Ref) (o0 i0 : option nat) w0',
     disconnectSignal s0 d0 o0 i0 w0 = Throws RangeError w0' ->
     exists l0 c,
       connectedSignals w0 !! s0 = Some l0 /\ c ∈ selected d0 o0 i0 l0 /\
       accepts w0 (destination c) (previousValue c) = false) /\
  (forall (w0 : World) (op : Op),
     recordsRestorable w0 -> recordsRestorable (after (perform op) w0)).
Proof.
  intros Hl Hnd Hg Hsel Hres.
  assert (Hun : unrestorable s d o i w = false).
  { unfold unrestorable. by rewrite Hg, Hl, Hres. }
  split; [|split; [|split; [|split; [|split; [|split]]]]].
  - exists (disconnected s d o i w).
    split.
    { rewrite disconnectSignal_restorable by done. unfold unmatched.
      by rewrite Hg, Hl, bool_decide_eq_false_2. }
    split; [by apply disconnected_calls|].
    split.
    { intros c Hc Ht.
      rewrite readOverridden_flagAt
        by (by rewrite (disconnected_isToneParam s d o i w l)).
      rewrite (disconnected_flagAt s d o i w l) by done.
      by rewrite cleared_true. }
    split.
    { rewrite (disconnected_connectedSignals s d o i w l) by done.
      rewrite lookup_insert_eq. f_equal. by apply remove_selected. }
    intros s' Hs'.
    rewrite (disconnected_connectedSignals s d o i w l) by done.
    by rewrite lookup_insert_ne.
  - intros w0 s0 d0 o0 i0. split.
    + intros [w0' Hthrow]. rewrite disconnectSignal_outcome in Hthrow.
      destruct (unmatched s0 (Some d0) o0 i0 w0) eqn:Hu.
      2:{ destruct (unrestorable s0 (Some d0) o0 i0 w0); discriminate. }
      unfold unmatched, guard in Hu.
      destruct (overridable w0 d0); [|discriminate]. split; [done|].
      destruct (connectedSignals w0 !! s0) as [l0|]; [|discriminate].
      exists l0. split; [done|]. simpl in Hu. by case_bool_decide.
    + intros [Ho (l0 & Hl0 & Hm)]. exists w0.
      rewrite disconnectSignal_outcome. unfold unmatched, guard.
      rewrite Ho, Hl0. simpl. by rewrite bool_decide_eq_true_2.
  - intros w0 s0 d0 o0 i0 w0' H. rewrite disconnectSignal_outcome in H.
    destruct (unmatched s0 d0 o0 i0 w0); [congruence|].
    destruct (unrestorable s0 d0 o0 i0 w0); discriminate.
  - intros w0 s0 d0 o0 i0 w0' H. rewrite disconnectSignal_outcome in H.
    destruct (unmatched s0 d0 o0 i0 w0); [discriminate|].
    destruct (unrestorable s0 d0 o0 i0 w0); [discriminate|].
    injection H as <-. apply disconnected_last_call.
  - intros w0 s0 d0 o0 i0 Hidle. rewrite disconnectSignal_outcome.
    rewrite (disconnected_idle s0 d0 o0 i0 w0 Hidle).
    unfold unmatched, unrestorable.
    destruct Hidle as [-> | ->]; [reflexivity|].
    rewrite andb_false_r. by destruct (guard w0 d0).
  - intros w0 s0 d0 o0 i0 w0' H. rewrite disconnectSignal_outcome in H.
    destruct (unmatched s0 d0 o0 i0 w0); [discriminate|].
    destruct (unrestorable s0 d0 o0 i0 w0) eqn:Hu; [|discriminate].
    unfold unrestorable in Hu. destruct (guard w0 d0); [|discriminate].
    destruct (connectedSignals w0 !! s0) as [l0|]; [|discriminate].
    apply negb_true_iff in Hu. exists l0.
    destruct (restorable_false w0 _ Hu) as (c & Hc & Ha).
    by exists c.
  - intros w0 op. apply step_restorable.
Qed.

(** C3 (amended).  In every state reached from an initial one by
    [connectSignal] and [disconnectSignal] operations, a destination whose
    [overridden] flag is true is the target of a live record; and when every
    connect of the sequence was made to a destination that no live record
    targeted at that time, the flag of a [Param] or [Signal] destination is
    true exactly when a live record targets it.  A record targets a
    destination when its destination is that object or shares its
    parameter, as a [Signal] and its [input] do. *)
Theorem overridden_iff_live_record (w0 : World) (ops : list Op) :
  initial w0 ->
  (forall d, readOverridden (run ops w0) d = Some true ->
             exists c, live (run ops w0) c /\ addr (destination c) = addr d) /\
  (exclusive ops w0 ->
   forall d, isToneParam (run ops w0) d = true ->
             (readOverridden (run ops w0) d = Some true <->
              exists c, live (run ops w0) c /\ addr (destination c) = addr d)).
Proof.
  intros Hinit.
  destruct (initial_invariants w0 Hinit) as (Hid & Hm & Hone & Hrec & Hres).
  destruct (run_marked ops w0 Hres Hid Hm) as [_ Hm'].
  assert (Hfwd : forall d, readOverridden (run ops w0) d = Some true ->
             exists c, live (run ops w0) c /\ addr (destination c) = addr d).
  { intros d [_ Hf]%readOverridden_Some.
    destruct (Hm' _ Hf) as (c & Hc & Ha & _). by exists c. }
  split; [exact Hfwd|].
  intros Hex d Ht. split; [apply Hfwd|].
  intros (c & Hc & Ha).
  destruct (run_exclusive ops w0 Hres Hex Hone Hrec) as [_ Hrec'].
  destruct (Hrec' c Hc) as [Hov Hfl].
  rewrite readOverridden_flagAt by done. f_equal.
  rewrite <- Ha. apply Hfl. by eapply tone_of_overridable.
Qed.

Lemma cleared_true_at (w : World) (l : list Connection) (d : Ref) :
  (exists c, c ∈ l /\ destination c = d) -> isToneParam w d = true ->
  cleared w l (addr d) = true.
Proof.
  intros (c & Hc & <-) Ht. by apply cleared_true.
Qed.

Lemma foldl_restored_paramOf (l : list Connection) (w : World) (d : Ref) (p : Param.t) :
  (forall c, c ∈ l -> destination c = d) ->
  paramOf w d = Some p ->
  paramOf (foldl restored w l) d = Some (restoredParam p l).
Proof.
  revert w p. induction l as [|c l IH]; intros w p Hall Hp; [done|].
  cbn [foldl restoredParam]. apply IH.
  - intros c' Hc'. apply Hall. by right.
  - rewrite restored_paramOf. rewrite (Hall c) by left.
    rewrite decide_True by done. by rewrite Hp.
Qed.

Lemma restoredParam_settled (p : Param.t) (l : list Connection) :
  settled p -> settled (restoredParam p l) /\ sameBounds p (restoredParam p l).
Proof.
  revert p. induction l as [|c l IH]; intros p Hp; [done|].
  cbn [restoredParam foldl].
  destruct (IH (Param.withSetValue (previousValue c) 0 (Param.setOverridden false p)))
    as [Hs Hb].
  - by apply ParamFacts.settled_withSetValue, ParamFacts.settled_setOverridden.
  - split; [exact Hs|]. exact Hb.
Qed.

Lemma connected_rejected (s : nat) (d : Ref) (o i : option nat) (w : World) (r : Ref) :
  rejected (connected s d o i w) r = rejected w r.
Proof. unfold rejected. by rewrite connected_overridable, connected_accepts. Qed.

(** C9 (amended).  When a source is connected twice to the same [Param],
    or [Signal] with [override] set, whose range contains [0], without a
    disconnect in between, the first record holds the value that the
    schedule of the destination gave at the current time and the second
    record holds the value read after the first connect, which is [0]; a
    disconnect that matches on the destination then removes both records
    and leaves the destination at [0], whatever its value was before the
    first connect.  (The records held before are records that can be
    restored, as those that [connectSignal] makes are.) *)
Theorem reconnect_restores_zero (w : World) (s : nat) (d : Ref)
    (o1 i1 o2 i2 : option nat) (p : Param.t) :
  paramOf w d = Some p ->
  overridable w d = true ->
  within p 0 ->
  (0 <= now w)%R ->
  recordsRestorable w ->
  exists w1 w2 w3 c1 c2,
    connectSignal s d o1 i1 w = Returns tt w1 /\
    connectSignal s d o2 i2 w1 = Returns tt w2 /\
    connectedSignals w2 !! s
    = Some (default [] (connectedSignals w !! s) ++ [c1; c2]) /\
    destination c1 = d /\ previousValue c1 = Param.getValueAtTime p (now w) /\
    destination c2 = d /\ previousValue c2 = 0%R /\
    disconnectSignal s (Some d) None None w2 = Returns tt w3 /\
    (forall l3 c, connectedSignals w3 !! s = Some l3 -> c ∈ l3 -> destination c <> d) /\
    readValue w3 d = 0%R /\
    readOverridden w3 d = Some false.
Proof.
  intros Hp Ho Hz Hnow Hres. pose proof Hz as [Hlo Hhi].
  pose proof (paramOf_isToneParam w d p Hp) as Ht.
  set (w1 := connected s d o1 i1 w).
  set (w2 := connected s d o2 i2 w1).
  set (c1 := mkConnection (nextIdent w) d (orZero o1) (orZero i1) (readValue w d)).
  set (c2 := mkConnection (nextIdent w1) d (orZero o2) (orZero i2) (readValue w1 d)).
  set (p1 := Param.setOverridden true
               (Param.withSetValue 0 0 (Param.cancelScheduledValues 0 p))).
  set (p2 := Param.setOverridden true
               (Param.withSetValue 0 0 (Param.cancelScheduledValues 0 p1))).
  assert (Hp1 : paramOf w1 d = Some p1).
  { unfold w1. rewrite connected_paramOf, Ho, bool_decide_eq_true_2 by done.
    cbn [andb]. by rewrite Hp, Ht. }
  assert (Ho1 : overridable w1 d = true)
    by (unfold w1; by rewrite connected_overridable).
  assert (Ht1 : isToneParam w1 d = true)
    by (unfold w1; by rewrite connected_isToneParam).
  assert (Hp2 : paramOf w2 d = Some p2).
  { unfold w2. rewrite connected_paramOf, Ho1, bool_decide_eq_true_2 by done.
    cbn [andb]. by rewrite Hp1, Ht1. }
  assert (Ho2 : overridable w2 d = true)
    by (unfold w2; by rewrite connected_overridable).
  assert (Ht2 : isToneParam w2 d = true)
    by (unfold w2; by rewrite connected_isToneParam).
  assert (Hnow1 : now w1 = now w) by apply connected_now.
  assert (Hnow2 : now w2 = now w)
    by (unfold w2; by rewrite connected_now).
  assert (Hv1 : readValue w1 d = 0%R).
  { rewrite (readValue_paramOf w1 d p1 Hp1), Hnow1. unfold p1.
    change (Param.get_value (now w) (Param.setOverridden true ?x))
      with (Param.get_value (now w) x).
    rewrite ParamFacts.settled_get_value by (done || apply ParamFacts.settled_cancelScheduledValues).
    by apply ParamFacts.clamp_id. }
  assert (Hl1 : connectedSignals w1 !! s
                = Some (default [] (connectedSignals w !! s) ++ [c1])).
  { unfold w1. by rewrite connected_connectedSignals, Ho, lookup_insert_eq. }
  assert (Hl2 : connectedSignals w2 !! s
                = Some (default [] (connectedSignals w !! s) ++ [c1; c2])).
  { unfold w2. rewrite connected_connectedSignals, Ho1, lookup_insert_eq, Hl1.
    cbn [from_option Datatypes.id]. by rewrite <- app_assoc. }
  set (l2 := default [] (connectedSignals w !! s) ++ [c1; c2]) in *.
  set (sel := selected (Some d) None None l2).
  assert (Hsel : exists sel0, sel = sel0 ++ [c1; c2]).
  { unfold sel, l2. cbn [selected]. rewrite filter_app.
    eexists. f_equal.
    rewrite filter_cons_True.
    2:{ unfold matches. cbn [destination c1]. by rewrite bool_decide_eq_true_2. }
    rewrite filter_cons_True.
    2:{ unfold matches. cbn [destination c2]. by rewrite bool_decide_eq_true_2. }
    reflexivity. }
  destruct Hsel as [sel0 Hsel].
  assert (Hdest : forall c, c ∈ sel -> destination c = d).
  { intros c [Hm _]%list_elem_of_filter. unfold matches in Hm.
    apply andb_prop_elim in Hm as [Hm _]. apply andb_prop_elim in Hm as [Hm _].
    by apply bool_decide_unpack in Hm. }
  set (w3 := disconnected s (Some d) None None w2).
  assert (Hp3 : paramOf w3 d = Some (restoredParam p2 sel)).
  { unfold w3, disconnected. cbn [guard]. rewrite Ho2, Hl2.
    change (paramOf (record ?x (setConnected ?y ?z)) d) with (paramOf z d).
    by apply foldl_restored_paramOf. }
  assert (Hs2 : settled p2).
  { apply ParamFacts.settled_setOverridden, ParamFacts.settled_withSetValue,
      ParamFacts.settled_cancelScheduledValues. }
  assert (Hr0 : rejected w d = false) by (by apply (rejected_within w d p)).
  assert (Hr1 : rejected w1 d = false)
    by (unfold w1; by rewrite connected_rejected).
  assert (Hres2 : recordsRestorable w2).
  { unfold w2. apply recordsRestorable_connected; [done|].
    unfold w1. by apply recordsRestorable_connected. }
  exists w1, w2, w3, c1, c2.
  split; [by apply connectSignal_connected|].
  split; [by apply connectSignal_connected|].
  split; [exact Hl2|].
  split; [done|]. split; [apply (readValue_paramOf w d p Hp)|].
  split; [done|]. split; [exact Hv1|].
  split.
  { rewrite disconnectSignal_restorable
      by (by apply unrestorable_recordsRestorable).
    unfold unmatched. cbn [guard].
    rewrite Ho2, Hl2. fold sel. rewrite Hsel.
    rewrite bool_decide_eq_false_2; [done|].
    intros Habs. by apply app_eq_nil in Habs as [_ ?]. }
  split.
  { intros l3 c. unfold w3.
    rewrite (disconnected_connectedSignals s (Some d) None None w2 l2) by done.
    rewrite lookup_insert_eq. intros [= <-] [Hinc Hc]%list_elem_of_filter Hd.
    assert (Hin : c ∈ sel).
    { apply list_elem_of_filter. split; [|done].
      unfold matches. by rewrite Hd, bool_decide_eq_true_2. }
    assert (Hyes : includes sel c = true) by (apply includes_true; eauto).
    unfold sel in Hyes. cbn [selected] in Hyes. rewrite Hyes in Hinc. exact Hinc. }
  split.
  - rewrite (readValue_paramOf w3 d _ Hp3).
    assert (Hnow3 : now w3 = now w).
    { unfold w3, disconnected. cbn [guard]. rewrite Ho2, Hl2.
      cbn [now record setConnected]. by rewrite foldl_restored_now. }
    rewrite Hnow3, Hsel. unfold restoredParam.
    rewrite foldl_app. cbn [foldl previousValue c2].
    rewrite Hv1. fold (restoredParam p2 sel0).
    destruct (restoredParam_settled p2 sel0 Hs2) as [Hs3 [Hmin Hmax]].
    rewrite ParamFacts.settled_get_value
      by (done || by apply ParamFacts.settled_setOverridden, ParamFacts.settled_withSetValue,
                      ParamFacts.settled_setOverridden).
    cbn [Param.minValue Param.maxValue Param.setOverridden Param.withSetValue
         Param.withEvents].
    rewrite Hmin, Hmax. by apply ParamFacts.clamp_id.
  - rewrite readOverridden_flagAt
      by (unfold w3; by rewrite (disconnected_isToneParam _ _ _ _ _ l2)).
    unfold w3. rewrite (disconnected_flagAt _ _ _ _ _ l2) by done.
    fold sel. rewrite cleared_true_at; [done| |done].
    exists c2. split; [|done]. rewrite Hsel. apply elem_of_app. right. right. left.
Qed.

(** C10 (amended).  A [Signal] made by the constructor has [override] set
    and [start(0)] has been called on its constant source.  The native
    source node is made at once, and started at [0], when the context is
    not suspended; in a suspended context there is none yet: it is made
    when the context comes to run, and started at [0] then.  The [Signal]
    reads the value it was given, clamped.  When it is the destination of
    [connectSignal] from any source, whatever has been scheduled on its
    parameter since, it undergoes the override sequence if its range
    contains [0]: its value is read, [cancelScheduledValues(0)] and
    [setValueAtTime(0, 0)] are called, [overridden] is set, and the graph
    is wired.  If its range does not contain [0], the zeroing call raises
    a RangeError: [overridden] is left as it was and the graph is not
    wired. *)
Theorem new_Signal_is_overridden (isSuspended : bool) (value : R) (lo hi : option R)
    (f : Param.t -> Param.t) (w : World) (a src : nat) (o i : option nat) :
  heap w !! a
  = Some (OSignal (withParam f (Signal_constructor isSuspended value lo hi))) ->
  override (Signal_constructor isSuspended value lo hi) = true /\
  _startTime (_constantSource (Signal_constructor isSuspended value lo hi))
  = Some 0%R /\
  _source (_constantSource (Signal_constructor isSuspended value lo hi))
  = (if isSuspended then None else Some (Some 0%R)) /\
  _source (ToneConstantSource_contextStarted true true
             (_constantSource (Signal_constructor isSuspended value lo hi)))
  = Some (Some 0%R) /\
  (forall now, Signal_get_value now (Signal_constructor isSuspended value lo hi)
               = Param.clamp lo hi value) /\
  (within (f (Param.create value lo hi)) 0 ->
   exists w',
     connectSignal src (Direct a) o i w = Returns tt w' /\
     calls w' = calls w ++ [Call_value (Direct a);
                            Call_cancelScheduledValues (Direct a) 0;
                            Call_setValueAtTime (Direct a) 0 0;
                            Call_set_overridden (Direct a) true;
                            Call_connect src (Direct a) o i] /\
     readOverridden w' (Direct a) = Some true) /\
  (~ within (f (Param.create value lo hi)) 0 ->
   exists w',
     connectSignal src (Direct a) o i w = Throws RangeError w' /\
     calls w' = calls w ++ [Call_value (Direct a);
                            Call_cancelScheduledValues (Direct a) 0;
                            Call_setValueAtTime (Direct a) 0 0] /\
     readOverridden w' (Direct a) = readOverridden w (Direct a)).
Proof.
  intros Ha.
  assert (Ho : overridable w (Direct a) = true).
  { unfold overridable, isParam, isAudioParam. cbn [resolve]. by rewrite Ha. }
  assert (Ht : isToneParam w (Direct a) = true).
  { unfold isToneParam, isSignal. cbn [resolve]. by rewrite Ha. }
  assert (Hp : paramOf w (Direct a) = Some (f (Param.create value lo hi))).
  { unfold paramOf. cbn [resolve]. by rewrite Ha. }
  split; [reflexivity|]. split; [reflexivity|].
  split; [by destruct isSuspended|]. split; [reflexivity|]. split; [reflexivity|].
  split.
  - intros Hz. exists (connected src (Direct a) o i w).
    split; [apply connectSignal_connected; by eapply rejected_within|].
    split; [by rewrite connected_calls, Ho, Ht|].
    rewrite readOverridden_flagAt by (by rewrite connected_isToneParam).
    by rewrite connected_flagAt, Ho, Ht, bool_decide_eq_true_2.
  - intros Hz. exists (refused (Direct a) w).
    split.
    { rewrite connectSignal_outcome. unfold rejected, accepts.
      rewrite Ho, Hp. cbn [andb].
      apply ParamFacts.inRange_not_within in Hz. by rewrite Hz. }
    split; [apply refused_calls|].
    rewrite !readOverridden_flagAt by (by rewrite ?refused_isToneParam).
    by rewrite refused_flagAt.
Qed.

Lemma new_Signal_is_overridden_witness :
  heap startWorld !! 1 = Some (OSignal (Signal_constructor false 3 None None)) /\
  exists w',
    connectSignal 0 (Direct 1) None None startWorld = Returns tt w' /\
    readOverridden w' (Direct 1) = Some true.
Proof.
  split; [reflexivity|].
  destruct (new_Signal_is_overridden false 3 None None (fun p => p) startWorld 1 0
              None None eq_refl) as (_ & _ & _ & _ & _ & Hyes & _).
  destruct Hyes as (w' & Hret & _ & Hflag); [split; intros ? [=]|].
  exists w'. split; [exact Hret|exact Hflag].
Defined.

(** ** The example worlds *)

Lemma startWorld_initial : initial startWorld.
Proof.
  split; [reflexivity|]. intros a. unfold flagAt, startWorld. cbn [heap].
  destruct (decide (a = 0)) as [->|H0]; [by rewrite lookup_insert_eq|].
  rewrite lookup_insert_ne by done.
  destruct (decide (a = 1)) as [->|H1]; [by rewrite lookup_insert_eq|].
  rewrite lookup_insert_ne by done.
  destruct (decide (a = 2)) as [->|H2]; [by rewrite lookup_singleton_eq|].
  by rewrite lookup_singleton_ne.
Qed.

Lemma startWorld_overridable : overridable startWorld (Direct 1) = true.
Proof. reflexivity. Qed.

Lemma startWorld_isToneParam : isToneParam startWorld (Direct 1) = true.
Proof. reflexivity. Qed.

Lemma startWorld_paramOf :
  paramOf startWorld (Direct 1) = Some (Param.create 3 None None).
Proof. reflexivity. Qed.

Lemma startWorld_node : overridable startWorld (Direct 2) = false.
Proof. reflexivity. Qed.

Lemma within_unbounded (v x : R) : within (Param.create v None None) x.
Proof. split; intros ? [=]. Qed.

Lemma startWorld_accepts (v : R) : accepts startWorld (Direct 1) v = true.
Proof. reflexivity. Qed.

Lemma startWorld_rejected : rejected startWorld (Direct 1) = false.
Proof. reflexivity. Qed.

Lemma startWorld_recordsRestorable : recordsRestorable startWorld.
Proof. intros c (s & l & Hl & _). discriminate Hl. Qed.

Lemma boundedWorld_paramOf :
  paramOf boundedWorld (Direct 1) = Some (Param.create 5 (Some 1%R) (Some 10%R)).
Proof. reflexivity. Qed.

Lemma boundedWorld_rejected : rejected boundedWorld (Direct 1) = true.
Proof.
  unfold rejected, accepts. rewrite boundedWorld_paramOf.
  change (overridable boundedWorld (Direct 1)) with true. cbn [andb].
  apply negb_true_iff, ParamFacts.inRange_not_within.
  intros [Hlo _]. specialize (Hlo 1%R eq_refl). lra.
Qed.

(** ** Witnesses and counterexamples *)

Lemma connectSignal_override_witness :
  overridable startWorld (Direct 1) = true /\
  paramOf startWorld (Direct 1) = Some (Param.create 3 None None) /\
  exists w',
    connectSignal 0 (Direct 1) (Some 0) (Some 0) startWorld = Returns tt w' /\
    calls w' = [Call_value (Direct 1);
                Call_cancelScheduledValues (Direct 1) 0;
                Call_setValueAtTime (Direct 1) 0 0;
                Call_set_overridden (Direct 1) true;
                Call_connect 0 (Direct 1) (Some 0) (Some 0)] /\
    readOverridden w' (Direct 1) = Some true /\
    connectedSignals w' !! 0 = Some [mkConnection 0 (Direct 1) 0 0 3].
Proof.
  split; [reflexivity|]. split; [reflexivity|].
  destruct (connectSignal_override startWorld 0 (Direct 1) (Some 0) (Some 0)
              (Param.create 3 None None)
              startWorld_overridable startWorld_paramOf (within_unbounded 3 0))
    as [(w' & Hret & Hcalls & Hflag & Hrec & _) _].
  exists w'. split; [exact Hret|]. split; [exact Hcalls|]. split; [exact Hflag|].
  rewrite Hrec. reflexivity.
Defined.

(** C1, as stated, fails: the [Signal] at address [1] of [boundedWorld] has
    [override] set and a range from [1] to [10]; the zeroing call of
    [connectSignal] raises, and the flag is not set, no record is kept and
    the graph is not wired. *)
Lemma connectSignal_out_of_range :
  overridable boundedWorld (Direct 1) = true /\
  isToneParam boundedWorld (Direct 1) = true /\
  (~ exists w', connectSignal 0 (Direct 1) None None boundedWorld = Returns tt w') /\
  exists w',
    connectSignal 0 (Direct 1) None None boundedWorld = Throws RangeError w' /\
    calls w' = [Call_value (Direct 1);
                Call_cancelScheduledValues (Direct 1) 0;
                Call_setValueAtTime (Direct 1) 0 0] /\
    connectedSignals w' !! 0 = None /\
    readOverridden w' (Direct 1) = Some false.
Proof.
  split; [reflexivity|]. split; [reflexivity|].
  assert (Hout : connectSignal 0 (Direct 1) None None boundedWorld
                 = Throws RangeError (refused (Direct 1) boundedWorld)).
  { by rewrite connectSignal_outcome, boundedWorld_rejected. }
  split; [intros [w' Hret]; congruence|].
  exists (refused (Direct 1) boundedWorld). split; [exact Hout|].
  split; [by rewrite refused_calls|].
  split; [by rewrite refused_connectedSignals|].
  rewrite readOverridden_flagAt by (by rewrite refused_isToneParam).
  by rewrite refused_flagAt.
Qed.

(** C2, as stated, fails: after a connect to a node that is no parameter,
    the disconnect from that node is given a destination that no record of
    the source matches, and it returns. *)
Lemma disconnect_unmatched_returns :
  ~ ((exists w',
        disconnectSignal 0 (Some (Direct 2)) None None
          (after (connectSignal 0 (Direct 2) None None) startWorld)
        = Throws NotConnected w') <->
     filter (fun conn => matches (Direct 2) None None conn)
            (default [] (connectedSignals
                           (after (connectSignal 0 (Direct 2) None None) startWorld)
                         !! 0)) = []).
Proof.
  rewrite after_connectSignal.
  assert (Hrej : rejected startWorld (Direct 2) = false) by reflexivity.
  rewrite Hrej.
  assert (Hw : connected 0 (Direct 2) None None startWorld
               = record (Call_connect 0 (Direct 2) None None) startWorld).
  { unfold connected. by rewrite startWorld_node. }
  rewrite Hw. intros [_ Hback].
  destruct Hback as [w' Hthrow]; [reflexivity|].
  rewrite disconnectSignal_outcome in Hthrow.
  unfold unmatched, unrestorable in Hthrow. cbn [guard] in Hthrow.
  change (overridable (record ?c ?w) ?d) with (overridable w d) in Hthrow.
  rewrite startWorld_node in Hthrow. discriminate.
Qed.

Lemma disconnectSignal_restores_witness :
  connectedSignals recordedWorld !! 0 = Some [mkConnection 0 (Direct 1) 0 0 3] /\
  guard recordedWorld (Some (Direct 1)) = true /\
  exists w',
    disconnectSignal 0 (Some (Direct 1)) None None recordedWorld = Returns tt w' /\
    calls w' = [Call_set_overridden (Direct 1) false;
                Call_setValueAtTime (Direct 1) 3 0;
                Call_disconnect 0 (Some (Direct 1)) None None] /\
    connectedSignals w' !! 0 = Some [].
Proof.
  assert (Hl : connectedSignals recordedWorld !! 0
               = Some [mkConnection 0 (Direct 1) 0 0 3]) by reflexivity.
  assert (Hg : guard recordedWorld (Some (Direct 1)) = true) by reflexivity.
  assert (Hnd : NoDup (ident <$> [mkConnection 0 (Direct 1) 0 0 3])).
  { apply NoDup_singleton. }
  assert (Hsel : selected (Some (Direct 1)) None None [mkConnection 0 (Direct 1) 0 0 3]
                 = [mkConnection 0 (Direct 1) 0 0 3]).
  { cbn [selected]. by rewrite filter_cons_True by (simpl; tauto). }
  assert (Hne : selected (Some (Direct 1)) None None [mkConnection 0 (Direct 1) 0 0 3]
                <> []) by (rewrite Hsel; discriminate).
  assert (Hres : restorable recordedWorld
                   (selected (Some (Direct 1)) None None
                             [mkConnection 0 (Direct 1) 0 0 3]) = true)
    by (rewrite Hsel; reflexivity).
  split; [exact Hl|]. split; [exact Hg|].
  destruct (disconnectSignal_restores recordedWorld 0 (Some (Direct 1)) None None
              [mkConnection 0 (Direct 1) 0 0 3] Hl Hnd Hg Hne Hres)
    as [(w' & Hret & Hcalls & _ & Hrec & _) _].
  exists w'. split; [exact Hret|]. split.
  - rewrite Hcalls, Hsel. reflexivity.
  - rewrite Hrec. by rewrite filter_cons_False by (simpl; tauto).
Defined.

(** C3, as stated, fails: after two connects of one source to one [Signal]
    that differ in the input index and the disconnect of the second, the
    record of the first is live and the flag of the [Signal] is false. *)
Lemma overridden_iff_live_record_fails :
  initial startWorld /\
  ~ (readOverridden (run twoInputs startWorld) (Direct 1) = Some true <->
     exists c, live (run twoInputs startWorld) c /\ destination c = Direct 1).
Proof.
  split; [apply startWorld_initial|].
  unfold run, twoInputs. cbn [foldl perform].
  rewrite (after_connectSignal 0 (Direct 1) (Some 0) (Some 0) startWorld).
  rewrite startWorld_rejected.
  set (w1 := connected 0 (Direct 1) (Some 0) (Some 0) startWorld).
  assert (Hr1 : rejected w1 (Direct 1) = false)
    by (unfold w1; by rewrite connected_rejected).
  rewrite (after_connectSignal 0 (Direct 1) (Some 0) (Some 1) w1), Hr1.
  set (w2 := connected 0 (Direct 1) (Some 0) (Some 1) w1).
  assert (Hres2 : recordsRestorable w2).
  { unfold w2. apply recordsRestorable_connected; [done|].
    unfold w1. apply recordsRestorable_connected; [done|].
    apply startWorld_recordsRestorable. }
  assert (Ho1 : overridable w1 (Direct 1) = true)
    by (unfold w1; by rewrite connected_overridable).
  assert (Ho2 : overridable w2 (Direct 1) = true)
    by (unfold w2; by rewrite connected_overridable).
  assert (Ht2 : isToneParam w2 (Direct 1) = true)
    by (unfold w2, w1; by rewrite !connected_isToneParam).
  set (c1 := mkConnection 0 (Direct 1) 0 0 (readValue startWorld (Direct 1))).
  set (c2 := mkConnection 1 (Direct 1) 0 1 (readValue w1 (Direct 1))).
  assert (Hl1 : connectedSignals w1 !! 0 = Some [c1]).
  { unfold w1. rewrite connected_connectedSignals, startWorld_overridable.
    by rewrite lookup_insert_eq. }
  assert (Hn1 : nextIdent w1 = 1).
  { unfold w1. by rewrite connected_nextIdent, startWorld_overridable. }
  assert (Hl2 : connectedSignals w2 !! 0 = Some [c1; c2]).
  { unfold w2. rewrite connected_connectedSignals, Ho1, lookup_insert_eq, Hl1, Hn1.
    reflexivity. }
  assert (Hsel : selected (Some (Direct 1)) (Some 0) (Some 1) [c1; c2] = [c2]).
  { cbn [selected]. rewrite filter_cons_False by (simpl; tauto).
    rewrite filter_cons_True by (simpl; tauto). reflexivity. }
  rewrite after_disconnectSignal by (by apply unrestorable_recordsRestorable).
  assert (Hu : unmatched 0 (Some (Direct 1)) (Some 0) (Some 1) w2 = false).
  { unfold unmatched. cbn [guard]. rewrite Ho2, Hl2, Hsel. reflexivity. }
  rewrite Hu.
  set (w3 := disconnected 0 (Some (Direct 1)) (Some 0) (Some 1) w2).
  assert (Hflag : readOverridden w3 (Direct 1) = Some false).
  { rewrite readOverridden_flagAt
      by (unfold w3; by rewrite (disconnected_isToneParam _ _ _ _ _ [c1; c2])).
    unfold w3. rewrite (disconnected_flagAt _ _ _ _ _ [c1; c2]) by done.
    rewrite Hsel. unfold cleared. cbn [existsb destination c2].
    by rewrite Ht2. }
  assert (Hlive : live w3 c1).
  { exists 0, [c1]. split; [|by left].
    unfold w3. rewrite (disconnected_connectedSignals _ _ _ _ _ [c1; c2]) by done.
    rewrite lookup_insert_eq, Hsel. reflexivity. }
  intros [_ Hback]. rewrite Hflag in Hback.
  assert (Some false = Some true) by (apply Hback; by exists c1).
  discriminate.
Qed.

Lemma overridden_iff_live_record_witness :
  initial startWorld /\
  exclusive [Connect 0 (Direct 1) None None] startWorld /\
  (readOverridden (run [Connect 0 (Direct 1) None None] startWorld) (Direct 1)
   = Some true <->
   exists c, live (run [Connect 0 (Direct 1) None None] startWorld) c /\
             addr (destination c) = addr (Direct 1)).
Proof.
  assert (Hex : exclusive [Connect 0 (Direct 1) None None] startWorld).
  { split; [|exact I]. intros c (s & l & Hl & _). discriminate Hl. }
  split; [apply startWorld_initial|]. split; [exact Hex|].
  destruct (overridden_iff_live_record startWorld [Connect 0 (Direct 1) None None]
              startWorld_initial) as [_ Hiff].
  apply (Hiff Hex (Direct 1)).
  cbn [run foldl perform]. rewrite after_connectSignal, startWorld_rejected.
  by rewrite connected_isToneParam.
Defined.

(** C9, as stated, fails: a native AudioParam is an overridable
    destination, and the value read from it is not changed by the calls of
    [connectSignal]; the record of the second connect holds [1], the value
    it read before the first, and not [0].  And a [Signal] with [override]
    set whose range is from [1] to [10] is an overridable destination to
    which no connect returns, so that no record is made at all. *)
Lemma reconnect_audioParam_keeps_value :
  (overridable boundedWorld (Direct 1) = true /\
   exists w',
     connectSignal 0 (Direct 1) None None boundedWorld = Throws RangeError w' /\
     connectedSignals w' !! 0 = None) /\
  overridable audioWorld (Direct 3) = true /\
  exists w1 w2,
    connectSignal 0 (Direct 3) None None audioWorld = Returns tt w1 /\
    connectSignal 0 (Direct 3) None None w1 = Returns tt w2 /\
    connectedSignals w2 !! 0
    = Some [mkConnection 0 (Direct 3) 0 0 1; mkConnection 1 (Direct 3) 0 0 1] /\
    ~ (forall c, c ∈ default [] (connectedSignals w2 !! 0) ->
                 ident c = 1 -> previousValue c = 0%R).
Proof.
  split.
  { split; [reflexivity|]. exists (refused (Direct 1) boundedWorld).
    split; [by rewrite connectSignal_outcome, boundedWorld_rejected|].
    by rewrite refused_connectedSignals. }
  split; [reflexivity|].
  set (w1 := connected 0 (Direct 3) None None audioWorld).
  set (w2 := connected 0 (Direct 3) None None w1).
  assert (Hr0 : rejected audioWorld (Direct 3) = false) by reflexivity.
  assert (Hr1 : rejected w1 (Direct 3) = false)
    by (unfold w1; by rewrite connected_rejected).
  assert (Ho0 : overridable audioWorld (Direct 3) = true) by reflexivity.
  assert (Ho1 : overridable w1 (Direct 3) = true)
    by (unfold w1; by rewrite connected_overridable).
  assert (Hl1 : connectedSignals w1 !! 0 = Some [mkConnection 0 (Direct 3) 0 0 1]).
  { unfold w1. by rewrite connected_connectedSignals, Ho0, lookup_insert_eq. }
  assert (Hn1 : nextIdent w1 = 1).
  { unfold w1. by rewrite connected_nextIdent, Ho0. }
  assert (Hv1 : readValue w1 (Direct 3) = 1%R).
  { unfold readValue. cbn [resolve].
    assert (Hh : heap w1 !! 3 = Some (OAudioParam 1)).
    { unfold w1, connected. rewrite Ho0.
      change (isToneParam audioWorld (Direct 3)) with false.
      cbn [heap record pushed]. unfold call. rewrite !dispatch_heap.
      reflexivity. }
    by rewrite Hh. }
  assert (Hl2 : connectedSignals w2 !! 0
                = Some [mkConnection 0 (Direct 3) 0 0 1; mkConnection 1 (Direct 3) 0 0 1]).
  { unfold w2. rewrite connected_connectedSignals, Ho1, lookup_insert_eq, Hl1, Hn1, Hv1.
    reflexivity. }
  exists w1, w2. split; [by apply connectSignal_connected|].
  split; [by apply connectSignal_connected|]. split; [exact Hl2|].
  rewrite Hl2. intros Hall.
  specialize (Hall (mkConnection 1 (Direct 3) 0 0 1)).
  assert (1 = 0)%R as Habs; [|lra].
  apply Hall; [|reflexivity]. right. left.
Qed.

Lemma reconnect_restores_zero_witness :
  readValue startWorld (Direct 1) = 3%R /\
  exists w1 w2 w3,
    connectSignal 0 (Direct 1) None None startWorld = Returns tt w1 /\
    connectSignal 0 (Direct 1) None None w1 = Returns tt w2 /\
    disconnectSignal 0 (Some (Direct 1)) None None w2 = Returns tt w3 /\
    readValue w3 (Direct 1) = 0%R.
Proof.
  split; [reflexivity|].
  destruct (reconnect_restores_zero startWorld 0 (Direct 1) None None None None
              (Param.create 3 None None) startWorld_paramOf startWorld_overridable
              (within_unbounded 3 0) (Rle_refl 0) startWorld_recordsRestorable)
    as (w1 & w2 & w3 & c1 & c2 & H1 & H2 & _ & _ & _ & _ & _ & H3 & _ & Hv & _).
  exists w1, w2, w3. repeat (split; [assumption|]). exact Hv.
Defined.

(** C10, as stated, fails: in a suspended context the constant source of a
    new [Signal] has no native source node, so none is started; and a new
    [Signal] whose range is from [1] to [10] does not undergo the override
    sequence: the zeroing call raises, and [overridden] stays false. *)
Lemma new_Signal_not_overridden :
  _source (_constantSource (Signal_constructor true 5 None None)) = None /\
  heap boundedWorld !! 1
  = Some (OSignal (Signal_constructor false 5 (Some 1%R) (Some 10%R))) /\
  exists w',
    connectSignal 0 (Direct 1) None None boundedWorld = Throws RangeError w' /\
    ~ In (Call_set_overridden (Direct 1) true) (calls w') /\
    ~ In (Call_connect 0 (Direct 1) None None) (calls w') /\
    readOverridden w' (Direct 1) = Some false.
Proof.
  split; [reflexivity|]. split; [reflexivity|].
  exists (refused (Direct 1) boundedWorld).
  split; [by rewrite connectSignal_outcome, boundedWorld_rejected|].
  rewrite refused_calls. cbn [calls boundedWorld app].
  split; [intros [H|[H|[H|[]]]]; discriminate H|].
  split; [intros [H|[H|[H|[]]]]; discriminate H|].
  rewrite readOverridden_flagAt by (by rewrite refused_isToneParam).
  by rewrite refused_flagAt.
Qed.

(** With the destination omitted, a source whose array of records has
    been emptied by an earlier disconnect gets the exception as well. *)
Remark disconnect_all_twice_throws :
  exists w1 w2,
    connectSignal 0 (Direct 1) None None startWorld = Returns tt w1 /\
    disconnectSignal 0 None None None w1 = Returns tt w2 /\
    disconnectSignal 0 None None None w2 = Throws NotConnected w2.
Proof.
  set (w1 := connected 0 (Direct 1) None None startWorld).
  set (c1 := mkConnection 0 (Direct 1) 0 0 (readValue startWorld (Direct 1))).
  assert (Hl1 : connectedSignals w1 !! 0 = Some [c1]).
  { unfold w1. rewrite connected_connectedSignals, startWorld_overridable.
    by rewrite lookup_insert_eq. }
  set (w2 := disconnected 0 None None None w1).
  assert (Hl2 : connectedSignals w2 !! 0 = Some []).
  { unfold w2. rewrite (disconnected_connectedSignals 0 None None None w1 [c1])
      by done.
    rewrite lookup_insert_eq. cbn [selected].
    by rewrite filter_cons_False by (simpl; tauto). }
  assert (Hres1 : recordsRestorable w1).
  { unfold w1. apply recordsRestorable_connected; [done|].
    apply startWorld_recordsRestorable. }
  exists w1, w2. split; [by apply connectSignal_connected|]. split.
  - rewrite disconnectSignal_restorable by (by apply unrestorable_recordsRestorable).
    unfold unmatched. cbn [guard andb selected].
    by rewrite Hl1, bool_decide_eq_false_2.
  - rewrite disconnectSignal_outcome. unfold unmatched. cbn [guard andb selected].
    by rewrite Hl2, bool_decide_eq_true_2.
Qed.

(** * Further properties of the connection manager *)

Lemma clamp_idem (lo hi : option R) (v : R) :
  Param.clamp lo hi (Param.clamp lo hi v) = Param.clamp lo hi v.
Proof.
  unfold Param.clamp. destruct lo as [m|], hi as [M|]; simpl.
  - unfold Rmin, Rmax. repeat destruct (Rle_dec _ _); lra.
  - unfold Rmax. repeat destruct (Rle_dec _ _); lra.
  - unfold Rmin. repeat destruct (Rle_dec _ _); lra.
  - reflexivity.
Qed.

Lemma settled_getValueAtTime (v q : R) (p : Param.t) :
  settled p -> (0 <= q)%R ->
  Param.getValueAtTime (Param.withSetValue v 0 p) q
  = Param.clamp (Param.minValue p) (Param.maxValue p) v.
Proof. apply ParamFacts.settled_get_value. Qed.

Lemma resolve_heap (w w' : World) (r : Ref) :
  heap w' !! addr r = heap w !! addr r -> resolve w' r = resolve w r.
Proof. destruct r as [a|a]; cbn [resolve addr]; by intros ->. Qed.

Lemma call_heap_other (c : Call) (f : Param.t -> Param.t) (r : Ref) (w : World) (a : nat) :
  a <> addr r -> heap (call c f r w) !! a = heap w !! a.
Proof.
  intros Ha. unfold call. rewrite dispatch_heap.
  by rewrite decide_False.
Qed.




Lemma rejected_overridable (w : World) (d : Ref) :
  rejected w d = true -> overridable w d = true.
Proof. unfold rejected. by intros [Ho _]%andb_prop. Qed.

(** After a connect that the destination accepted, the one record of the
    destination is restorable. *)
Lemma restorable_connected (s : nat) (d : Ref) (o i : option nat) (w : World)
    (k : nat) (oi ii : nat) :
  rejected w d = false -> overridable w d = true ->
  restorable (connected s d o i w) [mkConnection k d oi ii (readValue w d)] = true.
Proof.
  intros Hr Ho. unfold restorable. cbn [forallb destination previousValue].
  rewrite connected_accepts, andb_true_r. apply accepts_readValue.
  unfold rejected in Hr. rewrite Ho in Hr. cbn [andb] in Hr.
  by apply negb_false_iff in Hr.
Qed.

Lemma interrupted_facts (l : list Connection) (w : World) :
  connectedSignals (interrupted w l) = connectedSignals w /\
  now (interrupted w l) = now w /\
  (forall r, overridable (interrupted w l) r = overridable w r) /\
  (forall r, isToneParam (interrupted w l) r = isToneParam w r) /\
  exists added,
    calls (interrupted w l) = calls w ++ added /\
    forall k, k ∈ added -> exists c, c ∈ l /\ k ∈ restoreCalls w c.
Proof.
  revert w. induction l as [|c l IH]; intros w; cbn [interrupted].
  { split; [done|]. split; [done|]. split; [done|]. split; [done|].
    exists []. rewrite app_nil_r. split; [done|].
    intros k Hk. by apply elem_of_nil in Hk. }
  destruct (accepts w (destination c) (previousValue c)).
  - destruct (IH (restored w c)) as (Hc & Hn & Ho & Ht & added & Hcalls & Hall).
    split; [by rewrite Hc, restored_connectedSignals|].
    split; [by rewrite Hn, restored_now|].
    split; [intros r; by rewrite Ho, restored_overridable|].
    split; [intros r; by rewrite Ht, restored_isToneParam|].
    exists (restoreCalls w c ++ added).
    split; [by rewrite Hcalls, restored_calls, app_assoc|].
    intros k [Hk|Hk]%elem_of_app.
    + exists c. split; [by left|done].
    + destruct (Hall k Hk) as (c' & Hc' & Hk'). exists c'. split; [by right|].
      unfold restoreCalls in *. by rewrite restored_isToneParam in Hk'.
  - unfold unmarked, restoreCalls.
    destruct (isToneParam w (destination c)) eqn:Ht.
    + split; [by cbn [connectedSignals record pushed]; rewrite call_connectedSignals|].
      split; [by cbn [now record pushed]; rewrite call_now|].
      split; [intros r; by rewrite <- (call_overridable
                (Call_set_overridden (destination c) false)
                (Param.setOverridden false) (destination c) w r)|].
      split; [intros r; by rewrite <- (call_isToneParam
                (Call_set_overridden (destination c) false)
                (Param.setOverridden false) (destination c) w r)|].
      eexists. split.
      { cbn [calls record pushed]. rewrite call_calls, <- app_assoc. reflexivity. }
      intros k Hk. exists c. split; [by left|]. by rewrite Ht.
    + split; [done|]. split; [done|]. split; [done|]. split; [done|].
      eexists. split; [reflexivity|].
      intros k Hk. exists c. split; [by left|]. by rewrite Ht.
Qed.

Lemma after_disconnectSignal_outcome (s : nat) (d : option Ref) (o i : option nat)
    (w : World) :
  after (disconnectSignal s d o i) w
  = if unmatched s d o i w then w
    else if unrestorable s d o i w then stopped s d o i w
    else disconnected s d o i w.
Proof.
  unfold after. rewrite disconnectSignal_outcome.
  by destruct (unmatched s d o i w), (unrestorable s d o i w).
Qed.

Lemma restored_heap_other (w : World) (c : Connection) (a : nat) :
  a <> addr (destination c) -> heap (restored w c) !! a = heap w !! a.
Proof.
  intros Ha. unfold restored, unmarked.
  destruct (isToneParam w (destination c)); by rewrite !call_heap_other.
Qed.

Lemma foldl_restored_heap_other (l : list Connection) (w : World) (a : nat) :
  (forall c, c ∈ l -> a <> addr (destination c)) ->
  heap (foldl restored w l) !! a = heap w !! a.
Proof.
  revert w. induction l as [|c l IH]; intros w Hall; [reflexivity|].
  cbn [foldl]. rewrite IH by (intros c' Hc'; apply Hall; by right).
  apply restored_heap_other, Hall. by left.
Qed.

Lemma disconnected_heap_other (s : nat) (d : option Ref) (o i : option nat)
    (w : World) (a : nat) :
  (forall l c, connectedSignals w !! s = Some l -> c ∈ selected d o i l ->
               a <> addr (destination c)) ->
  heap (disconnected s d o i w) !! a = heap w !! a.
Proof.
  intros Hall. unfold disconnected.
  destruct (guard w d); [|reflexivity].
  destruct (connectedSignals w !! s) as [l|] eqn:Hl; [|reflexivity].
  cbn [heap record setConnected].
  apply foldl_restored_heap_other. intros c Hc. by apply (Hall l).
Qed.


(** X2.  When [disconnectSignal] returns, the clock is as before and so is
    every object that is not at the address of the destination of a
    selected record. *)
Theorem disconnectSignal_frame (w : World) (s : nat) (d : option Ref)
    (o i : option nat) (w' : World) :
  disconnectSignal s d o i w = Returns tt w' ->
  now w' = now w /\
  forall r,
    (forall l c, connectedSignals w !! s = Some l -> c ∈ selected d o i l ->
                 addr r <> addr (destination c)) ->
    resolve w' r = resolve w r.
Proof.
  rewrite disconnectSignal_outcome. intros H.
  destruct (unmatched s d o i w); [discriminate|].
  destruct (unrestorable s d o i w); [discriminate|].
  injection H as <-. split.
  - unfold disconnected. destruct (if guard w d then _ else _); [|reflexivity].
    cbn [now record setConnected]. apply foldl_restored_now.
  - intros r Hr. apply resolve_heap. by apply disconnected_heap_other.
Qed.

Lemma filter_matches_other (d : Ref) (o i : option nat) (l : list Connection) :
  (forall c, c ∈ l -> destination c <> d) ->
  filter (fun conn => matches d o i conn) l = [].
Proof.
  intros Hall. apply filter_none. intros c Hc Hm.
  apply (Hall c Hc). unfold matches in Hm.
  apply andb_prop_elim in Hm as [Hm _]. apply andb_prop_elim in Hm as [Hm _].
  by apply bool_decide_unpack in Hm.
Qed.

Lemma filter_not_includes_fresh (l : list Connection) (c : Connection) :
  (forall c', c' ∈ l -> ident c' <> ident c) ->
  filter (fun conn => negb (includes [c] conn)) (l ++ [c]) = l.
Proof.
  intros Hfresh. rewrite filter_app.
  rewrite (filter_all _ l).
  2:{ intros c' Hc'. unfold includes. cbn [existsb].
      rewrite orb_false_r. apply negb_prop_intro. intros He.
      apply Is_true_eq_true, Nat.eqb_eq in He. by apply (Hfresh c' Hc'). }
  rewrite filter_cons_False.
  2:{ unfold includes. cbn [existsb]. rewrite Nat.eqb_refl. simpl. tauto. }
  by rewrite filter_nil, app_nil_r.
Qed.

(** X3.  [signal.connect(destination)] followed by
    [signal.disconnect(destination)], on a [Param] or overriding [Signal]
    whose range contains [0] and that the source holds no record of: both
    return; between them they make
    exactly these calls, in this order: the value is read, the schedule is
    cancelled from [0], the value is set to [0], [overridden] is set, the
    graph is wired on output [0] and input [0], [overridden] is cleared, the
    value that was read is set at time [0], the graph is unwired.  After
    them [overridden] is false and the source holds the records it held
    before. *)
Theorem connect_disconnect_roundtrip (w : World) (this : nat) (d : Ref)
    (p : Param.t) :
  overridable w d = true ->
  paramOf w d = Some p ->
  within p 0 ->
  distinctIdents w ->
  (forall l c, connectedSignals w !! this = Some l -> c ∈ l -> destination c <> d) ->
  exists w1 w2,
    Signal_connect this d None None w = Returns tt w1 /\
    Signal_disconnect this (Some d) None None w1 = Returns tt w2 /\
    calls w2 = calls w ++ [Call_value d;
                           Call_cancelScheduledValues d 0;
                           Call_setValueAtTime d 0 0;
                           Call_set_overridden d true;
                           Call_connect this d (Some 0) (Some 0);
                           Call_set_overridden d false;
                           Call_setValueAtTime d (readValue w d) 0;
                           Call_disconnect this (Some d) None None] /\
    readOverridden w2 d = Some false /\
    connectedSignals w2 !! this = Some (default [] (connectedSignals w !! this)).
Proof.
  intros Ho Hp Hz Hid Hnone.
  pose proof (paramOf_isToneParam w d p Hp) as Ht.
  pose proof (rejected_within w d p Hp Hz) as Hr.
  unfold Signal_connect, Signal_disconnect. cbn [orZero default from_option].
  set (w1 := connected this d (Some 0) (Some 0) w).
  set (c1 := mkConnection (nextIdent w) d 0 0 (readValue w d)).
  set (l0 := default [] (connectedSignals w !! this)).
  assert (Hl0 : forall c, c ∈ l0 -> destination c <> d /\ ident c < nextIdent w).
  { intros c Hc. unfold l0 in Hc.
    destruct (connectedSignals w !! this) as [l|] eqn:El; simpl in Hc.
    - split; [by apply (Hnone l)|]. by apply (Hid this l El).
    - by apply elem_of_nil in Hc. }
  assert (Hl1 : connectedSignals w1 !! this = Some (l0 ++ [c1])).
  { unfold w1. by rewrite connected_connectedSignals, Ho, lookup_insert_eq. }
  assert (Ho1 : overridable w1 d = true)
    by (unfold w1; by rewrite connected_overridable).
  assert (Ht1 : isToneParam w1 d = true)
    by (unfold w1; by rewrite connected_isToneParam).
  assert (Hsel : selected (Some d) None None (l0 ++ [c1]) = [c1]).
  { cbn [selected]. rewrite filter_app.
    rewrite filter_matches_other by (intros c Hc; by apply Hl0).
    rewrite filter_cons_True; [done|].
    unfold matches. cbn [destination c1]. by rewrite bool_decide_eq_true_2. }
  exists w1, (disconnected this (Some d) None None w1).
  split; [by apply connectSignal_connected|].
  split.
  { rewrite disconnectSignal_restorable.
    - unfold unmatched. cbn [guard].
      by rewrite Ho1, Hl1, Hsel, bool_decide_eq_false_2.
    - unfold unrestorable. cbn [guard]. rewrite Ho1, Hl1, Hsel.
      unfold w1, c1. by rewrite restorable_connected. }
  split.
  { rewrite (disconnected_calls this (Some d) None None w1 (l0 ++ [c1])) by done.
    rewrite Hsel. unfold w1. rewrite connected_calls, Ho, Ht.
    cbn [flat_map]. unfold restoreCalls. cbn [destination previousValue c1].
    fold w1. rewrite Ht1. rewrite <- !app_assoc. reflexivity. }
  split.
  { rewrite readOverridden_flagAt
      by (by rewrite (disconnected_isToneParam this (Some d) None None w1 (l0 ++ [c1]))).
    rewrite (disconnected_flagAt this (Some d) None None w1 (l0 ++ [c1])) by done.
    rewrite Hsel. unfold cleared. cbn [existsb destination c1].
    by rewrite Ht1, bool_decide_eq_true_2. }
  rewrite (disconnected_connectedSignals this (Some d) None None w1 (l0 ++ [c1]))
    by done.
  rewrite lookup_insert_eq, Hsel. f_equal.
  apply filter_not_includes_fresh. intros c Hc. cbn [ident c1].
  destruct (Hl0 c Hc) as [_ Hlt]. lia.
Qed.

(** X4.  What the round trip leaves on a destination whose range contains
    [0] is a constant: at
    every time from [0] on, the destination evaluates to the value that was
    read when it was connected.  What had been scheduled on it before the
    connect is not resumed by the disconnect.  The evaluation is that of
    the [Param] module above. *)
Theorem roundtrip_leaves_constant (w : World) (this : nat) (d : Ref) (p : Param.t) :
  paramOf w d = Some p ->
  overridable w d = true ->
  within p 0 ->
  (forall l c, connectedSignals w !! this = Some l -> c ∈ l -> destination c <> d) ->
  exists w1 w2 p2,
    Signal_connect this d None None w = Returns tt w1 /\
    Signal_disconnect this (Some d) None None w1 = Returns tt w2 /\
    paramOf w2 d = Some p2 /\
    (forall x, x ∈ Param.events p2 -> (Param.time x <= 0)%R) /\
    (forall q, (0 <= q)%R -> Param.getValueAtTime p2 q = readValue w d).
Proof.
  intros Hp Ho Hz Hnone.
  pose proof (paramOf_isToneParam w d p Hp) as Ht.
  pose proof (rejected_within w d p Hp Hz) as Hr.
  unfold Signal_connect, Signal_disconnect. cbn [orZero default from_option].
  set (w1 := connected this d (Some 0) (Some 0) w).
  set (c1 := mkConnection (nextIdent w) d 0 0 (readValue w d)).
  set (l0 := default [] (connectedSignals w !! this)).
  set (p1 := Param.setOverridden true
               (Param.withSetValue 0 0 (Param.cancelScheduledValues 0 p))).
  assert (Hl0 : forall c, c ∈ l0 -> destination c <> d).
  { intros c Hc. unfold l0 in Hc.
    destruct (connectedSignals w !! this) as [l|] eqn:El; simpl in Hc.
    - by apply (Hnone l).
    - by apply elem_of_nil in Hc. }
  assert (Hl1 : connectedSignals w1 !! this = Some (l0 ++ [c1])).
  { unfold w1. by rewrite connected_connectedSignals, Ho, lookup_insert_eq. }
  assert (Ho1 : overridable w1 d = true)
    by (unfold w1; by rewrite connected_overridable).
  assert (Hp1 : paramOf w1 d = Some p1).
  { unfold w1. rewrite connected_paramOf, Ho, bool_decide_eq_true_2 by done.
    cbn [andb]. by rewrite Hp, Ht. }
  assert (Hsel : selected (Some d) None None (l0 ++ [c1]) = [c1]).
  { cbn [selected]. rewrite filter_app.
    rewrite filter_matches_other by (intros c Hc; by apply Hl0).
    rewrite filter_cons_True; [done|].
    unfold matches. cbn [destination c1]. by rewrite bool_decide_eq_true_2. }
  assert (Hs1 : settled (Param.setOverridden false p1)).
  { apply ParamFacts.settled_setOverridden, ParamFacts.settled_setOverridden,
      ParamFacts.settled_withSetValue, ParamFacts.settled_cancelScheduledValues. }
  exists w1, (disconnected this (Some d) None None w1),
    (Param.withSetValue (readValue w d) 0 (Param.setOverridden false p1)).
  split; [by apply connectSignal_connected|].
  split.
  { rewrite disconnectSignal_restorable.
    - unfold unmatched. cbn [guard].
      by rewrite Ho1, Hl1, Hsel, bool_decide_eq_false_2.
    - unfold unrestorable. cbn [guard]. rewrite Ho1, Hl1, Hsel.
      unfold w1, c1. by rewrite restorable_connected. }
  split.
  { unfold disconnected. cbn [guard]. rewrite Ho1, Hl1, Hsel.
    change (paramOf (record ?x (setConnected ?y ?z)) d) with (paramOf z d).
    rewrite (foldl_restored_paramOf [c1] w1 d p1); [done| |done].
    intros c Hc. apply list_elem_of_singleton in Hc. by subst c. }
  split; [by apply ParamFacts.settled_withSetValue|].
  intros q Hq. rewrite settled_getValueAtTime by done.
  cbn [Param.minValue Param.maxValue Param.setOverridden Param.withSetValue
       Param.withEvents Param.cancelScheduledValues p1].
  rewrite (readValue_paramOf w d p Hp). unfold Param.get_value, Param.getValueAtTime.
  destruct (Param.getEventAt (Param.events p) (now w)) as [pr nx].
  apply clamp_idem.
Qed.

(** X5.  A disconnect that went through the record list of its source and
    returned cannot be repeated: the same call on the state it left throws
    the not-connected error. *)
Theorem disconnect_twice_throws (w : World) (s : nat) (d : option Ref)
    (o i : option nat) (l : list Connection) (w' : World) :
  guard w d = true ->
  connectedSignals w !! s = Some l ->
  disconnectSignal s d o i w = Returns tt w' ->
  disconnectSignal s d o i w' = Throws NotConnected w'.
Proof.
  intros Hg Hl. rewrite !disconnectSignal_outcome.
  destruct (unmatched s d o i w) eqn:Hu; [discriminate|].
  destruct (unrestorable s d o i w) eqn:Hun; [discriminate|].
  intros [= <-].
  assert (Hg' : guard (disconnected s d o i w) d = true).
  { destruct d as [d'|]; [|reflexivity]. cbn [guard] in *.
    by rewrite (disconnected_overridable s (Some d') o i w l). }
  unfold unmatched. rewrite Hg'.
  rewrite (disconnected_connectedSignals s d o i w l), lookup_insert_eq by done.
  cbn [andb]. rewrite bool_decide_eq_true_2; [done|].
  destruct d as [d'|]; cbn [selected].
  - apply filter_none. intros c [Hinc Hc]%list_elem_of_filter Hm.
    assert (Hyes : includes (filter (fun conn => matches d' o i conn) l) c = true).
    { apply includes_true. exists c. split; [|done].
      apply list_elem_of_filter. done. }
    cbn [selected] in Hinc. rewrite Hyes in Hinc. exact Hinc.
  - apply filter_none. intros c Hc Hinc.
    assert (Hyes : includes l c = true) by (apply includes_true; eauto).
    cbn [selected] in Hinc. rewrite Hyes in Hinc. exact Hinc.
Qed.



Lemma recordsOverridable_step (op : Op) (w : World) :
  recordsOverridable w ->
  recordsOverridable (after (perform op) w) /\
  (forall r, overridable (after (perform op) w) r = overridable w r) /\
  (forall r, isToneParam (after (perform op) w) r = isToneParam w r) /\
  exists added,
    calls (after (perform op) w) = calls w ++ added /\
    (forall k d, k ∈ added -> driven k = Some d -> overridable w d = true) /\
    (forall k d, k ∈ added -> flagged k = Some d -> isToneParam w d = true).
Proof.
  intros Hw. destruct op as [s d o i|s d o i]; cbn [perform].
  - rewrite after_connectSignal. destruct (rejected w d) eqn:Hrej.
    { split; [intros c Hc%refused_live; rewrite refused_overridable; by apply Hw|].
      split; [apply refused_overridable|]. split; [apply refused_isToneParam|].
      eexists. split; [apply refused_calls|].
      apply rejected_overridable in Hrej.
      split; intros k d' Hk Hd;
        repeat (apply elem_of_cons in Hk as [->|Hk]);
        try (by apply elem_of_nil in Hk);
        cbn [driven flagged] in Hd; congruence. }
    split; [|split; [|split]].
    + intros c [Hc | [Ho ->]]%live_connected; rewrite connected_overridable;
        [by apply Hw|done].
    + apply connected_overridable.
    + apply connected_isToneParam.
    + eexists. split; [apply connected_calls|].
      destruct (overridable w d) eqn:Ho, (isToneParam w d) eqn:Ht; cbn [app];
        split; intros k d' Hk Hd;
        repeat (apply elem_of_cons in Hk as [->|Hk]);
        try (by apply elem_of_nil in Hk);
        cbn [driven flagged] in Hd; congruence.
  - rewrite after_disconnectSignal_outcome.
    destruct (unmatched s d o i w).
    { split; [done|]. split; [done|]. split; [done|].
      exists []. rewrite app_nil_r. split; [done|].
      split; intros k d' Hk; by apply elem_of_nil in Hk. }
    destruct (unrestorable s d o i w) eqn:Hun.
    { unfold stopped. unfold unrestorable in Hun.
      destruct (if guard w d then connectedSignals w !! s else None) as [l|] eqn:Hgl;
        [|discriminate].
      assert (Hl : connectedSignals w !! s = Some l)
        by (destruct (guard w d); [done|discriminate]).
      destruct (interrupted_facts (selected d o i l) w)
        as (Hc & _ & Ho & Ht & added & Hcalls & Hall).
      assert (Hsel : forall c, c ∈ selected d o i l ->
                               overridable w (destination c) = true).
      { intros c Hin. apply Hw. exists s, l. split; [done|].
        by eapply selected_subseteq. }
      split.
      { intros c (s' & l' & Hl' & Hin). rewrite Ho. apply Hw.
        exists s', l'. by rewrite <- Hc. }
      split; [exact Ho|]. split; [exact Ht|].
      exists added. split; [exact Hcalls|].
      split; intros k d' Hk Hd; destruct (Hall k Hk) as (c & Hin & Hkc);
        unfold restoreCalls in Hkc;
        destruct (isToneParam w (destination c)) eqn:Htc; cbn [app] in Hkc;
        repeat (apply elem_of_cons in Hkc as [->|Hkc]);
        try (by apply elem_of_nil in Hkc);
        cbn [driven flagged] in Hd; try discriminate;
        injection Hd as <-; try done; by apply Hsel. }
    destruct (disconnected_cases s d o i w) as [-> | (l & Hl & Hg)].
    { split; [done|]. split; [done|]. split; [done|].
      exists [Call_disconnect s d o i]. split; [done|].
      split; intros k d' ->%list_elem_of_singleton Hd; discriminate. }
    split; [|split; [|split]].
    + intros c Hc.
      destruct (live_disconnected s d o i w l c Hl Hg Hc) as (s' & l' & Hl' & Hc' & _).
      rewrite (disconnected_overridable s d o i w l) by done.
      apply Hw. by exists s', l'.
    + intros r. by apply (disconnected_overridable s d o i w l).
    + intros r. by apply (disconnected_isToneParam s d o i w l).
    + eexists. split; [by apply (disconnected_calls s d o i w l)|].
      assert (Hsel : forall c, c ∈ selected d o i l ->
                               overridable w (destination c) = true).
      { intros c Hc. apply Hw. exists s, l. split; [done|].
        by eapply selected_subseteq. }
      split; intros k d' Hk Hd.
      * apply elem_of_app in Hk as [Hk|Hk].
        -- apply list_elem_of_In, in_flat_map in Hk as (c & Hc & Hk).
           apply list_elem_of_In in Hc, Hk. unfold restoreCalls in Hk.
           destruct (isToneParam w (destination c)); cbn [app] in Hk;
             repeat (apply elem_of_cons in Hk as [->|Hk]);
             try (by apply elem_of_nil in Hk);
             cbn [driven] in Hd; injection Hd as <-; by apply Hsel.
        -- apply list_elem_of_singleton in Hk as ->. discriminate.
      * apply elem_of_app in Hk as [Hk|Hk].
        -- apply list_elem_of_In, in_flat_map in Hk as (c & Hc & Hk).
           apply list_elem_of_In in Hk. unfold restoreCalls in Hk.
           destruct (isToneParam w (destination c)) eqn:Ht; cbn [app] in Hk;
             repeat (apply elem_of_cons in Hk as [->|Hk]);
             try (by apply elem_of_nil in Hk);
             cbn [flagged] in Hd; try discriminate.
           by injection Hd as <-.
        -- apply list_elem_of_singleton in Hk as ->. discriminate.
Qed.

(** X8.  Over any sequence of [connectSignal] and [disconnectSignal] calls,
    started where every record held is for a destination that passes the
    test of [connectSignal]: every value read, schedule cancelled, value set
    and [overridden] assignment that the calls make is on a destination
    that passes that test, and every [overridden] assignment is on a
    [Param] or a [Signal]; a node that is no parameter and a [Signal]
    whose [override] is off are only ever wired and unwired.  Every record
    held at the end is for a destination that passes the test. *)
Theorem only_parameters_driven (ops : list Op) (w : World) :
  recordsOverridable w ->
  recordsOverridable (run ops w) /\
  exists added,
    calls (run ops w) = calls w ++ added /\
    (forall k d, k ∈ added -> driven k = Some d -> overridable w d = true) /\
    (forall k d, k ∈ added -> flagged k = Some d -> isToneParam w d = true).
Proof.
  revert w. induction ops as [|op ops IH]; intros w Hw.
  { split; [done|]. exists []. cbn [run foldl]. rewrite app_nil_r.
    split; [done|]. split; intros k d Hk; by apply elem_of_nil in Hk. }
  cbn [run foldl].
  destruct (recordsOverridable_step op w Hw)
    as (Hw' & Hov & Hto & added1 & Hc1 & Hd1 & Hf1).
  destruct (IH _ Hw') as (Hend & added2 & Hc2 & Hd2 & Hf2).
  split; [exact Hend|].
  exists (added1 ++ added2). split; [|split].
  - unfold run in Hc2. rewrite Hc2, Hc1. by rewrite app_assoc.
  - intros k d [Hk|Hk]%elem_of_app Hd; [by eapply Hd1|].
    rewrite <- Hov. by eapply Hd2.
  - intros k d [Hk|Hk]%elem_of_app Hd; [by eapply Hf1|].
    rewrite <- Hto. by eapply Hf2.
Qed.

(** ** Witnesses of the further properties *)

Lemma startWorld_no_record (this : nat) (d : Ref) :
  forall l c, connectedSignals startWorld !! this = Some l -> c ∈ l ->
              destination c <> d.
Proof. intros l c Hl. discriminate Hl. Qed.


Lemma startWorld_distinctIdents : distinctIdents startWorld.
Proof. intros s l Hl. discriminate Hl. Qed.

Lemma startWorld_recordsOverridable : recordsOverridable startWorld.
Proof. intros c (s & l & Hl & _). discriminate Hl. Qed.

Lemma recordedWorld_disconnects :
  disconnectSignal 0 (Some (Direct 1)) None None recordedWorld
  = Returns tt (disconnected 0 (Some (Direct 1)) None None recordedWorld).
Proof.
  rewrite disconnectSignal_restorable by reflexivity. unfold unmatched.
  change (guard recordedWorld (Some (Direct 1))) with true.
  change (connectedSignals recordedWorld !! 0)
    with (Some [mkConnection 0 (Direct 1) 0 0 3]).
  cbn [andb selected]. rewrite filter_cons_True by (simpl; tauto).
  by rewrite bool_decide_eq_false_2.
Qed.

Lemma connect_disconnect_roundtrip_witness :
  exists w1 w2,
    Signal_connect 0 (Direct 1) None None startWorld = Returns tt w1 /\
    Signal_disconnect 0 (Some (Direct 1)) None None w1 = Returns tt w2 /\
    readOverridden w2 (Direct 1) = Some false /\
    connectedSignals w2 !! 0 = Some [].
Proof.
  destruct (connect_disconnect_roundtrip startWorld 0 (Direct 1)
              (Param.create 3 None None)
              startWorld_overridable startWorld_paramOf (within_unbounded 3 0)
              startWorld_distinctIdents (startWorld_no_record 0 (Direct 1)))
    as (w1 & w2 & H1 & H2 & _ & Hf & Hl).
  exists w1, w2. split; [exact H1|]. split; [exact H2|]. split; [exact Hf|exact Hl].
Defined.

Lemma roundtrip_leaves_constant_witness :
  readValue startWorld (Direct 1) = 3%R /\
  exists w1 w2 p2,
    Signal_connect 0 (Direct 1) None None startWorld = Returns tt w1 /\
    Signal_disconnect 0 (Some (Direct 1)) None None w1 = Returns tt w2 /\
    paramOf w2 (Direct 1) = Some p2 /\
    Param.getValueAtTime p2 10 = readValue startWorld (Direct 1).
Proof.
  split; [reflexivity|].
  destruct (roundtrip_leaves_constant startWorld 0 (Direct 1)
              (Param.create 3 None None) startWorld_paramOf startWorld_overridable
              (within_unbounded 3 0) (startWorld_no_record 0 (Direct 1)))
    as (w1 & w2 & p2 & H1 & H2 & Hp & _ & Hv).
  exists w1, w2, p2. split; [exact H1|]. split; [exact H2|]. split; [exact Hp|].
  apply Hv. lra.
Defined.

Lemma disconnect_twice_throws_witness :
  disconnectSignal 0 (Some (Direct 1)) None None
    (disconnected 0 (Some (Direct 1)) None None recordedWorld)
  = Throws NotConnected (disconnected 0 (Some (Direct 1)) None None recordedWorld).
Proof.
  apply (disconnect_twice_throws recordedWorld 0 (Some (Direct 1)) None None
           [mkConnection 0 (Direct 1) 0 0 3]).
  - reflexivity.
  - reflexivity.
  - exact recordedWorld_disconnects.
Defined.


Lemma disconnectSignal_frame_witness :
  now (disconnected 0 (Some (Direct 1)) None None recordedWorld) = now recordedWorld /\
  resolve (disconnected 0 (Some (Direct 1)) None None recordedWorld) (Direct 0)
  = resolve recordedWorld (Direct 0).
Proof.
  destruct (disconnectSignal_frame recordedWorld 0 (Some (Direct 1)) None None _
              recordedWorld_disconnects) as [Hnow Hres].
  split; [exact Hnow|]. apply Hres.
  intros l c [= <-] Hc. cbn [selected] in Hc.
  apply list_elem_of_filter in Hc as [_ Hc].
  apply list_elem_of_singleton in Hc as ->. discriminate.
Defined.


Lemma only_parameters_driven_witness :
  recordsOverridable (run twoInputs startWorld) /\
  exists added,
    calls (run twoInputs startWorld) = calls startWorld ++ added /\
    (forall k d, k ∈ added -> driven k = Some d ->
                 overridable startWorld d = true).
Proof.
  destruct (only_parameters_driven twoInputs startWorld
              startWorld_recordsOverridable) as (Hend & added & Hc & Hd & _).
  split; [exact Hend|]. exists added. split; [exact Hc|exact Hd].
Defined.

(** * Properties of the sampler *)

Module SamplerFacts.
Import Sampler.
Local Open Scope Z_scope.

Section search.
Variable has : Z -> bool.
Variable midi : Z.

Lemma search_Return (n : nat) (j d : Z) :
  search has midi j n = Return d <->
  exists u : Z,
    (j <= u < j + Z.of_nat n)%Z /\
    (forall v, (j <= v < u)%Z -> has (midi + v) = false /\ has (midi - v) = false) /\
    ((d = (- u)%Z /\ has (midi + u) = true) \/
     (d = u /\ has (midi + u) = false /\ has (midi - u) = true)).
Proof.
  revert j. induction n as [|n IH]; intros j.
  { cbn [search]. split; [discriminate|]. intros (u & Hu & _). lia. }
  cbn [search].
  destruct (has (midi + j)) eqn:Hup.
  { split.
    - intros [= <-]. exists j. split; [lia|]. split; [intros v Hv; lia|].
      left. done.
    - intros (u & Hu & Hbelow & Hat).
      destruct (decide (u = j)) as [->|Hne].
      + destruct Hat as [[-> _]|[_ [Hno _]]]; [done|congruence].
      + destruct (Hbelow j) as [Hno _]; [lia|congruence]. }
  destruct (has (midi - j)) eqn:Hdn.
  { split.
    - intros [= <-]. exists j. split; [lia|]. split; [intros v Hv; lia|].
      right. done.
    - intros (u & Hu & Hbelow & Hat).
      destruct (decide (u = j)) as [->|Hne].
      + destruct Hat as [[_ Hyes]|[-> _]]; [congruence|done].
      + destruct (Hbelow j) as [_ Hno]; [lia|congruence]. }
  rewrite IH. split.
  - intros (u & Hu & Hbelow & Hat). exists u. split; [lia|]. split; [|done].
    intros v Hv. destruct (decide (v = j)) as [->|Hne]; [done|].
    apply Hbelow. lia.
  - intros (u & Hu & Hbelow & Hat).
    assert (u <> j) as Hne.
    { intros ->. destruct Hat as [[_ ?]|[_ [_ ?]]]; congruence. }
    exists u. split; [lia|]. split; [|done].
    intros v Hv. apply Hbelow. lia.
Qed.

Lemma search_NoAvailableBuffers (n : nat) (j m : Z) :
  search has midi j n = NoAvailableBuffers m <->
  m = midi /\
  forall v, (j <= v < j + Z.of_nat n)%Z ->
            has (midi + v) = false /\ has (midi - v) = false.
Proof.
  revert j. induction n as [|n IH]; intros j.
  { cbn [search]. split.
    - intros [= <-]. split; [done|]. intros v Hv. lia.
    - intros [-> _]. done. }
  cbn [search].
  destruct (has (midi + j)) eqn:Hup.
  { split; [discriminate|]. intros [_ Hall].
    destruct (Hall j) as [Hno _]; [lia|congruence]. }
  destruct (has (midi - j)) eqn:Hdn.
  { split; [discriminate|]. intros [_ Hall].
    destruct (Hall j) as [_ Hno]; [lia|congruence]. }
  rewrite IH. split.
  - intros [-> Hall]. split; [done|]. intros v Hv.
    destruct (decide (v = j)) as [->|Hne]; [done|]. apply Hall. lia.
  - intros [-> Hall]. split; [done|]. intros v Hv. apply Hall. lia.
Qed.

End search.

(** X9.  [_findClosest(midi)] returns [d] exactly when [d] is within 95
    semitones either way, the note [midi - d] has a buffer, no note
    strictly closer to [midi] has one and, when [d] is positive (the note
    found is below [midi]), the note as far above [midi] has none: of two
    notes at the same distance the upper one is taken.  So the note that
    [triggerAttack] then fetches, [midi - d], always has a buffer. *)
Theorem findClosest_nearest (has : Z -> bool) (midi d : Z) :
  _findClosest has midi = Return d <->
  (Z.abs d < MAX_INTERVAL)%Z /\
  has (midi - d) = true /\
  (forall k, (Z.abs (k - midi) < Z.abs d)%Z -> has k = false) /\
  ((0 < d)%Z -> has (midi + d) = false).
Proof.
  unfold _findClosest, MAX_INTERVAL. rewrite search_Return. split.
  - intros (u & Hu & Hbelow & Hat).
    assert (Hd : Z.abs d = u) by (destruct Hat as [[-> _]|[-> _]]; lia).
    split; [lia|]. split; [|split].
    + destruct Hat as [[-> Hyes]|[-> [_ Hyes]]]; [|done].
      by replace (midi - - u)%Z with (midi + u)%Z by lia.
    + intros k Hk. rewrite Hd in Hk.
      destruct (Hbelow (Z.abs (k - midi))) as [Hup Hdn]; [lia|].
      destruct (Z.abs_spec (k - midi)) as [[Hge E]|[Hlt E]]; rewrite E in *.
      * by replace (midi + (k - midi))%Z with k in Hup by lia.
      * by replace (midi - - (k - midi))%Z with k in Hdn by lia.
    + intros Hpos. destruct Hat as [[-> _]|[-> [Hno _]]]; [lia|done].
  - intros (Hlt & Hyes & Hcloser & Htie). exists (Z.abs d).
    split; [lia|]. split.
    + intros v Hv. split; apply Hcloser; lia.
    + destruct (Z_lt_le_dec 0 d) as [Hpos|Hneg].
      * right. rewrite Z.abs_eq by lia. split; [done|]. split; [by apply Htie|done].
      * left. rewrite Z.abs_neq by lia. split; [lia|].
        by replace (midi + - d)%Z with (midi - d)%Z by lia.
Qed.

(** X10.  [_findClosest(midi)] throws exactly when no note within 95
    semitones of [midi], either way, has a buffer; the error names [midi].
    A buffer exactly eight octaves (96 semitones) away is not found. *)
Theorem findClosest_throws (has : Z -> bool) (midi m : Z) :
  _findClosest has midi = NoAvailableBuffers m <->
  m = midi /\
  forall k, (Z.abs (k - midi) < MAX_INTERVAL)%Z -> has k = false.
Proof.
  unfold _findClosest, MAX_INTERVAL. rewrite search_NoAvailableBuffers. split.
  - intros [-> Hall]. split; [done|]. intros k Hk.
    destruct (Hall (Z.abs (k - midi))) as [Hup Hdn]; [lia|].
    destruct (Z.abs_spec (k - midi)) as [[Hge E]|[Hlt E]]; rewrite E in *.
    + by replace (midi + (k - midi))%Z with k in Hup by lia.
    + by replace (midi - - (k - midi))%Z with k in Hdn by lia.
  - intros [-> Hall]. split; [done|]. intros v Hv. split; apply Hall; lia.
Qed.

End SamplerFacts.

(** * Properties of the flow-field sketch *)

Module SketchFacts.
Import Sketch.
Local Open Scope R_scope.

Lemma constrain_range (n low high : R) :
  low <= high -> low <= constrain n low high <= high.
Proof.
  intros Hle. unfold constrain, Rmax, Rmin.
  repeat destruct (Rle_dec _ _); lra.
Qed.

Lemma constrainZ_range (n low high : Z) :
  (low <= high)%Z -> (low <= constrainZ n low high <= high)%Z.
Proof. unfold constrainZ. lia. Qed.

Lemma constrainZ_inside (n low high : Z) :
  (low <= n <= high)%Z -> constrainZ n low high = n.
Proof. unfold constrainZ. lia. Qed.

Lemma floor_spec (r : R) : IZR (floor r) <= r < IZR (floor r) + 1.
Proof. unfold floor. destruct (base_Int_part r). lra. Qed.

Lemma ceil_spec (r : R) : IZR (ceil r) - 1 < r <= IZR (ceil r).
Proof.
  unfold ceil. destruct (base_Int_part (- r)). rewrite opp_IZR. lra.
Qed.

Lemma floor_le_ceil (a b : R) : a <= b -> (floor a <= ceil b)%Z.
Proof.
  intros Hab. destruct (floor_spec a) as [Ha _]. destruct (ceil_spec b) as [_ Hb].
  apply le_IZR. lra.
Qed.

Lemma floor_nonneg (a : R) : 0 <= a -> (0 <= floor a)%Z.
Proof.
  intros Ha. destruct (floor_spec a) as [_ Hlt].
  assert (-1 < IZR (floor a)) as H by lra.
  apply lt_IZR in H. lia.
Qed.

Lemma div_nonneg (a b : R) : 0 <= a -> 0 < b -> 0 <= a / b.
Proof.
  intros Ha Hb. unfold Rdiv. apply Rmult_le_pos; [done|].
  left. by apply Rinv_0_lt_compat.
Qed.

Lemma div_le (a b c : R) : a <= b -> 0 < c -> a / c <= b / c.
Proof.
  intros Hab Hc. unfold Rdiv. apply Rmult_le_compat_r; [|done].
  left. by apply Rinv_0_lt_compat.
Qed.

(** ** [Particle.edges] *)

(** X11.  On a canvas whose width and height are not negative, [edges]
    leaves the particle on the canvas, borders included, wherever it was;
    a second call then changes nothing. *)
Theorem edges_on_canvas (width height : R) (p : Particle) :
  0 <= width -> 0 <= height ->
  0 <= x (pos (edges width height p)) <= width /\
  0 <= y (pos (edges width height p)) <= height /\
  edges width height (edges width height p) = edges width height p.
Proof.
  intros Hw Hh. destruct p as [[px py] [qx qy] [vx vy] a m s h l].
  unfold edges. cbn [pos prev vel x y set_pos set_prev set_x set_y].
  repeat (case_decide; cbn [pos prev vel acc x y set_pos set_prev set_vel set_x set_y]);
    try lra; (split; [lra|]); (split; [lra|]); reflexivity.
Qed.

(** X12.  What [edges] does on each axis: a coordinate below [0] becomes
    the far border and one beyond the far border becomes [0]; on an axis
    that was wrapped the previous position is moved onto the new one, and
    on an axis that was not, neither is changed.  The velocity is halved,
    once, when either axis was wrapped, and kept otherwise; nothing else
    of the particle is changed. *)
Theorem edges_wraps (width height : R) (p : Particle) :
  let p' := edges width height p in
  x (pos p') = (if decide (x (pos p) < 0) then width
                else if decide (x (pos p) > width) then 0 else x (pos p)) /\
  y (pos p') = (if decide (y (pos p) < 0) then height
                else if decide (y (pos p) > height) then 0 else y (pos p)) /\
  x (prev p') = (if decide (x (pos p) < 0 \/ x (pos p) > width)
                 then x (pos p') else x (prev p)) /\
  y (prev p') = (if decide (y (pos p) < 0 \/ y (pos p) > height)
                 then y (pos p') else y (prev p)) /\
  vel p' = (if decide ((x (pos p) < 0 \/ x (pos p) > width) \/
                       (y (pos p) < 0 \/ y (pos p) > height))
            then mult 0.5 (vel p) else vel p) /\
  acc p' = acc p /\ maxSpeed p' = maxSpeed p /\ size p' = size p /\
  hue p' = hue p /\ life p' = life p.
Proof.
  destruct p as [[px py] [qx qy] [vx vy] a m s h l].
  unfold edges. cbn [pos prev vel x y set_pos set_prev set_x set_y].
  repeat (case_decide;
          cbn [pos prev vel acc maxSpeed size hue life x y
               set_pos set_prev set_vel set_x set_y]);
    try (exfalso; lra); try tauto; repeat split; try reflexivity; try lra.
Qed.

(** ** [fbm] *)

(** X13.  With a [noise] whose values lie between [0] and [1], as p5's
    do, [fbm] lies between [0] and [31/32]: the five octaves weigh
    [1/2], [1/4], [1/8], [1/16] and [1/32]. *)
Theorem fbm_range (noise : R -> R -> R -> R) (a b c : R) :
  (forall u v w, 0 <= noise u v w <= 1) ->
  0 <= fbm noise a b c <= 31 / 32.
Proof.
  intros Hn. unfold fbm. cbn [fbm_loop].
  repeat match goal with
         | |- context [noise ?u ?v ?w] =>
             let Hv := fresh "Hv" in
             let n := fresh "n" in
             pose proof (Hn u v w) as Hv;
             set (n := noise u v w) in *; clearbody n
         end.
  lra.
Qed.

(** ** The field *)

Section field.
Variable noise : R -> R -> R -> R.
Variable fromAngle : R -> Vector.
Variable setMag : R -> Vector -> Vector.

Local Abbreviation update := (Sketch.update noise fromAngle setMag).
Local Abbreviation cell := (Sketch.cell noise fromAngle setMag).
Local Abbreviation react := (Sketch.react noise fromAngle setMag).

(** The inner loop of [update], over the rows of column [c]. *)
Lemma update_column (f : FlowField) (time : R) (c : Z) (n : nat) (i : Z)
    (vs : gmap Z Vector) :
  exists vs',
    foldl (fun '(i, vs) r => ((i + 1)%Z, <[i := cell f time c r]> vs))
          (i, vs) (seqZ 0 (Z.of_nat n)) = ((i + Z.of_nat n)%Z, vs') /\
    forall k, vs' !! k = if decide (i <= k < i + Z.of_nat n)%Z
                         then Some (cell f time c (k - i))
                         else vs !! k.
Proof.
  induction n as [|n (vs' & Hfold & Hvs')].
  { exists vs. rewrite seqZ_nil by lia. cbn [foldl]. split; [f_equal; lia|].
    intros k. case_decide; [lia|done]. }
  exists (<[(i + Z.of_nat n)%Z := cell f time c (Z.of_nat n)]> vs').
  rewrite seqZ_S, foldl_app, Hfold. cbn [foldl]. split.
  { rewrite Z.add_0_l. f_equal. lia. }
  intros k. destruct (decide (k = i + Z.of_nat n)%Z) as [->|Hne].
  - rewrite lookup_insert_eq. rewrite decide_True by lia. do 2 f_equal. lia.
  - rewrite lookup_insert_ne by done. rewrite Hvs'.
    repeat case_decide; try lia; done.
Qed.

(** The outer loop, over the first [m] columns. *)
Lemma update_columns (f : FlowField) (time : R) (rows : nat) (m : nat) :
  exists vs',
    foldl (fun st c =>
             foldl (fun '(i, vs) r => ((i + 1)%Z, <[i := cell f time c r]> vs))
                   st (seqZ 0 (Z.of_nat rows)))
          (0%Z, vectors f) (seqZ 0 (Z.of_nat m))
    = ((Z.of_nat m * Z.of_nat rows)%Z, vs') /\
    forall k, vs' !! k = if decide (0 <= k < Z.of_nat m * Z.of_nat rows)%Z
                         then Some (cell f time (k / Z.of_nat rows)
                                               (k mod Z.of_nat rows))
                         else vectors f !! k.
Proof.
  induction m as [|m (vs' & Hfold & Hvs')].
  { exists (vectors f). rewrite (seqZ_nil 0 (Z.of_nat 0)) by lia. cbn [foldl]. split; [done|].
    intros k. case_decide; [lia|done]. }
  destruct (update_column f time (Z.of_nat m) rows (Z.of_nat m * Z.of_nat rows) vs')
    as (vs'' & Hcol & Hvs'').
  exists vs''. rewrite (seqZ_S 0 m), foldl_app, Hfold. cbn [foldl].
  rewrite Z.add_0_l, Hcol. split; [f_equal; lia|].
  intros k. rewrite Hvs''.
  destruct (decide (Z.of_nat m * Z.of_nat rows <= k
                    < Z.of_nat m * Z.of_nat rows + Z.of_nat rows)%Z) as [Hin|Hout].
  - rewrite decide_True by lia. f_equal.
    assert (k / Z.of_nat rows = Z.of_nat m)%Z as ->.
    { symmetry. apply (Z.div_unique k _ _ (k - Z.of_nat m * Z.of_nat rows)); lia. }
    assert (k mod Z.of_nat rows = k - Z.of_nat m * Z.of_nat rows)%Z as ->.
    { symmetry. apply (Z.mod_unique k _ (Z.of_nat m)); lia. }
    done.
  - rewrite Hvs'. repeat case_decide; try lia; done.
Qed.

Lemma update_vectors (f : FlowField) (time : R) (k : Z) :
  (0 <= cols f)%Z -> (0 <= rows f)%Z ->
  vectors (update time f) !! k
  = if decide (0 <= k < cols f * rows f)%Z
    then Some (cell f time (k / rows f) (k mod rows f))
    else vectors f !! k.
Proof.
  intros Hc Hr.
  destruct (update_columns f time (Z.to_nat (rows f)) (Z.to_nat (cols f)))
    as (vs' & Hfold & Hvs').
  rewrite !Z2Nat.id in Hfold, Hvs' by done.
  unfold Sketch.update. rewrite Hfold. cbn [vectors set_vectors]. apply Hvs'.
Qed.

Lemma index_range (pos : Vector) (f : FlowField) :
  (1 <= cols f)%Z -> (1 <= rows f)%Z ->
  (0 <= index pos f < cols f * rows f)%Z.
Proof.
  intros Hc Hr. unfold index.
  pose proof (constrainZ_range (floor (x pos / res f)) 0 (cols f - 1)) as H1.
  pose proof (constrainZ_range (floor (y pos / res f)) 0 (rows f - 1)) as H2.
  nia.
Qed.

(** X14.  [update] then [lookup], on a field of at least one column and
    one row: the index that [lookup] computes is one of the slots that
    [update] has written, so the fallback vector is not returned.
    [update] numbers the cells column after column ([x * rows + y]) and
    [lookup] reads them row after row ([col + row * cols]): the vector
    returned for the cell in column [col] and row [row] is the one computed
    for column [idx / rows] and row [idx mod rows], with
    [idx = col + row * cols].  On a square grid that is the cell with
    column and row exchanged. *)
Theorem lookup_update (f : FlowField) (time : R) (pos : Vector) :
  (1 <= cols f)%Z -> (1 <= rows f)%Z ->
  let col := constrainZ (floor (x pos / res f)) 0 (cols f - 1) in
  let row := constrainZ (floor (y pos / res f)) 0 (rows f - 1) in
  let idx := (col + row * cols f)%Z in
  is_Some (vectors (update time f) !! index pos (update time f)) /\
  lookup pos (update time f) = cell f time (idx / rows f) (idx mod rows f) /\
  (rows f = cols f -> lookup pos (update time f) = cell f time row col).
Proof.
  intros Hc Hr col row idx.
  assert (Hidx : index pos (update time f) = idx).
  { unfold Sketch.update. destruct (foldl _ _ _). reflexivity. }
  assert (Hrange : (0 <= idx < cols f * rows f)%Z).
  { rewrite <- Hidx.
    assert (index pos (update time f) = index pos f) as ->
      by (unfold Sketch.update; destruct (foldl _ _ _); reflexivity).
    by apply index_range. }
  assert (Hlook : vectors (update time f) !! idx
                  = Some (cell f time (idx / rows f) (idx mod rows f))).
  { rewrite update_vectors by lia. by rewrite decide_True. }
  split; [rewrite Hidx, Hlook; eauto|].
  assert (Hval : lookup pos (update time f)
                 = cell f time (idx / rows f) (idx mod rows f)).
  { unfold lookup. cbn zeta. by rewrite Hidx, Hlook. }
  split; [exact Hval|].
  intros Hsq. rewrite Hval.
  pose proof (constrainZ_range (floor (x pos / res f)) 0 (cols f - 1)) as H1.
  fold col in H1.
  assert (idx / rows f = row)%Z as ->.
  { symmetry. apply (Z.div_unique idx _ _ col); unfold idx; rewrite Hsq; lia. }
  assert (idx mod rows f = col)%Z as ->.
  { symmetry. apply (Z.mod_unique idx _ row); unfold idx; rewrite Hsq; lia. }
  done.
Qed.

End field.

Lemma edges_inside (width height : R) (p : Particle) :
  0 <= width -> 0 <= height ->
  0 <= x (pos (edges width height p)) <= width /\
  0 <= y (pos (edges width height p)) <= height.
Proof.
  intros Hw Hh. destruct p as [[px py] [qx qy] [vx vy] a m s h l].
  unfold edges. cbn [pos prev vel x y set_pos set_prev set_x set_y].
  repeat (case_decide; cbn [pos prev vel acc x y set_pos set_prev set_vel set_x set_y]);
    lra.
Qed.

Lemma constructor_vectors (width height res0 : R) (k : Z) :
  let f := FlowField_constructor width height res0 in
  vectors f !! k
  = if decide (0 <= k < cols f * rows f)%Z then Some (createVector 0 0) else None.
Proof.
  cbn zeta. unfold FlowField_constructor. cbn [vectors cols rows].
  set (n := ((ceil (width / res0) + 1) * (ceil (height / res0) + 1))%Z).
  case_decide as Hk.
  - apply elem_of_list_to_map.
    + rewrite <- list_fmap_compose.
      rewrite (list_fmap_ext _ (fun i : Z => i) (seqZ 0 n) ) by done.
      rewrite list_fmap_id. apply NoDup_seqZ.
    + apply list_elem_of_fmap. exists k. split; [done|]. apply elem_of_seqZ. lia.
  - apply not_elem_of_list_to_map_1. rewrite <- list_fmap_compose.
    intros Hin. apply list_elem_of_fmap in Hin as (j & -> & Hj).
    apply elem_of_seqZ in Hj. cbn in Hk. lia.
Qed.

Lemma constructor_size (width height res0 : R) :
  0 < res0 -> 0 <= width -> 0 <= height ->
  (1 <= cols (FlowField_constructor width height res0))%Z /\
  (1 <= rows (FlowField_constructor width height res0))%Z.
Proof.
  intros Hr Hw Hh. cbn [FlowField_constructor cols rows].
  pose proof (floor_le_ceil (width / res0) (width / res0) (Rle_refl _)).
  pose proof (floor_le_ceil (height / res0) (height / res0) (Rle_refl _)).
  pose proof (floor_nonneg (width / res0) (div_nonneg _ _ Hw Hr)).
  pose proof (floor_nonneg (height / res0) (div_nonneg _ _ Hh Hr)).
  lia.
Qed.

Section inputs.
Variable noise : R -> R -> R -> R.
Variable fromAngle : R -> Vector.
Variable setMag : R -> Vector -> Vector.

Local Abbreviation update := (Sketch.update noise fromAngle setMag).
Local Abbreviation react := (Sketch.react noise fromAngle setMag).

Lemma update_frame (f : FlowField) (time : R) :
  res (update time f) = res f /\ cols (update time f) = cols f /\
  rows (update time f) = rows f /\ scale (update time f) = scale f.
Proof. unfold Sketch.update. destruct (foldl _ _ _). done. Qed.

Lemma react_invariant (f : FlowField) (i : Input) :
  (1 <= cols f)%Z -> (1 <= rows f)%Z -> filled f ->
  res (react f i) = res f /\ cols (react f i) = cols f /\
  rows (react f i) = rows f /\ filled (react f i) /\
  (0.0004 <= scale f <= 0.01 -> 0.0004 <= scale (react f i) <= 0.01).
Proof.
  intros Hc Hr Hf. destruct i as [t|m d]; cbn [Sketch.react].
  - destruct (update_frame f (t * 0.2)) as (-> & Ec & Er & ->).
    split; [done|]. split; [done|]. split; [done|]. split; [|done].
    intros k. rewrite Ec, Er, (update_vectors noise fromAngle setMag) by lia.
    case_decide; [|by apply Hf]. split; [done|eauto].
  - unfold mouseWheel. destruct m; [|done].
    cbn [res cols rows scale vectors set_scale].
    split; [done|]. split; [done|]. split; [done|]. split; [exact Hf|].
    intros _. apply constrain_range. lra.
Qed.

(** X15.  A field made by the constructor for a canvas of nonnegative
    size and a positive cell size, after any sequence of frames and wheel
    events: its cell size and its numbers of columns and rows are those of
    the constructor, its noise scale lies between [0.0004] and [0.01], and
    its array holds a vector in each of its [cols * rows] slots and
    nothing else, so that [lookup] never returns its fallback vector. *)
Theorem field_invariant (width height res0 : R) (inputs : list Input) :
  0 < res0 -> 0 <= width -> 0 <= height ->
  let f := foldl react (FlowField_constructor width height res0) inputs in
  res f = res0 /\
  cols f = (ceil (width / res0) + 1)%Z /\
  rows f = (ceil (height / res0) + 1)%Z /\
  0.0004 <= scale f <= 0.01 /\
  (forall k, is_Some (vectors f !! k) <-> (0 <= k < cols f * rows f)%Z) /\
  (forall pos, is_Some (vectors f !! index pos f)).
Proof.
  intros Hr Hw Hh.
  destruct (constructor_size width height res0 Hr Hw Hh) as [Hc0 Hr0].
  set (f0 := FlowField_constructor width height res0) in *.
  assert (Hinv : forall f, res f = res0 /\ cols f = cols f0 /\ rows f = rows f0 /\
                           0.0004 <= scale f <= 0.01 /\ filled f ->
                 let f' := foldl react f inputs in
                 res f' = res0 /\ cols f' = cols f0 /\ rows f' = rows f0 /\
                 0.0004 <= scale f' <= 0.01 /\ filled f').
  { induction inputs as [|i inputs IH]; intros f Hf; [exact Hf|].
    cbn [foldl]. apply IH.
    destruct Hf as (E1 & E2 & E3 & Hs & Hfill).
    destruct (react_invariant f i) as (R1 & R2 & R3 & R4 & R5);
      [lia|lia|done|].
    rewrite R1, R2, R3. split; [done|]. split; [done|]. split; [done|].
    split; [by apply R5|exact R4]. }
  destruct (Hinv f0) as (E1 & E2 & E3 & Hs & Hfill).
  { split; [done|]. split; [done|]. split; [done|]. split.
    - cbn [f0 FlowField_constructor scale]. lra.
    - intros k. unfold f0. rewrite constructor_vectors. fold f0.
      case_decide; [split; [done|eauto]|].
      split; [intros [? [=]]|done]. }
  cbn zeta. split; [done|]. split; [done|]. split; [done|]. split; [done|].
  split; [exact Hfill|].
  intros pos. apply Hfill. apply index_range; lia.
Qed.

End inputs.

(** X16.  [edges] then [lookup]: for a particle that [edges] has put back
    on a canvas of nonnegative size, and a field with a positive cell size
    and the numbers of columns and rows that the constructor gives it for
    that canvas, the two [constrain] of [lookup] change nothing: the cell
    looked up is the one of [floor(pos.x / res)] and [floor(pos.y / res)]. *)
Theorem lookup_on_canvas (width height : R) (f : FlowField) (p : Particle) :
  0 < res f -> 0 <= width -> 0 <= height ->
  cols f = (ceil (width / res f) + 1)%Z ->
  rows f = (ceil (height / res f) + 1)%Z ->
  let pos' := pos (edges width height p) in
  index pos' f = (floor (x pos' / res f) + floor (y pos' / res f) * cols f)%Z.
Proof.
  intros Hr Hw Hh Hc Hrows pos'.
  destruct (edges_inside width height p Hw Hh) as [[Hx0 Hx1] [Hy0 Hy1]].
  fold pos' in Hx0, Hx1, Hy0, Hy1.
  unfold index.
  rewrite !constrainZ_inside; [done| |].
  - split; [apply floor_nonneg, div_nonneg; done|].
    rewrite Hrows. pose proof (floor_le_ceil (y pos' / res f) (height / res f)) as H.
    specialize (H (div_le _ _ _ Hy1 Hr)). lia.
  - split; [apply floor_nonneg, div_nonneg; done|].
    rewrite Hc. pose proof (floor_le_ceil (x pos' / res f) (width / res f)) as H.
    specialize (H (div_le _ _ _ Hx1 Hr)). lia.
Qed.

(** X17.  A wheel event with no Control key held is not handled: the
    test of [mouseWheel] goes on to [keyIsDown(META)], [META] is a name
    that nothing declares, and the ReferenceError leaves the field as it
    was.  With a Control key held the handler returns, whatever the size of
    the turn and whatever the scale was before: the noise scale of the
    field is then the old one plus [0.2 * 0.000002] times the turn, held
    between [0.0004] and [0.01], and nothing else of the field is changed;
    from a scale within these bounds, a turn that is not negative does not
    lower the scale and one that is not positive does not raise it. *)
Theorem mouseWheel_clamps (delta : R) (flow : FlowField) :
  mouseWheel false delta flow = ReferenceError /\
  (forall noise fromAngle setMag,
     react noise fromAngle setMag flow (Wheel false delta) = flow) /\
  exists flow',
    mouseWheel true delta flow = Handled flow' /\
    scale flow' = constrain (scale flow + delta * 0.2 * 0.000002) 0.0004 0.01 /\
    0.0004 <= scale flow' <= 0.01 /\
    res flow' = res flow /\ cols flow' = cols flow /\ rows flow' = rows flow /\
    vectors flow' = vectors flow /\
    (0.0004 <= scale flow <= 0.01 -> 0 <= delta -> scale flow <= scale flow') /\
    (0.0004 <= scale flow <= 0.01 -> delta <= 0 -> scale flow' <= scale flow).
Proof.
  split; [reflexivity|]. split; [reflexivity|].
  eexists. split; [reflexivity|].
  cbn [res cols rows scale vectors set_scale].
  split; [reflexivity|].
  split; [apply constrain_range; lra|].
  split; [done|]. split; [done|]. split; [done|]. split; [done|].
  unfold constrain, Rmax, Rmin.
  split; intros Hs Hd; repeat destruct (Rle_dec _ _); lra.
Qed.

(** ** Witnesses *)

Lemma edges_on_canvas_witness :
  0 <= x (pos (edges 40 30 aParticle)) <= 40 /\
  0 <= y (pos (edges 40 30 aParticle)) <= 30 /\
  edges 40 30 (edges 40 30 aParticle) = edges 40 30 aParticle.
Proof. apply (edges_on_canvas 40 30 aParticle); lra. Defined.

Lemma fbm_range_witness :
  0 <= fbm (fun _ _ _ => 1 / 2) 1 2 3 <= 31 / 32.
Proof. apply (fbm_range (fun _ _ _ => 1 / 2) 1 2 3). intros _ _ _. lra. Defined.

Lemma lookup_update_witness :
  is_Some (vectors (update (fun _ _ _ => 0) (fun a => createVector (cos a) (sin a))
                           (fun _ v => v) 1 (mkFlowField 22 3 2 ∅ 0.0016))
           !! index (createVector 30 5)
                    (update (fun _ _ _ => 0) (fun a => createVector (cos a) (sin a))
                            (fun _ v => v) 1 (mkFlowField 22 3 2 ∅ 0.0016))).
Proof.
  destruct (lookup_update (fun _ _ _ => 0) (fun a => createVector (cos a) (sin a))
              (fun _ v => v) (mkFlowField 22 3 2 ∅ 0.0016) 1 (createVector 30 5))
    as [Hsome _]; [cbn [cols]; lia|cbn [rows]; lia|exact Hsome].
Defined.

Lemma field_invariant_witness :
  0.0004 <= scale (foldl (react (fun _ _ _ => 0)
                                (fun a => createVector (cos a) (sin a))
                                (fun _ v => v))
                         aField [Wheel true 100000; Frame 1]) <= 0.01.
Proof.
  destruct (field_invariant (fun _ _ _ => 0) (fun a => createVector (cos a) (sin a))
              (fun _ v => v) 44 22 22 [Wheel true 100000; Frame 1])
    as (_ & _ & _ & Hs & _); [lra|lra|lra|exact Hs].
Defined.

Lemma lookup_on_canvas_witness :
  index (pos (edges 44 22 aParticle)) aField
  = (floor (x (pos (edges 44 22 aParticle)) / res aField)
     + floor (y (pos (edges 44 22 aParticle)) / res aField) * cols aField)%Z.
Proof.
  apply (lookup_on_canvas 44 22 aField aParticle);
    [cbn [aField FlowField_constructor res]; lra|lra|lra|reflexivity|reflexivity].
Defined.

End SketchFacts.

